(** * Coordinate navigation of the battleship grid

    A shallow embedding of [src/grid/coordinate-navigator.ts] and the
    properties of its queries: surrounding coordinates, distances,
    alignments, gaps, and the diagonal grid traversal.

    Conventions of the embedding.
    - An index type ([ColumnIndex], [RowIndex], TypeScript
      [PropertyKey]) is any type with decidable equality ([===]).
    - An [AdjacentIndexFinder] returns [option Index]; [None] is
      JavaScript's [undefined].
    - An [IndexSorter] returns an integer ([Z]); only its sign is used.
    - [while] loops and the self-call of [calculateDistance] are driven
      by a [fuel] counter; the result [OutOfFuel] stands for a
      computation that has not finished within [fuel] iterations.
    - Failed assertions and [throw] are the result [Throws].
    - Immutable [List]s and arrays are [list]s; [sort] is the stable
      sort by a comparator. *)

From Stdlib Require Import List ZArith Arith Bool Lia Permutation Sorted.
Import ListNotations.

Set Implicit Arguments.

(** ** Results of computations *)

Inductive Failure : Type :=
| AssertionError.

Inductive outcome (A : Type) : Type :=
| Done (a : A)
| Throws (e : Failure)
| OutOfFuel.

Arguments Done {A} a.
Arguments Throws {A} e.
Arguments OutOfFuel {A}.

Definition bind {A B : Type} (m : outcome A) (k : A -> outcome B) : outcome B :=
  match m with
  | Done a => k a
  | Throws e => Throws e
  | OutOfFuel => OutOfFuel
  end.

Notation "x <- m ;; k" := (bind m (fun x => k))
  (at level 61, m at next level, right associativity).

Fixpoint mapM {A B : Type} (f : A -> outcome B) (l : list A) : outcome (list B) :=
  match l with
  | [] => Done []
  | x :: l' =>
      y <- f x ;;
      ys <- mapM f l' ;;
      Done (y :: ys)
  end.

(** ** [Either] *)

(** Modelled from the spec: the two-armed result of [utils/either],
    with a failure on the left arm and a value on the right arm. *)
Inductive Either (L R : Type) : Type :=
| Left (l : L)
| Right (r : R).

Arguments Left {L R} l.
Arguments Right {L R} r.

Module EitherOps.

Definition swap {L R : Type} (e : Either L R) : Either R L :=
  match e with
  | Left l => Right l
  | Right r => Left r
  end.

Definition map {L R R' : Type} (f : R -> R') (e : Either L R) : Either L R' :=
  match e with
  | Left l => Left l
  | Right r => Right (f r)
  end.

Definition getOrElse {L R : Type} (e : Either L R) (default : R) : R :=
  match e with
  | Left _ => default
  | Right r => r
  end.

End EitherOps.

(** ** JavaScript numbers met by the navigator: a count or [NaN] *)

Inductive number : Type :=
| Num (n : nat)
| NaN.

Definition Number_isInteger (x : number) : bool :=
  match x with
  | Num _ => true
  | NaN => false
  end.

(** [x <= bound]; a comparison with [NaN] is false. *)
Definition number_leb (x : number) (bound : nat) : bool :=
  match x with
  | Num n => n <=? bound
  | NaN => false
  end.

(** ** Equality on indices *)

Class EqDec (A : Type) : Type :=
  eq_dec : forall x y : A, {x = y} + {x <> y}.

(** [x === y] as a boolean. *)
Definition identical {A : Type} `{EqDec A} (x y : A) : bool :=
  if eq_dec x y then true else false.

#[export] Instance option_EqDec {A : Type} `{EqDec A} : EqDec (option A).
Proof.
  intros [x |] [y |]; try (right; discriminate); [| left; reflexivity].
  destruct (eq_dec x y) as [Heq | Hneq]; [left | right]; congruence.
Defined.

(** ** Collections *)

Section Collections.
Context {A : Type}.

(** [array.filter(isNotUndefined)] *)
Fixpoint filterDefined (l : list (option A)) : list A :=
  match l with
  | [] => []
  | Some x :: l' => x :: filterDefined l'
  | None :: l' => filterDefined l'
  end.

(** [list.sort(comparator)]: the stable sort.  An element is moved
    past the elements it compares greater than ([> 0]). *)
Fixpoint insertSorted (comparator : A -> A -> Z) (x : A) (l : list A) : list A :=
  match l with
  | [] => [x]
  | y :: l' =>
      if (comparator x y >? 0)%Z then y :: insertSorted comparator x l'
      else x :: y :: l'
  end.

Definition sort (comparator : A -> A -> Z) (l : list A) : list A :=
  fold_right (insertSorted comparator) [] l.

(** [list.filter((value, index, list) => ...)] *)
Fixpoint filterIndexedFrom (p : A -> nat -> bool) (index : nat) (l : list A) : list A :=
  match l with
  | [] => []
  | x :: l' =>
      if p x index then x :: filterIndexedFrom p (S index) l'
      else filterIndexedFrom p (S index) l'
  end.

(** [list.map((value, index) => ...)] *)
Fixpoint mapIndexedFrom {B : Type} (f : A -> nat -> B) (index : nat) (l : list A) : list B :=
  match l with
  | [] => []
  | x :: l' => f x index :: mapIndexedFrom f (S index) l'
  end.

Context `{EqDec A}.

(** [list.contains(value)] *)
Definition contains (l : list A) (x : A) : bool := existsb (identical x) l.

(** [list.keyOf(value)]: the first position of the value. *)
Fixpoint keyOf (l : list A) (x : A) : option nat :=
  match l with
  | [] => None
  | y :: l' =>
      if eq_dec y x then Some 0
      else match keyOf l' x with
           | Some k => Some (S k)
           | None => None
           end
  end.

(** [list.toOrderedSet()]: the first occurrence of every value, in
    the order of the list. *)
Fixpoint toOrderedSet (l : list A) : list A :=
  match l with
  | [] => []
  | x :: l' => x :: filter (fun y => negb (identical y x)) (toOrderedSet l')
  end.

(** [map.set(key, value)] on the entries of a Map in the order of
    insertion: a key met again keeps its place and takes the new
    value. *)
Fixpoint mapSet {V : Type} (entries : list (A * V)) (key : A) (value : V) : list (A * V) :=
  match entries with
  | [] => [(key, value)]
  | (k, v) :: entries' =>
      if eq_dec k key then (k, value) :: entries'
      else (k, v) :: mapSet entries' key value
  end.

(** The largest Map that Immutable stores as an array of entries. *)
Definition MAX_ARRAY_MAP_SIZE : nat := 8.

(** The order in which a Map larger than [MAX_ARRAY_MAP_SIZE] iterates:
    the order of the hashes of its keys, given as the rearrangement of
    the entries in the order of insertion.  The hashes are no part of
    the program, so that the order is left open. *)
Definition MapOrder : Type := forall V : Type, list (A * V) -> list (A * V).

(** The entries of a Map in the order of iteration: the order of
    insertion up to [MAX_ARRAY_MAP_SIZE] entries, the order of the
    hashes beyond. *)
Definition iterate {V : Type} (hashOrder : MapOrder) (inserted : list (A * V))
  : list (A * V) :=
  if length inserted <=? MAX_ARRAY_MAP_SIZE then inserted else hashOrder V inserted.

(** [Map(entries)] of Immutable, as the list of its entries in the
    order of iteration. *)
Definition ImmutableMap {V : Type} (hashOrder : MapOrder) (entries : list (A * V))
  : list (A * V) :=
  iterate hashOrder
          (fold_left (fun m entry => mapSet m (fst entry) (snd entry)) entries []).

(** [map.filter(predicate)]: the Map of the entries kept, set in the
    order in which the map iterates. *)
Definition mapFilter {V : Type} (hashOrder : MapOrder) (predicate : A * V -> bool)
           (map : list (A * V)) : list (A * V) :=
  ImmutableMap hashOrder (filter predicate map).

End Collections.

Arguments MapOrder A : clear implicits.

(** ** Axis arithmetic *)

Section Indices.
Context {Index : Type} `{EqDec Index}.

Definition AdjacentIndexFinder : Type := Index -> option Index.
Definition IndexSorter : Type := Index -> Index -> Z.

Fixpoint calculateDistanceLoop (fuel : nat) (count : nat) (next second : Index)
         (findNextIndex : AdjacentIndexFinder) : outcome (Either unit nat) :=
  match fuel with
  | O => OutOfFuel
  | S fuel' =>
      if eq_dec next second then Done (Right count)
      else match findNextIndex next with
           | None => Done (Left tt)
           | Some potentialNext =>
               calculateDistanceLoop fuel' (S count) potentialNext second findNextIndex
           end
  end.

Definition calculateDistanceBetweenIndices (fuel : nat) (first second : Index)
           (findNextIndex : AdjacentIndexFinder) : outcome (Either unit nat) :=
  calculateDistanceLoop fuel 0 first second findNextIndex.

Fixpoint findIndexGapsLoop (fuel : nat) (sortedIndices : list Index)
         (missingIndices : list Index) (next last : Index)
         (findNextIndex : AdjacentIndexFinder) : outcome (list Index) :=
  match fuel with
  | O => OutOfFuel
  | S fuel' =>
      if eq_dec next last then Done missingIndices
      else match findNextIndex next with
           | None => Done missingIndices
           | Some potentialNext =>
               findIndexGapsLoop fuel' sortedIndices
                 (if contains sortedIndices potentialNext then missingIndices
                  else missingIndices ++ [potentialNext])
                 potentialNext last findNextIndex
           end
  end.

(** [sortedIndices] is an [OrderedSet]: a list without repetition. *)
Definition findIndexGaps (fuel : nat) (sortedIndices : list Index)
           (findNextIndex : AdjacentIndexFinder) : outcome (list Index) :=
  match sortedIndices with
  | [] => Done []
  | first :: _ =>
      let last := List.last sortedIndices first in
      if length sortedIndices <=? 1 then Done []
      else findIndexGapsLoop fuel sortedIndices [] first last findNextIndex
  end.

Definition findIndexExtremums (sortedIndices : list Index)
           (findPreviousIndex findNextIndex : AdjacentIndexFinder) : list Index :=
  match sortedIndices with
  | [] => []
  | first :: _ =>
      let last := List.last sortedIndices first in
      filterDefined [findPreviousIndex first; findNextIndex last]
  end.

Fixpoint findFirstIndexLoop (fuel : nat) (previousIndex : Index)
         (potentialPreviousIndex : option Index)
         (findPreviousIndex : AdjacentIndexFinder) : outcome Index :=
  match fuel with
  | O => OutOfFuel
  | S fuel' =>
      match potentialPreviousIndex with
      | None => Done previousIndex
      | Some index =>
          findFirstIndexLoop fuel' index (findPreviousIndex index) findPreviousIndex
      end
  end.

Definition findFirstIndex (fuel : nat) (reference : Index)
           (findPreviousIndex : AdjacentIndexFinder) : outcome Index :=
  findFirstIndexLoop fuel reference (Some reference) findPreviousIndex.

(** [range(0, stepSize).reduce(...)]; [stepSize] is a natural number,
    as the two assertions of the source demand. *)
Fixpoint findNextIndexByStepFrom (getNextIndex : AdjacentIndexFinder)
         (previousValue : option Index) (stepSize : nat) : option Index :=
  match stepSize with
  | O => previousValue
  | S stepSize' =>
      findNextIndexByStepFrom getNextIndex
        (match previousValue with
         | None => None
         | Some value => getNextIndex value
         end)
        stepSize'
  end.

Definition findNextIndexByStep (getNextIndex : AdjacentIndexFinder)
           (initialValue : Index) (stepSize : nat) : option Index :=
  findNextIndexByStepFrom getNextIndex (Some initialValue) stepSize.

Fixpoint createIndicesLoop (fuel : nat) (indices : list Index)
         (previousColumnIndex : Index) (getNextIndex : AdjacentIndexFinder)
  : outcome (list Index) :=
  match fuel with
  | O => OutOfFuel
  | S fuel' =>
      match getNextIndex previousColumnIndex with
      | None => Done indices
      | Some nextColumnIndex =>
          createIndicesLoop fuel' (indices ++ [nextColumnIndex]) nextColumnIndex getNextIndex
      end
  end.

Definition createIndices (fuel : nat) (originIndex : Index)
           (getNextIndex : AdjacentIndexFinder) : outcome (list Index) :=
  createIndicesLoop fuel [originIndex] originIndex getNextIndex.

(** *** [LoopableIndices] *)

Record LoopableIndices : Type := mkLoopableIndices {
  indices : list Index;
  initialIndex : Index;
  nextIndexIndex : option nat;
}.

Definition newLoopableIndices (indices : list Index) (initialIndex : Index)
  : outcome LoopableIndices :=
  if contains indices initialIndex
  then Done (mkLoopableIndices indices initialIndex None)
  else Throws AssertionError.

(** The new state and the returned index.  [indices.get(i)!] is read
    with [initialIndex] as the value out of range; see
    [getNextIndex_in_range]. *)
Definition getNextIndex (self : LoopableIndices) : Index * LoopableIndices :=
  match nextIndexIndex self with
  | None =>
      (initialIndex self,
       mkLoopableIndices (indices self) (initialIndex self)
         (keyOf (indices self) (initialIndex self)))
  | Some nextIndexIndex =>
      let newNextIndexIndex := S nextIndexIndex in
      let newNextIndexIndex :=
        if newNextIndexIndex <? length (indices self) then newNextIndexIndex else 0 in
      (nth newNextIndexIndex (indices self) (initialIndex self),
       mkLoopableIndices (indices self) (initialIndex self) (Some newNextIndexIndex))
  end.

End Indices.

Arguments AdjacentIndexFinder Index : clear implicits.
Arguments IndexSorter Index : clear implicits.
Arguments LoopableIndices Index : clear implicits.

(** ** Coordinates and alignments *)

(** Modelled from the spec: the enumeration of [ship/ship-direction]. *)
Inductive ShipDirection : Type :=
| HORIZONTAL
| VERTICAL.

#[export] Instance ShipDirection_EqDec : EqDec ShipDirection.
Proof. intros x y. unfold EqDec. decide equality. Defined.

(** Modelled from the spec: the target size of [ship/ship-size], a
    count of cells. *)
Definition ShipSize : Type := nat.

Section Navigator.
Context {ColumnIndex RowIndex : Type}.
Context `{EqDec ColumnIndex} `{EqDec RowIndex}.

(** Modelled from the spec: the class [Coordinate] of
    [src/grid/coordinate.ts], an immutable pair whose equality is the
    equality of both components. *)
Record Coordinate : Type := mkCoordinate {
  columnIndex : ColumnIndex;
  rowIndex : RowIndex;
}.

#[export] Instance Coordinate_EqDec : EqDec Coordinate.
Proof.
  intros [c1 r1] [c2 r2].
  destruct (eq_dec c1 c2) as [Hc | Hc]; [| right; congruence].
  destruct (eq_dec r1 r2) as [Hr | Hr]; [| right; congruence].
  left; congruence.
Defined.

Record CoordinateAlignment : Type := mkAlignment {
  direction : ShipDirection;
  coordinates : list Coordinate;
}.

Definition CoordinateSorter : Type := Coordinate -> Coordinate -> Z.

(** The error of [calculateDistance]; its message names the pair. *)
Inductive NonAlignedCoordinates : Type :=
| forPair (first second : Coordinate).

Definition findCoordinatesAlignmentDirection (first second : Coordinate)
  : option ShipDirection :=
  if eq_dec (columnIndex first) (columnIndex second) then Some VERTICAL
  else if eq_dec (rowIndex first) (rowIndex second) then Some HORIZONTAL
  else None.

Record CoordinateAlignmentCandidate : Type := mkCandidate {
  candidate : Coordinate;
  alignment : option ShipDirection;
  distance : number;
}.

Definition getOrigin (fuel : nat) (reference : Coordinate)
           (findPreviousColumnIndex : AdjacentIndexFinder ColumnIndex)
           (findPreviousRowIndex : AdjacentIndexFinder RowIndex) : outcome Coordinate :=
  originColumnIndex <- findFirstIndex fuel (columnIndex reference) findPreviousColumnIndex ;;
  originRowIndex <- findFirstIndex fuel (rowIndex reference) findPreviousRowIndex ;;
  Done (mkCoordinate originColumnIndex originRowIndex).

(** [columnIndices.map(c => new Coordinate(c, loopable.getNextIndex()))] *)
Fixpoint traverseStartingCoordinatesFrom (loopableStartingRows : LoopableIndices RowIndex)
         (columnIndices : list ColumnIndex) : list Coordinate :=
  match columnIndices with
  | [] => []
  | startingColumnIndex :: columnIndices' =>
      let (row, loopableStartingRows') := getNextIndex loopableStartingRows in
      mkCoordinate startingColumnIndex row
        :: traverseStartingCoordinatesFrom loopableStartingRows' columnIndices'
  end.

Definition traverseGridDiagonally (fuel : nat)
           (columnIndices : list ColumnIndex)
           (minShipSize : ShipSize)
           (potentialStartingCoordinates : list Coordinate)
           (startingCoordinate : Coordinate)
           (findNextRowIndex : AdjacentIndexFinder RowIndex)
  : outcome (list Coordinate) :=
  if negb (contains potentialStartingCoordinates startingCoordinate)
  then Throws AssertionError
  else
    loopableStartingRows <-
      newLoopableIndices (map rowIndex potentialStartingCoordinates)
                         (rowIndex startingCoordinate) ;;
    let findNextRowByStep : AdjacentIndexFinder RowIndex :=
      fun initialValue => findNextIndexByStep findNextRowIndex initialValue minShipSize in
    let traverseStartingCoordinates :=
      traverseStartingCoordinatesFrom loopableStartingRows columnIndices in
    lists <- mapM (fun traverseFirstCoordinate =>
                     rowIndices <- createIndices fuel (rowIndex traverseFirstCoordinate)
                                                 findNextRowByStep ;;
                     Done (map (fun rowIndex =>
                                  mkCoordinate (columnIndex traverseFirstCoordinate) rowIndex)
                               rowIndices))
                  traverseStartingCoordinates ;;
    Done (concat lists).

(** *** The navigator *)

Record CoordinateNavigator : Type := mkNavigator {
  findPreviousColumnIndex : AdjacentIndexFinder ColumnIndex;
  findNextColumnIndex : AdjacentIndexFinder ColumnIndex;
  columnIndexSorter : IndexSorter ColumnIndex;
  findPreviousRowIndex : AdjacentIndexFinder RowIndex;
  findNextRowIndex : AdjacentIndexFinder RowIndex;
  rowIndexSorter : IndexSorter RowIndex;
  reference : Coordinate;
}.

Variable this : CoordinateNavigator.

Definition createCoordinatesSorter : CoordinateSorter :=
  fun left right =>
    let rowSortResult := rowIndexSorter this (rowIndex left) (rowIndex right) in
    if negb (rowSortResult =? 0)%Z then rowSortResult
    else columnIndexSorter this (columnIndex left) (columnIndex right).

Definition getSurroundingCoordinates (target : Coordinate) : list Coordinate :=
  let targetColumnIndex := columnIndex target in
  let targetRowIndex := rowIndex target in
  let potentialColumnIndices :=
    filterDefined [findPreviousColumnIndex this targetColumnIndex;
                   findNextColumnIndex this targetColumnIndex] in
  let potentialRowIndices :=
    filterDefined [findPreviousRowIndex this targetRowIndex;
                   findNextRowIndex this targetRowIndex] in
  sort createCoordinatesSorter
       (map (fun columnIndex => mkCoordinate columnIndex targetRowIndex)
            potentialColumnIndices
        ++ map (fun rowIndex => mkCoordinate targetColumnIndex rowIndex)
               potentialRowIndices).

(** [distance.swap().map(() => error).swap()] *)
Definition withError (error : NonAlignedCoordinates) (distance : Either unit nat)
  : Either NonAlignedCoordinates nat :=
  EitherOps.swap (EitherOps.map (fun _ => error) (EitherOps.swap distance)).

Fixpoint calculateDistance (fuel : nat) (first second : Coordinate)
  : outcome (Either NonAlignedCoordinates nat) :=
  match fuel with
  | O => OutOfFuel
  | S fuel' =>
      if (createCoordinatesSorter first second >? 0)%Z
      then calculateDistance fuel' second first
      else
        let error := forPair first second in
        if eq_dec (columnIndex first) (columnIndex second) then
          distance <- calculateDistanceBetweenIndices fuel
                        (rowIndex first) (rowIndex second) (findNextRowIndex this) ;;
          Done (withError error distance)
        else if eq_dec (rowIndex first) (rowIndex second) then
          distance <- calculateDistanceBetweenIndices fuel
                        (columnIndex first) (columnIndex second) (findNextColumnIndex this) ;;
          Done (withError error distance)
        else Done (Left error)
  end.

(** *** [findAlignments] *)

Definition mapCandidateToPotentialAlignment (fuel : nat) (candidate reference : Coordinate)
  : outcome CoordinateAlignmentCandidate :=
  result <- calculateDistance fuel candidate reference ;;
  Done (mkCandidate candidate
                    (findCoordinatesAlignmentDirection candidate reference)
                    (EitherOps.getOrElse (EitherOps.map Num result) NaN)).

Definition isNotUndefined {A : Type} (value : option A) : bool :=
  match value with
  | Some _ => true
  | None => false
  end.

Definition filterInvalidAlignmentCandidate (maxDistance : ShipSize)
           (alignmentCandidate : CoordinateAlignmentCandidate) : bool :=
  isNotUndefined (alignment alignmentCandidate)
  && Number_isInteger (distance alignmentCandidate)
  && number_leb (distance alignmentCandidate) maxDistance.

Definition groupCandidatesFromDirection (direction : ShipDirection)
           (alignmentCandidates : list CoordinateAlignmentCandidate)
           (reference : Coordinate) : CoordinateAlignment :=
  mkAlignment direction
    (sort createCoordinatesSorter
          (map candidate
               (filter (fun c => identical (alignment c) (Some direction)) alignmentCandidates)
           ++ [reference])).

Definition filterRedundantAlignments (alignment : CoordinateAlignment)
           (alignmentIndex : nat) (alignments : list CoordinateAlignment) : bool :=
  match alignmentIndex with
  | O => true
  | S previousIndex =>
      match nth_error alignments previousIndex with
      | None => true
      | Some previousAlignment =>
          negb (fold_left
                  (fun alignmentIsContained coordinate =>
                     alignmentIsContained
                     && contains (coordinates previousAlignment) coordinate)
                  (coordinates alignment) true)
      end
  end.

(** The order in which the large maps of coordinates iterate. *)
Variable hashOrder : MapOrder Coordinate.

(** [map.map(mapper)] sets the new values at the keys of the map and
    keeps their order. *)
Definition findAlignments (fuel : nat) (coordinates : list Coordinate)
           (maxDistance : ShipSize) : outcome (list CoordinateAlignment) :=
  let coordinatesSorter := createCoordinatesSorter in
  let sorted := sort coordinatesSorter coordinates in
  let candidatesMap :=
    ImmutableMap hashOrder
      (mapIndexedFrom (fun coordinate index => (coordinate, skipn (index + 1) sorted))
                      0 sorted) in
  let withCandidates :=
    mapFilter hashOrder (fun entry => 0 <? length (snd entry)) candidatesMap in
  validCandidates <-
    mapM (fun entry =>
            let reference := fst entry in
            potentialAlignments <-
              mapM (fun candidate =>
                      mapCandidateToPotentialAlignment fuel candidate reference)
                   (snd entry) ;;
            Done (reference,
                  filter (filterInvalidAlignmentCandidate maxDistance) potentialAlignments))
         withCandidates ;;
  let withValidCandidates :=
    mapFilter hashOrder (fun entry => 0 <? length (snd entry)) validCandidates in
  let groups :=
    map (fun entry =>
           [groupCandidatesFromDirection HORIZONTAL (snd entry) (fst entry);
            groupCandidatesFromDirection VERTICAL (snd entry) (fst entry)])
        withValidCandidates in
  let alignments :=
    filter (fun alignment => 1 <? length (Navigator.coordinates alignment))
           (concat groups) in
  Done (filterIndexedFrom
          (fun alignment index => filterRedundantAlignments alignment index alignments)
          0 alignments).

(** *** Gaps and extremums of an alignment *)

Definition findAlignmentGaps (fuel : nat) (alignment : CoordinateAlignment)
  : outcome (list Coordinate) :=
  match coordinates alignment with
  | [] | [_] => Done []
  | first :: _ =>
      match direction alignment with
      | HORIZONTAL =>
          let rowIndex := rowIndex first in
          missingColumns <-
            findIndexGaps fuel
              (toOrderedSet
                 (map columnIndex (sort createCoordinatesSorter (coordinates alignment))))
              (findNextColumnIndex this) ;;
          Done (map (fun columnIndex => mkCoordinate columnIndex rowIndex) missingColumns)
      | VERTICAL =>
          let columnIndex := columnIndex first in
          missingRows <-
            findIndexGaps fuel
              (toOrderedSet
                 (map Navigator.rowIndex
                      (sort createCoordinatesSorter (coordinates alignment))))
              (findNextRowIndex this) ;;
          Done (map (fun rowIndex => mkCoordinate columnIndex rowIndex) missingRows)
      end
  end.

Definition findNextExtremums (alignment : CoordinateAlignment) : list Coordinate :=
  match coordinates alignment with
  | [] => []
  | first :: _ =>
      match direction alignment with
      | HORIZONTAL =>
          let rowIndex := rowIndex first in
          let missingColumns :=
            findIndexExtremums
              (toOrderedSet
                 (map columnIndex (sort createCoordinatesSorter (coordinates alignment))))
              (findPreviousColumnIndex this) (findNextColumnIndex this) in
          map (fun columnIndex => mkCoordinate columnIndex rowIndex) missingColumns
      | VERTICAL =>
          let columnIndex := columnIndex first in
          let missingRows :=
            findIndexExtremums
              (toOrderedSet
                 (map Navigator.rowIndex
                      (sort createCoordinatesSorter (coordinates alignment))))
              (findPreviousRowIndex this) (findNextRowIndex this) in
          map (fun rowIndex => mkCoordinate columnIndex rowIndex) missingRows
      end
  end.

(** *** The traversal of the grid *)

(** The origin is a function of the navigator's fixed fields; the
    cache of the source only saves its recomputation. *)
Definition getGridOrigin (fuel : nat) : outcome Coordinate :=
  getOrigin fuel (reference this) (findPreviousColumnIndex this) (findPreviousRowIndex this).

Definition findStartingCoordinates (fuel : nat) (minShipSize : ShipSize)
  : outcome (list Coordinate) :=
  origin <- getGridOrigin fuel ;;
  Done (sort createCoordinatesSorter
             (map (fun newRowIndex => mkCoordinate (columnIndex origin) newRowIndex)
                  (filterDefined
                     (map (fun distanceToOrigin =>
                             findNextIndexByStep (findNextRowIndex this)
                                                 (rowIndex origin) distanceToOrigin)
                          (seq 0 minShipSize))))).

Definition mirror (fuel : nat) (coordinates : list Coordinate) : outcome (list Coordinate) :=
  origin <- getGridOrigin fuel ;;
  rowIndices <- createIndices fuel (rowIndex origin) (findNextRowIndex this) ;;
  let reversedRowIndices := rev rowIndices in
  let getReversedRowIndex (rowIndex : RowIndex) : outcome RowIndex :=
    match keyOf rowIndices rowIndex with
    | None => Throws AssertionError
    | Some index => Done (nth index reversedRowIndices rowIndex)
    end in
  mapM (fun coordinate =>
          reversedRowIndex <- getReversedRowIndex (rowIndex coordinate) ;;
          Done (mkCoordinate (columnIndex coordinate) reversedRowIndex))
       coordinates.

Definition traverseGridDiagonallyInDirection (fuel : nat) (minShipSize : ShipSize)
  : outcome (list (list Coordinate)) :=
  origin <- getGridOrigin fuel ;;
  columnIndices <- createIndices fuel (columnIndex origin) (findNextColumnIndex this) ;;
  startingCoordinates <- findStartingCoordinates fuel minShipSize ;;
  mapM (fun startingCoordinate =>
          traverseGridDiagonally fuel columnIndices minShipSize
                                 startingCoordinates startingCoordinate
                                 (findNextRowIndex this))
       startingCoordinates.

Definition traverseGrid (fuel : nat) (minShipSize : ShipSize)
  : outcome (list (list Coordinate)) :=
  lists <- traverseGridDiagonallyInDirection fuel minShipSize ;;
  pairs <- mapM (fun list =>
                   mirrored <- mirror fuel list ;;
                   Done [list; mirrored])
                lists ;;
  Done (filter (fun list => 0 <? length list) (concat pairs)).

End Navigator.

Arguments Coordinate ColumnIndex RowIndex : clear implicits.
Arguments CoordinateAlignment ColumnIndex RowIndex : clear implicits.
Arguments CoordinateNavigator ColumnIndex RowIndex : clear implicits.
Arguments NonAlignedCoordinates ColumnIndex RowIndex : clear implicits.
Arguments CoordinateAlignmentCandidate ColumnIndex RowIndex : clear implicits.

(** ** The example grid: columns A to E, rows 1 to 5 *)

Module TestGrid.

(** Modelled from the spec: the grid of the examples, with lettered
    columns A to E, numeric rows 1 to 5, adjacency by steps of one and
    boundaries at A, 1, E and 5. *)
Inductive TestColumn : Type := A | B | C | D | E.

#[export] Instance TestColumn_EqDec : EqDec TestColumn.
Proof. intros x y. unfold EqDec. decide equality. Defined.

#[export] Instance TestRow_EqDec : EqDec Z := Z.eq_dec.

Definition columnOrdinal (column : TestColumn) : Z :=
  match column with
  | A => 1 | B => 2 | C => 3 | D => 4 | E => 5
  end%Z.

Definition previousColumn (column : TestColumn) : option TestColumn :=
  match column with
  | A => None | B => Some A | C => Some B | D => Some C | E => Some D
  end.

Definition nextColumn (column : TestColumn) : option TestColumn :=
  match column with
  | A => Some B | B => Some C | C => Some D | D => Some E | E => None
  end.

Definition sortColumns (left right : TestColumn) : Z :=
  (columnOrdinal left - columnOrdinal right)%Z.

Definition previousRow (row : Z) : option Z :=
  if ((1 <? row) && (row <=? 5))%Z then Some (row - 1)%Z else None.

Definition nextRow (row : Z) : option Z :=
  if ((1 <=? row) && (row <? 5))%Z then Some (row + 1)%Z else None.

Definition sortRows (left right : Z) : Z := (left - right)%Z.

Definition TestCoordinate : Type := Coordinate TestColumn Z.

Definition coordinate (column : TestColumn) (row : Z) : TestCoordinate :=
  mkCoordinate column row.

Definition navigator : CoordinateNavigator TestColumn Z :=
  mkNavigator previousColumn nextColumn sortColumns
              previousRow nextRow sortRows
              (coordinate C 3).

Definition columns : list TestColumn := [A; B; C; D; E].
Definition rows : list Z := [1; 2; 3; 4; 5]%Z.

(** An order of the hashes for the examples: a large map iterates
    over its keys from the last cell of the grid to the first. *)
Definition descendingOrder : MapOrder TestCoordinate :=
  fun V entries =>
    sort (fun left right => createCoordinatesSorter navigator (fst right) (fst left))
         entries.

(** The order of the coordinate sorter of the example grid. *)
Definition rowMajor (left right : TestCoordinate) : Prop :=
  (createCoordinatesSorter navigator left right <= 0)%Z.

Definition A1 := coordinate A 1.
Definition A2 := coordinate A 2.
Definition A3 := coordinate A 3.
Definition A4 := coordinate A 4.
Definition A5 := coordinate A 5.
Definition B1 := coordinate B 1.
Definition B2 := coordinate B 2.
Definition B3 := coordinate B 3.
Definition C1 := coordinate C 1.
Definition C2 := coordinate C 2.
Definition C3 := coordinate C 3.
Definition C4 := coordinate C 4.
Definition D3 := coordinate D 3.
Definition E1 := coordinate E 1.

End TestGrid.

Unset Implicit Arguments.

(** ** Vocabulary of the properties *)

(** The order of the hashes rearranges the entries of a map: it
    neither loses nor adds nor repeats an entry. *)
Definition rearranges {A : Type} (hashOrder : MapOrder A) : Prop :=
  forall (V : Type) (entries : list (A * V)), Permutation (hashOrder V entries) entries.

Section Axes.
Context {Index : Type} `{EqDec Index}.

(** [walk next i l]: [l] lists [i], its successor, and so on up to
    the boundary of the axis. *)
Inductive walk (next : AdjacentIndexFinder Index) : Index -> list Index -> Prop :=
| walk_boundary : forall i, next i = None -> walk next i [i]
| walk_step : forall i j l, next i = Some j -> walk next j l -> walk next i (i :: l).

(** An adjacency function is finite and acyclic when no index starts
    an endless sequence of steps. *)
Definition finiteAcyclic (next : AdjacentIndexFinder Index) : Prop :=
  well_founded (fun j i => next i = Some j).

(** A well-formed finite axis: [axis] lists its indices from the
    first to the last without repetition, [next] and [previous] move
    by one place and the sorter compares places. *)
Record WellFormedAxis (previous next : AdjacentIndexFinder Index)
       (sorter : IndexSorter Index) (axis : list Index) : Prop := {
  axis_NoDup : NoDup axis;
  axis_next : forall k i, nth_error axis k = Some i -> next i = nth_error axis (S k);
  axis_previous : forall k i, nth_error axis (S k) = Some i -> previous i = nth_error axis k;
  axis_first : forall i, nth_error axis 0 = Some i -> previous i = None;
  axis_sorter : forall k l i j,
      nth_error axis k = Some i -> nth_error axis l = Some j ->
      Z.sgn (sorter i j) = Z.sgn (Z.of_nat k - Z.of_nat l);
}.

(** The order of the keys. *)
Definition keyLe {A : Type} (key : A -> nat) (x y : A) : Prop := key x <= key y.

(** The place of an index on the axis. *)
Definition place (axis : list Index) (i : Index) : nat :=
  match keyOf axis i with
  | Some k => k
  | None => length axis
  end.

(** The index lies on the axis strictly between two indices of [l]. *)
Definition strictlyInside (axis l : list Index) (i : Index) : Prop :=
  In i axis
  /\ exists first last,
      In first l /\ In last l
      /\ place axis first < place axis i /\ place axis i < place axis last.

(** The sorter follows the contract of a comparator: exchanging the
    arguments changes the sign. *)
Definition antisymmetric (sorter : IndexSorter Index) : Prop :=
  forall i j, Z.sgn (sorter j i) = (- Z.sgn (sorter i j))%Z.

End Axes.

Section Grids.
Context {ColumnIndex RowIndex : Type}.
Context `{EqDec ColumnIndex} `{EqDec RowIndex}.

(** A coordinate of the grid spanned by the two axes. *)
Definition onGrid (columns : list ColumnIndex) (rows : list RowIndex)
           (coordinate : Coordinate ColumnIndex RowIndex) : Prop :=
  In (columnIndex coordinate) columns /\ In (rowIndex coordinate) rows.

(** Both axes of the navigator are well formed. *)
Definition WellFormedGrid (this : CoordinateNavigator ColumnIndex RowIndex)
           (columns : list ColumnIndex) (rows : list RowIndex) : Prop :=
  WellFormedAxis (findPreviousColumnIndex this) (findNextColumnIndex this)
                 (columnIndexSorter this) columns
  /\ WellFormedAxis (findPreviousRowIndex this) (findNextRowIndex this)
                    (rowIndexSorter this) rows.

(** The members of an alignment share the row (HORIZONTAL) or the
    column (VERTICAL). *)
Definition sharesAxis (alignment : CoordinateAlignment ColumnIndex RowIndex) : Prop :=
  match direction alignment with
  | HORIZONTAL => exists row, forall c, In c (coordinates alignment) -> rowIndex c = row
  | VERTICAL => exists column, forall c, In c (coordinates alignment) -> columnIndex c = column
  end.

(** One adjacency step from [target] on exactly one axis. *)
Definition oneStepFrom (this : CoordinateNavigator ColumnIndex RowIndex)
           (target coordinate : Coordinate ColumnIndex RowIndex) : Prop :=
  (rowIndex coordinate = rowIndex target
   /\ (findPreviousColumnIndex this (columnIndex target) = Some (columnIndex coordinate)
       \/ findNextColumnIndex this (columnIndex target) = Some (columnIndex coordinate)))
  \/ (columnIndex coordinate = columnIndex target
      /\ (findPreviousRowIndex this (rowIndex target) = Some (rowIndex coordinate)
          \/ findNextRowIndex this (rowIndex target) = Some (rowIndex coordinate))).

(** The target is at a boundary of the grid: some adjacency lookup
    returns none. *)
Definition atBoundary (this : CoordinateNavigator ColumnIndex RowIndex)
           (target : Coordinate ColumnIndex RowIndex) : Prop :=
  findPreviousColumnIndex this (columnIndex target) = None
  \/ findNextColumnIndex this (columnIndex target) = None
  \/ findPreviousRowIndex this (rowIndex target) = None
  \/ findNextRowIndex this (rowIndex target) = None.

(** The index is met by stepping from [origin]. *)
Definition reachable {Index : Type} (next : AdjacentIndexFinder Index)
           (origin i : Index) : Prop :=
  exists d, findNextIndexByStep next origin d = Some i.

(** The cells of the grid that starts at [origin]. *)
Definition inGrid (this : CoordinateNavigator ColumnIndex RowIndex)
           (origin coordinate : Coordinate ColumnIndex RowIndex) : Prop :=
  reachable (findNextColumnIndex this) (columnIndex origin) (columnIndex coordinate)
  /\ reachable (findNextRowIndex this) (rowIndex origin) (rowIndex coordinate).

(** The indices met from [start] in [0], [1], ... [size - 1] steps. *)
Definition axisRun {Index : Type} (next : AdjacentIndexFinder Index)
           (start : Index) (size : nat) : list (option Index) :=
  map (findNextIndexByStep next start) (seq 0 size).

(** An axis-aligned contiguous run of [size] cells. *)
Inductive isRun (this : CoordinateNavigator ColumnIndex RowIndex) (size : nat)
  : list (Coordinate ColumnIndex RowIndex) -> Prop :=
| horizontalRun : forall start columns,
    axisRun (findNextColumnIndex this) (columnIndex start) size = map Some columns ->
    isRun this size (map (fun column => mkCoordinate column (rowIndex start)) columns)
| verticalRun : forall start rows,
    axisRun (findNextRowIndex this) (rowIndex start) size = map Some rows ->
    isRun this size (map (fun row => mkCoordinate (columnIndex start) row) rows).

End Grids.

(** ** Vocabulary of the further properties *)

Section MoreAxes.
Context {Index : Type} `{EqDec Index}.

(** The index is one step before the first index of [l] or one step
    after the last index of [l], by their places on the axis. *)
Definition extremumOf (axis : list Index) (previous next : AdjacentIndexFinder Index)
           (l : list Index) (i : Index) : Prop :=
  exists member,
    In member l
    /\ (((forall x, In x l -> place axis member <= place axis x)
         /\ previous member = Some i)
        \/ ((forall x, In x l -> place axis x <= place axis member)
            /\ next member = Some i)).

(** The index returned by the [n]-th call, counted from 0, of
    [getNextIndex] on a cursor. *)
Fixpoint nthNextIndex (self : LoopableIndices Index) (n : nat) : Index :=
  match n with
  | O => fst (getNextIndex self)
  | S n' => nthNextIndex (snd (getNextIndex self)) n'
  end.

End MoreAxes.

Section MoreGrids.
Context {ColumnIndex RowIndex : Type}.
Context `{EqDec ColumnIndex} `{EqDec RowIndex}.

(** The coordinate is on the line of the alignment, strictly between
    two of its members. *)
Definition insideAlignment (columns : list ColumnIndex) (rows : list RowIndex)
           (alignment : CoordinateAlignment ColumnIndex RowIndex)
           (coordinate : Coordinate ColumnIndex RowIndex) : Prop :=
  match direction alignment with
  | HORIZONTAL =>
      (exists member, In member (coordinates alignment)
                      /\ rowIndex coordinate = rowIndex member)
      /\ strictlyInside columns (map (@columnIndex _ _) (coordinates alignment))
                        (columnIndex coordinate)
  | VERTICAL =>
      (exists member, In member (coordinates alignment)
                      /\ columnIndex coordinate = columnIndex member)
      /\ strictlyInside rows (map (@rowIndex _ _) (coordinates alignment))
                        (rowIndex coordinate)
  end.

(** The coordinate is on the line of the alignment, one step before
    its first member or one step after its last member. *)
Definition besideAlignment (this : CoordinateNavigator ColumnIndex RowIndex)
           (columns : list ColumnIndex) (rows : list RowIndex)
           (alignment : CoordinateAlignment ColumnIndex RowIndex)
           (coordinate : Coordinate ColumnIndex RowIndex) : Prop :=
  match direction alignment with
  | HORIZONTAL =>
      (exists member, In member (coordinates alignment)
                      /\ rowIndex coordinate = rowIndex member)
      /\ extremumOf columns (findPreviousColumnIndex this) (findNextColumnIndex this)
                    (map (@columnIndex _ _) (coordinates alignment))
                    (columnIndex coordinate)
  | VERTICAL =>
      (exists member, In member (coordinates alignment)
                      /\ columnIndex coordinate = columnIndex member)
      /\ extremumOf rows (findPreviousRowIndex this) (findNextRowIndex this)
                    (map (@rowIndex _ _) (coordinates alignment))
                    (rowIndex coordinate)
  end.

End MoreGrids.

Import TestGrid.
Lemma identical_true_iff {A : Type} `{EqDec A} (x y : A) : identical x y = true <-> x = y.
Proof.
  unfold identical. destruct (eq_dec x y); split; intros; congruence.
Qed.

Lemma identical_false_iff {A : Type} `{EqDec A} (x y : A) : identical x y = false <-> x <> y.
Proof.
  unfold identical. destruct (eq_dec x y); split; intros; congruence.
Qed.

Lemma identical_refl {A : Type} `{EqDec A} (x : A) : identical x x = true.
Proof. apply identical_true_iff. reflexivity. Qed.

(** ** Facts on results *)

Lemma mapM_Done {A B : Type} (f : A -> outcome B) (g : A -> B) (l : list A) :
  (forall x, In x l -> f x = Done (g x)) -> mapM f l = Done (map g l).
Proof.
  induction l as [| x l IH]; intros Hf; simpl; [reflexivity |].
  rewrite (Hf x (or_introl eq_refl)). simpl.
  rewrite IH by (intros y Hy; apply Hf; right; exact Hy).
  reflexivity.
Qed.

Lemma mapM_Done_inv {A B : Type} (f : A -> outcome B) (l : list A) (r : list B) :
  mapM f l = Done r -> Forall2 (fun x y => f x = Done y) l r.
Proof.
  revert r. induction l as [| x l IH]; intros r Hr; simpl in Hr.
  - injection Hr as <-. constructor.
  - destruct (f x) as [y | |] eqn:Hx; simpl in Hr; try discriminate.
    destruct (mapM f l) as [ys | |] eqn:Hl; simpl in Hr; try discriminate.
    injection Hr as <-. constructor; [exact Hx | apply IH; reflexivity].
Qed.

(** ** Walks along an axis *)

Section WalkFacts.
Context {Index : Type} `{EqDec Index}.
Variable next : AdjacentIndexFinder Index.

Lemma walk_head i l : walk next i l -> exists l', l = i :: l'.
Proof. intros Hw; inversion Hw; subst; eauto. Qed.

Lemma walk_functional i l1 l2 : walk next i l1 -> walk next i l2 -> l1 = l2.
Proof.
  intros Hw. revert l2.
  induction Hw as [i Hi | i j l Hij Hw IH]; intros l2 Hw2;
    inversion Hw2; subst; try congruence.
  f_equal. apply IH. congruence.
Qed.

Lemma finiteAcyclic_walk i : Acc (fun j i => next i = Some j) i -> exists l, walk next i l.
Proof.
  induction 1 as [i _ IH].
  destruct (next i) as [j |] eqn:Hi.
  - destruct (IH j eq_refl) as [l Hl]. exists (i :: l). eapply walk_step; eauto.
  - exists [i]. apply walk_boundary; exact Hi.
Qed.

Lemma findNextIndexByStepFrom_None d :
  findNextIndexByStepFrom next None d = None.
Proof. induction d as [| d IH]; simpl; [reflexivity | exact IH]. Qed.

Lemma walk_nth_error i l :
  walk next i l -> forall d, findNextIndexByStep next i d = nth_error l d.
Proof.
  unfold findNextIndexByStep.
  induction 1 as [i Hi | i j l Hij Hw IH]; intros d; destruct d as [| d];
    simpl; try reflexivity.
  - rewrite Hi, findNextIndexByStepFrom_None. destruct d; reflexivity.
  - rewrite Hij. apply IH.
Qed.

Lemma walk_suffix i l :
  walk next i l -> forall d x, nth_error l d = Some x -> walk next x (skipn d l).
Proof.
  induction 1 as [i Hi | i j l Hij Hw IH]; intros [| d] x Hx; simpl in *.
  - injection Hx as <-. apply walk_boundary; exact Hi.
  - destruct d; discriminate.
  - injection Hx as <-. eapply walk_step; eauto.
  - eapply IH; eauto.
Qed.

Lemma walk_next_nth i l :
  walk next i l -> forall d x, nth_error l d = Some x -> next x = nth_error l (S d).
Proof.
  intros Hw d x Hx.
  pose proof (walk_suffix _ _ Hw d _ Hx) as Hs.
  replace (S d) with (d + 1) by lia.
  rewrite <- nth_error_skipn.
  remember (skipn d l) as s eqn:Hsk. clear Hsk.
  destruct Hs as [x Hn | x j l' Hn Hw']; rewrite Hn; [reflexivity |].
  destruct (walk_head _ _ Hw') as [l'' ->]. reflexivity.
Qed.

Lemma walk_NoDup i l : walk next i l -> NoDup l.
Proof.
  induction 1 as [i Hi | i j l Hij Hw IH].
  - constructor; [intros [] | constructor].
  - constructor; [| exact IH].
    intros Hin. apply In_nth_error in Hin. destruct Hin as [d Hd].
    pose proof (walk_suffix _ _ Hw d _ Hd) as Hs.
    pose proof (walk_functional _ _ _ Hs (walk_step _ _ _ _ Hij Hw)) as Heq.
    apply (f_equal (@length _)) in Heq. rewrite length_skipn in Heq. simpl in Heq. lia.
Qed.

Lemma createIndicesLoop_walk i l :
  walk next i l ->
  forall fuel indices, length l <= fuel ->
    createIndicesLoop fuel indices i next = Done (indices ++ tl l).
Proof.
  induction 1 as [i Hi | i j l Hij Hw IH]; intros [| fuel] indices Hfuel;
    simpl in *; try lia.
  - rewrite Hi, app_nil_r. reflexivity.
  - rewrite Hij, IH by lia. destruct (walk_head _ _ Hw) as [l' ->]. simpl.
    rewrite <- app_assoc. reflexivity.
Qed.

Lemma createIndices_walk i l fuel :
  walk next i l -> length l <= fuel -> createIndices fuel i next = Done l.
Proof.
  intros Hw Hfuel. unfold createIndices.
  rewrite (createIndicesLoop_walk _ _ Hw) by exact Hfuel.
  destruct (walk_head _ _ Hw) as [l' ->]. reflexivity.
Qed.

End WalkFacts.

(** ** Distances *)

Section DistanceFacts.
Context {ColumnIndex RowIndex : Type}.
Context `{EqDec ColumnIndex} `{EqDec RowIndex}.
Variable this : CoordinateNavigator ColumnIndex RowIndex.

Lemma calculateDistance_swap fuel (first second : Coordinate ColumnIndex RowIndex) :
  (createCoordinatesSorter this first second > 0)%Z ->
  calculateDistance this (S fuel) first second = calculateDistance this fuel second first.
Proof.
  intros Hgt. simpl.
  destruct (createCoordinatesSorter this first second >? 0)%Z eqn:Hcmp; [reflexivity | lia].
Qed.

Lemma calculateDistance_not_aligned_ordered fuel (first second : Coordinate ColumnIndex RowIndex) :
  (createCoordinatesSorter this first second <= 0)%Z ->
  columnIndex first <> columnIndex second ->
  rowIndex first <> rowIndex second ->
  calculateDistance this (S fuel) first second = Done (Left (forPair first second)).
Proof.
  intros Hsorted Hcolumn Hrow. simpl.
  destruct (createCoordinatesSorter this first second >? 0)%Z eqn:Hgt; [lia |].
  destruct (eq_dec (columnIndex first) (columnIndex second)); [contradiction |].
  destruct (eq_dec (rowIndex first) (rowIndex second)); [contradiction |].
  reflexivity.
Qed.

Lemma createCoordinatesSorter_antisymmetric :
  antisymmetric (columnIndexSorter this) ->
  antisymmetric (rowIndexSorter this) ->
  forall a b : Coordinate ColumnIndex RowIndex,
    Z.sgn (createCoordinatesSorter this b a)
    = (- Z.sgn (createCoordinatesSorter this a b))%Z.
Proof.
  intros Hcolumns Hrows a b. unfold createCoordinatesSorter.
  pose proof (Hrows (rowIndex a) (rowIndex b)) as Hr.
  pose proof (Hcolumns (columnIndex a) (columnIndex b)) as Hc.
  destruct (rowIndexSorter this (rowIndex a) (rowIndex b) =? 0)%Z eqn:Ha;
    destruct (rowIndexSorter this (rowIndex b) (rowIndex a) =? 0)%Z eqn:Hb;
    simpl; try assumption; lia.
Qed.

Lemma calculateDistance_not_aligned_either fuel (x y : Coordinate ColumnIndex RowIndex) :
  columnIndex x <> columnIndex y ->
  rowIndex x <> rowIndex y ->
  Z.sgn (createCoordinatesSorter this y x) = (- Z.sgn (createCoordinatesSorter this x y))%Z ->
  calculateDistance this (S (S fuel)) x y = Done (Left (forPair x y))
  \/ calculateDistance this (S (S fuel)) x y = Done (Left (forPair y x)).
Proof.
  intros Hcolumn Hrow Hsgn.
  destruct (Z_le_gt_dec (createCoordinatesSorter this x y) 0) as [Hle | Hgt].
  - left. apply calculateDistance_not_aligned_ordered; assumption.
  - right. rewrite calculateDistance_swap by exact Hgt.
    apply calculateDistance_not_aligned_ordered; auto; lia.
Qed.

(** C3: when the sorters follow the comparator contract (the spec's
    total order per axis), two coordinates that share neither their
    column nor their row make [calculateDistance] return, in both
    argument orders, the failure [NonAlignedCoordinates] built for
    the pair, on the [Left] arm of the result; nothing is thrown. *)
Theorem calculateDistance_not_aligned :
  antisymmetric (columnIndexSorter this) ->
  antisymmetric (rowIndexSorter this) ->
  forall (a b : Coordinate ColumnIndex RowIndex) (fuel : nat),
    columnIndex a <> columnIndex b ->
    rowIndex a <> rowIndex b ->
    2 <= fuel ->
    (calculateDistance this fuel a b = Done (Left (forPair a b))
     \/ calculateDistance this fuel a b = Done (Left (forPair b a)))
    /\ (calculateDistance this fuel b a = Done (Left (forPair b a))
        \/ calculateDistance this fuel b a = Done (Left (forPair a b))).
Proof.
  intros Hcolumns Hrows a b fuel Hcolumn Hrow Hfuel.
  destruct fuel as [| [| fuel]]; try lia.
  split; apply calculateDistance_not_aligned_either; auto;
    apply createCoordinatesSorter_antisymmetric; assumption.
Qed.

End DistanceFacts.

(** ** Facts on collections *)

Section CollectionFacts.
Context {A : Type}.

Lemma filterDefined_map_Some (l : list A) : filterDefined (map Some l) = l.
Proof. induction l as [| x l IH]; simpl; [| rewrite IH]; reflexivity. Qed.

Lemma insertSorted_Permutation (comparator : A -> A -> Z) x l :
  Permutation (insertSorted comparator x l) (x :: l).
Proof.
  induction l as [| y l IH]; simpl; [reflexivity |].
  destruct (comparator x y >? 0)%Z; [| reflexivity].
  rewrite IH. apply perm_swap.
Qed.

Lemma sort_Permutation (comparator : A -> A -> Z) l :
  Permutation (sort comparator l) l.
Proof.
  induction l as [| x l IH]; simpl; [reflexivity |].
  rewrite insertSorted_Permutation, IH. reflexivity.
Qed.

Lemma sort_In (comparator : A -> A -> Z) l x : In x (sort comparator l) <-> In x l.
Proof.
  split; apply Permutation_in; [| symmetry]; apply sort_Permutation.
Qed.

Lemma sort_length (comparator : A -> A -> Z) l : length (sort comparator l) = length l.
Proof. apply Permutation_length, sort_Permutation. Qed.

Lemma sort_NoDup (comparator : A -> A -> Z) l : NoDup l -> NoDup (sort comparator l).
Proof. apply Permutation_NoDup. symmetry. apply sort_Permutation. Qed.

Lemma filterIndexedFrom_In (p : A -> nat -> bool) index l x :
  In x (filterIndexedFrom p index l) -> In x l.
Proof.
  revert index. induction l as [| y l IH]; intros index Hin; simpl in *; [exact Hin |].
  destruct (p y index); [destruct Hin as [-> | Hin] |]; eauto.
Qed.

Lemma mapIndexedFrom_In {B : Type} (f : A -> nat -> B) index l y :
  In y (mapIndexedFrom f index l) ->
  exists k x, nth_error l k = Some x /\ y = f x (index + k).
Proof.
  revert index. induction l as [| x l IH]; intros index Hin; simpl in *; [contradiction |].
  destruct Hin as [<- | Hin].
  - exists 0, x. rewrite Nat.add_0_r. split; reflexivity.
  - destruct (IH _ Hin) as (k & x' & Hk & ->).
    exists (S k), x'. split; [exact Hk | f_equal; lia].
Qed.

Lemma Forall2_In_r {B : Type} (R : A -> B -> Prop) l r y :
  Forall2 R l r -> In y r -> exists x, In x l /\ R x y.
Proof.
  induction 1 as [| x y' l r Hxy HF IH]; intros Hin; simpl in *; [contradiction |].
  destruct Hin as [<- | Hin]; [eauto |].
  destruct (IH Hin) as (x' & Hx' & HR); eauto.
Qed.

Lemma NoDup_map_filter {B : Type} (f : A -> B) (p : A -> bool) l :
  NoDup (map f l) -> NoDup (map f (filter p l)).
Proof.
  induction l as [| x l IH]; intros Hnd; simpl in *; [exact Hnd |].
  inversion Hnd as [| ? ? Hnotin Hnd']; subst.
  destruct (p x); simpl; [constructor |]; auto.
  intros Hin. apply Hnotin. apply in_map_iff in Hin. destruct Hin as (z & Hz & Hin).
  apply filter_In in Hin. apply in_map_iff. exists z. tauto.
Qed.

Lemma NoDup_skipn n (l : list A) : NoDup l -> NoDup (skipn n l).
Proof.
  revert l. induction n as [| n IH]; intros [| x l] Hnd; simpl; auto.
  inversion Hnd; auto.
Qed.

Lemma NoDup_nth_error_skipn (l : list A) k x :
  NoDup l -> nth_error l k = Some x -> ~ In x (skipn (S k) l).
Proof.
  revert k. induction l as [| y l IH]; intros [| k] Hnd Hk; simpl in *; try discriminate;
    inversion Hnd; subst.
  - injection Hk as <-. assumption.
  - apply (IH k); assumption.
Qed.

Context `{EqDec A}.

Lemma contains_In (l : list A) x : contains l x = true <-> In x l.
Proof.
  unfold contains. rewrite existsb_exists. split.
  - intros (y & Hy & Heq). apply identical_true_iff in Heq. subst. exact Hy.
  - intros Hin. exists x. split; [exact Hin | apply identical_refl].
Qed.

Lemma mapSet_invariant {V : Type} (P : A -> V -> Prop) entries key value :
  (forall e, In e entries -> P (fst e) (snd e)) ->
  P key value ->
  forall e, In e (mapSet entries key value) -> P (fst e) (snd e).
Proof.
  intros Hentries Hnew. induction entries as [| [k v] entries IH]; simpl.
  - intros e [<- | []]. exact Hnew.
  - destruct (eq_dec k key) as [-> | Hneq]; intros e [<- | Hin]; simpl.
    + exact Hnew.
    + apply Hentries. right. exact Hin.
    + apply (Hentries (k, v)). left. reflexivity.
    + apply IH; [| exact Hin]. intros e' He'. apply Hentries. right. exact He'.
Qed.

Variable hashOrder : MapOrder A.
Hypothesis Hrearranges : rearranges hashOrder.

Lemma iterate_Permutation {V : Type} (inserted : list (A * V)) :
  Permutation (iterate hashOrder inserted) inserted.
Proof.
  unfold iterate. destruct (length inserted <=? MAX_ARRAY_MAP_SIZE);
    [reflexivity | apply Hrearranges].
Qed.

Lemma iterate_In {V : Type} (inserted : list (A * V)) e :
  In e (iterate hashOrder inserted) <-> In e inserted.
Proof.
  split; apply Permutation_in;
    [apply iterate_Permutation | apply Permutation_sym, iterate_Permutation].
Qed.

Lemma ImmutableMap_invariant {V : Type} (P : A -> V -> Prop) (entries : list (A * V)) :
  (forall e, In e entries -> P (fst e) (snd e)) ->
  forall e, In e (ImmutableMap hashOrder entries) -> P (fst e) (snd e).
Proof.
  unfold ImmutableMap. intros Hentries.
  assert (Hgen : forall acc : list (A * V),
             (forall e, In e acc -> P (fst e) (snd e)) ->
             forall e,
               In e (fold_left (fun m entry => mapSet m (fst entry) (snd entry)) entries acc) ->
               P (fst e) (snd e)).
  { induction entries as [| entry entries IH]; intros acc Hacc; simpl; [exact Hacc |].
    apply IH.
    - intros e He. apply Hentries. right. exact He.
    - apply mapSet_invariant; [exact Hacc |]. apply Hentries. left. reflexivity. }
  intros e He. apply (proj1 (iterate_In _ _)) in He.
  exact (Hgen [] (fun e' Hin => match Hin with end) e He).
Qed.

(** An entry of a filtered map is an entry of the map that the
    predicate keeps. *)
Lemma mapFilter_In {V : Type} (predicate : A * V -> bool) (map : list (A * V)) e :
  In e (mapFilter hashOrder predicate map) -> In e map /\ predicate e = true.
Proof.
  unfold mapFilter. intros He.
  apply (ImmutableMap_invariant
           (fun key value => In (key, value) map /\ predicate (key, value) = true)
           (filter predicate map)) in He.
  - destruct e as [key value]. exact He.
  - intros [key value] Hentry. apply filter_In in Hentry. exact Hentry.
Qed.

End CollectionFacts.

(** ** Alignments *)

Section AlignmentFacts.
Context {ColumnIndex RowIndex : Type}.
Context `{EqDec ColumnIndex} `{EqDec RowIndex}.
Variable this : CoordinateNavigator ColumnIndex RowIndex.
Variable hashOrder : MapOrder (Coordinate ColumnIndex RowIndex).
Hypothesis Hrearranges : rearranges hashOrder.

Lemma findCoordinatesAlignmentDirection_VERTICAL (first second : Coordinate ColumnIndex RowIndex) :
  findCoordinatesAlignmentDirection first second = Some VERTICAL ->
  columnIndex first = columnIndex second.
Proof.
  unfold findCoordinatesAlignmentDirection.
  destruct (eq_dec (columnIndex first) (columnIndex second)); [trivial |].
  destruct (eq_dec (rowIndex first) (rowIndex second)); discriminate.
Qed.

Lemma findCoordinatesAlignmentDirection_HORIZONTAL (first second : Coordinate ColumnIndex RowIndex) :
  findCoordinatesAlignmentDirection first second = Some HORIZONTAL ->
  rowIndex first = rowIndex second.
Proof.
  unfold findCoordinatesAlignmentDirection.
  destruct (eq_dec (columnIndex first) (columnIndex second)); [discriminate |].
  destruct (eq_dec (rowIndex first) (rowIndex second)); [trivial | discriminate].
Qed.

Lemma mapCandidateToPotentialAlignment_Done fuel coordinate reference c :
  mapCandidateToPotentialAlignment this fuel coordinate reference = Done c ->
  candidate c = coordinate
  /\ alignment c = findCoordinatesAlignmentDirection coordinate reference
  /\ exists result,
      calculateDistance this fuel coordinate reference = Done result
      /\ distance c = EitherOps.getOrElse (EitherOps.map Num result) NaN.
Proof.
  unfold mapCandidateToPotentialAlignment.
  destruct (calculateDistance this fuel coordinate reference) as [result | |];
    simpl; try discriminate.
  intros [= <-]. simpl. eauto.
Qed.


(** The alignments returned by [findAlignments]: each is the group of
    one direction for a reference of the sorted input and the valid
    candidates among the coordinates sorted after it. *)
Lemma findAlignments_inv fuel input maxDistance alignments alignment :
  findAlignments this hashOrder fuel input maxDistance = Done alignments ->
  In alignment alignments ->
  1 < length (coordinates alignment)
  /\ exists k reference potentialAlignments,
      nth_error (sort (createCoordinatesSorter this) input) k = Some reference
      /\ Forall2 (fun candidate c =>
                    mapCandidateToPotentialAlignment this fuel candidate reference = Done c)
                 (skipn (S k) (sort (createCoordinatesSorter this) input))
                 potentialAlignments
      /\ alignment
         = groupCandidatesFromDirection this (direction alignment)
             (filter (filterInvalidAlignmentCandidate maxDistance) potentialAlignments)
             reference.
Proof.
  unfold findAlignments.
  set (sorted := sort (createCoordinatesSorter this) input).
  set (candidatesMap := ImmutableMap hashOrder _).
  destruct (mapM _ (mapFilter hashOrder _ candidatesMap))
    as [validCandidates | |] eqn:Hvalid;
    simpl; try discriminate.
  intros [= <-] Hin.
  apply filterIndexedFrom_In in Hin. apply filter_In in Hin.
  destruct Hin as [Hin Hsize]. apply Nat.ltb_lt in Hsize. split; [exact Hsize |].
  apply in_concat in Hin. destruct Hin as (group & Hgroup & Hin).
  apply in_map_iff in Hgroup. destruct Hgroup as (entry & <- & Hentry).
  apply (mapFilter_In hashOrder Hrearranges) in Hentry. destruct Hentry as [Hentry _].
  apply mapM_Done_inv in Hvalid.
  destruct (Forall2_In_r _ _ _ _ Hvalid Hentry) as (entry0 & Hentry0 & Hmap).
  apply (mapFilter_In hashOrder Hrearranges) in Hentry0. destruct Hentry0 as [Hentry0 _].
  destruct (mapM _ (snd entry0)) as [potentialAlignments | |] eqn:Hpotential;
    simpl in Hmap; try discriminate.
  injection Hmap as <-. simpl in Hin.
  apply mapM_Done_inv in Hpotential.
  assert (Hkey : exists k, nth_error sorted k = Some (fst entry0)
                           /\ snd entry0 = skipn (S k) sorted).
  { revert Hentry0. unfold candidatesMap.
    apply (ImmutableMap_invariant hashOrder Hrearranges
             (fun key value => exists k, nth_error sorted k = Some key
                                         /\ value = skipn (S k) sorted)).
    intros e He. apply mapIndexedFrom_In in He. destruct He as (k & x & Hk & ->).
    exists k. simpl. split; [exact Hk |].
    replace (k + 1) with (S k) by lia. reflexivity. }
  destruct Hkey as (k & Hk & Hcandidates). rewrite Hcandidates in Hpotential.
  exists k, (fst entry0), potentialAlignments.
  split; [exact Hk | split; [exact Hpotential |]].
  destruct Hin as [<- | [<- | []]]; reflexivity.
Qed.

Lemma potentialAlignments_candidates fuel reference l potentialAlignments :
  Forall2 (fun coordinate c =>
             mapCandidateToPotentialAlignment this fuel coordinate reference = Done c)
          l potentialAlignments ->
  map (@candidate _ _) potentialAlignments = l.
Proof.
  induction 1 as [| coordinate c l potentialAlignments Hc HF IH]; simpl; [reflexivity |].
  destruct (mapCandidateToPotentialAlignment_Done _ _ _ _ Hc) as (-> & _).
  rewrite IH. reflexivity.
Qed.

Lemma groupCandidatesFromDirection_In fuel reference l potentialAlignments
      maxDistance direction coordinate :
  Forall2 (fun coordinate c =>
             mapCandidateToPotentialAlignment this fuel coordinate reference = Done c)
          l potentialAlignments ->
  In coordinate
     (coordinates
        (groupCandidatesFromDirection this direction
           (filter (filterInvalidAlignmentCandidate maxDistance) potentialAlignments)
           reference)) ->
  coordinate = reference
  \/ (In coordinate l
      /\ findCoordinatesAlignmentDirection coordinate reference = Some direction).
Proof.
  intros HF Hin. simpl in Hin. apply sort_In in Hin. apply in_app_or in Hin.
  destruct Hin as [Hin | [<- | []]]; [right | left; reflexivity].
  apply in_map_iff in Hin. destruct Hin as (c & <- & Hc).
  apply filter_In in Hc. destruct Hc as [Hc Hdirection].
  apply filter_In in Hc. destruct Hc as [Hc _].
  apply identical_true_iff in Hdirection.
  destruct (Forall2_In_r _ _ _ _ HF Hc) as (coordinate & Hcoordinate & Hmap).
  destruct (mapCandidateToPotentialAlignment_Done _ _ _ _ Hmap) as (-> & Halignment & _).
  split; [exact Hcoordinate | congruence].
Qed.

Lemma findAlignments_sharesAxis fuel input maxDistance alignments alignment :
  findAlignments this hashOrder fuel input maxDistance = Done alignments ->
  In alignment alignments ->
  sharesAxis alignment.
Proof.
  intros Hfound Hin.
  destruct (findAlignments_inv _ _ _ _ _ Hfound Hin)
    as (_ & k & reference & potentialAlignments & Hk & HF & Hgroup).
  unfold sharesAxis. rewrite Hgroup.
  destruct (direction alignment); simpl direction; cbv iota.
  - exists (rowIndex reference). intros c Hc.
    eapply groupCandidatesFromDirection_In in Hc; [| exact HF].
    destruct Hc as [-> | [_ Hdirection]]; [reflexivity |].
    apply findCoordinatesAlignmentDirection_HORIZONTAL. exact Hdirection.
  - exists (columnIndex reference). intros c Hc.
    eapply groupCandidatesFromDirection_In in Hc; [| exact HF].
    destruct Hc as [-> | [_ Hdirection]]; [reflexivity |].
    apply findCoordinatesAlignmentDirection_VERTICAL. exact Hdirection.
Qed.

Lemma findAlignments_members fuel input maxDistance alignments alignment :
  findAlignments this hashOrder fuel input maxDistance = Done alignments ->
  In alignment alignments ->
  forall c, In c (coordinates alignment) -> In c input.
Proof.
  intros Hfound Hin c Hc.
  destruct (findAlignments_inv _ _ _ _ _ Hfound Hin)
    as (_ & k & reference & potentialAlignments & Hk & HF & Hgroup).
  rewrite Hgroup in Hc.
  eapply groupCandidatesFromDirection_In in Hc; [| exact HF].
  apply (sort_In (createCoordinatesSorter this)).
  destruct Hc as [-> | [Hc _]].
  - eapply nth_error_In. exact Hk.
  - revert Hc. clear. generalize (sort (createCoordinatesSorter this) input).
    intros l. revert k. induction l as [| x l IH]; intros k Hc; simpl in Hc; [contradiction |].
    right. destruct k as [| k]; [exact Hc |]. destruct l; [contradiction |].
    apply (IH k). exact Hc.
Qed.

(** C4, amended: in whatever order the maps of more than eight
    entries iterate, every alignment returned by [findAlignments] has
    at least two coordinates, the members of a HORIZONTAL alignment
    share one row index and those of a VERTICAL alignment one column
    index, and, when no two coordinates of the input are equal, no two
    members of an alignment are equal. *)
Theorem findAlignments_groups :
  forall (fuel : nat) (input : list (Coordinate ColumnIndex RowIndex))
         (maxDistance : ShipSize)
         (alignments : list (CoordinateAlignment ColumnIndex RowIndex))
         (alignment : CoordinateAlignment ColumnIndex RowIndex),
    findAlignments this hashOrder fuel input maxDistance = Done alignments ->
    In alignment alignments ->
    2 <= length (coordinates alignment)
    /\ match direction alignment with
       | HORIZONTAL =>
           exists row, forall c, In c (coordinates alignment) -> rowIndex c = row
       | VERTICAL =>
           exists column, forall c, In c (coordinates alignment) -> columnIndex c = column
       end
    /\ (NoDup input -> NoDup (coordinates alignment)).
Proof.
  intros fuel input maxDistance alignments alignment Hfound Hin.
  destruct (findAlignments_inv _ _ _ _ _ Hfound Hin)
    as (Hsize & k & reference & potentialAlignments & Hk & HF & Hgroup).
  split; [exact Hsize | split].
  - exact (findAlignments_sharesAxis _ _ _ _ _ Hfound Hin).
  - intros Hinput. rewrite Hgroup. simpl.
    apply sort_NoDup.
    pose proof (sort_NoDup (createCoordinatesSorter this) _ Hinput) as Hsorted.
    pose proof HF as Hcandidates. apply potentialAlignments_candidates in Hcandidates.
    apply (Permutation_NoDup (Permutation_cons_append _ reference)).
    constructor.
    + intros Hreference. apply (NoDup_nth_error_skipn _ _ _ Hsorted Hk).
      rewrite <- Hcandidates.
      apply in_map_iff in Hreference. destruct Hreference as (c & Hc & Hreference).
      apply filter_In in Hreference. destruct Hreference as [Hreference _].
      apply filter_In in Hreference. destruct Hreference as [Hreference _].
      apply in_map_iff. eauto.
    + do 2 apply NoDup_map_filter. rewrite Hcandidates.
      apply NoDup_skipn. exact Hsorted.
Qed.

End AlignmentFacts.

Lemma skipn_nth_error {A : Type} (l : list A) k x :
  nth_error l k = Some x -> skipn k l = x :: skipn (S k) l.
Proof.
  revert k. induction l as [| y l IH]; intros [| k] Hk; simpl in *; try discriminate.
  - injection Hk as <-. reflexivity.
  - apply IH. exact Hk.
Qed.

(** ** Well-formed axes *)

Section AxisFacts.
Context {Index : Type} `{EqDec Index}.
Variables (previous next : AdjacentIndexFinder Index) (sorter : IndexSorter Index).
Variable axis : list Index.
Hypothesis Haxis : WellFormedAxis previous next sorter axis.

Lemma axis_position_unique k l i :
  nth_error axis k = Some i -> nth_error axis l = Some i -> k = l.
Proof.
  intros Hk Hl. apply (proj1 (NoDup_nth_error axis) (axis_NoDup _ _ _ _ Haxis)).
  - apply nth_error_Some. congruence.
  - congruence.
Qed.

Lemma axis_sorter_pos k l i j :
  nth_error axis k = Some i -> nth_error axis l = Some j ->
  (0 < sorter i j)%Z <-> l < k.
Proof. intros Hk Hl. pose proof (axis_sorter _ _ _ _ Haxis _ _ _ _ Hk Hl). lia. Qed.

Lemma axis_sorter_zero k l i j :
  nth_error axis k = Some i -> nth_error axis l = Some j ->
  sorter i j = 0%Z <-> k = l.
Proof. intros Hk Hl. pose proof (axis_sorter _ _ _ _ Haxis _ _ _ _ Hk Hl). lia. Qed.

Lemma axis_walk k i : nth_error axis k = Some i -> walk next i (skipn k axis).
Proof.
  remember (length axis - k) as n eqn:Hn. revert k i Hn.
  induction n as [| n IH]; intros k i Hn Hk.
  - assert (k < length axis) by (apply nth_error_Some; congruence). lia.
  - pose proof (axis_next _ _ _ _ Haxis _ _ Hk) as Hnext.
    pose proof (skipn_nth_error _ _ _ Hk) as Hskip.
    rewrite Hskip.
    destruct (nth_error axis (S k)) as [j |] eqn:Hj.
    + eapply walk_step; [exact Hnext |]. apply IH; [lia | exact Hj].
    + apply nth_error_None in Hj. rewrite (skipn_all2 _ Hj).
      apply walk_boundary. exact Hnext.
Qed.

Lemma calculateDistanceLoop_axis n :
  forall k i j count fuel,
    nth_error axis k = Some i -> nth_error axis (k + n) = Some j -> n < fuel ->
    calculateDistanceLoop fuel count i j next = Done (Right (count + n)).
Proof.
  induction n as [| n IH]; intros k i j count [| fuel] Hk Hl Hfuel; try lia; simpl.
  - rewrite Nat.add_0_r in Hl. assert (i = j) by congruence. subst.
    destruct (eq_dec j j); [| contradiction]. rewrite Nat.add_0_r. reflexivity.
  - destruct (eq_dec i j) as [-> | Hneq].
    + pose proof (axis_position_unique _ _ _ Hk Hl). lia.
    + rewrite (axis_next _ _ _ _ Haxis _ _ Hk).
      assert (Hlt : S k < length axis).
      { assert (k + S n < length axis) by (apply nth_error_Some; congruence). lia. }
      apply nth_error_Some in Hlt.
      destruct (nth_error axis (S k)) as [i' |] eqn:Hi'; [| contradiction].
      rewrite (IH (S k) i' j (S count) fuel); [f_equal; f_equal; lia | exact Hi' | | lia].
      replace (S k + n) with (k + S n) by lia. exact Hl.
Qed.

Lemma axis_next_neq i j : In i axis -> next i = Some j -> j <> i.
Proof.
  intros Hin Hnext ->. apply In_nth_error in Hin. destruct Hin as [k Hk].
  rewrite (axis_next _ _ _ _ Haxis _ _ Hk) in Hnext.
  pose proof (axis_position_unique _ _ _ Hk Hnext). lia.
Qed.

Lemma axis_previous_position k i j :
  nth_error axis k = Some i -> previous i = Some j -> nth_error axis (k - 1) = Some j /\ 0 < k.
Proof.
  intros Hk Hprevious. destruct k as [| k].
  - rewrite (axis_first _ _ _ _ Haxis _ Hk) in Hprevious. discriminate.
  - rewrite (axis_previous _ _ _ _ Haxis _ _ Hk) in Hprevious. simpl. rewrite Nat.sub_0_r.
    split; [exact Hprevious | lia].
Qed.

Lemma axis_previous_neq i j : In i axis -> previous i = Some j -> j <> i.
Proof.
  intros Hin Hprevious ->. apply In_nth_error in Hin. destruct Hin as [k Hk].
  destruct (axis_previous_position _ _ _ Hk Hprevious) as [Hj Hpos].
  pose proof (axis_position_unique _ _ _ Hk Hj). lia.
Qed.

Lemma axis_previous_next_neq i j j' :
  In i axis -> previous i = Some j -> next i = Some j' -> j <> j'.
Proof.
  intros Hin Hprevious Hnext ->. apply In_nth_error in Hin. destruct Hin as [k Hk].
  destruct (axis_previous_position _ _ _ Hk Hprevious) as [Hj Hpos].
  rewrite (axis_next _ _ _ _ Haxis _ _ Hk) in Hnext.
  pose proof (axis_position_unique _ _ _ Hj Hnext). lia.
Qed.

End AxisFacts.

(** ** Distances and neighbours on a well-formed grid *)

Section GridFacts.
Context {ColumnIndex RowIndex : Type}.
Context `{EqDec ColumnIndex} `{EqDec RowIndex}.
Variable this : CoordinateNavigator ColumnIndex RowIndex.
Variable columns : list ColumnIndex.
Variable rows : list RowIndex.
Hypothesis Hgrid : WellFormedGrid this columns rows.

Lemma createCoordinatesSorter_pos (a b : Coordinate ColumnIndex RowIndex) ka kb la lb :
  nth_error columns ka = Some (columnIndex a) ->
  nth_error columns kb = Some (columnIndex b) ->
  nth_error rows la = Some (rowIndex a) ->
  nth_error rows lb = Some (rowIndex b) ->
  (0 < createCoordinatesSorter this a b)%Z <-> lb < la \/ (la = lb /\ kb < ka).
Proof.
  intros Hka Hkb Hla Hlb. destruct Hgrid as [Hcolumns Hrows].
  pose proof (axis_sorter_pos _ _ _ _ Hcolumns _ _ _ _ Hka Hkb) as Hcpos.
  pose proof (axis_sorter_pos _ _ _ _ Hrows _ _ _ _ Hla Hlb) as Hrpos.
  pose proof (axis_sorter_zero _ _ _ _ Hrows _ _ _ _ Hla Hlb) as Hrzero.
  unfold createCoordinatesSorter.
  destruct (rowIndexSorter this (rowIndex a) (rowIndex b) =? 0)%Z eqn:Hzero; simpl; lia.
Qed.

Lemma calculateDistance_no_swap fuel (first second : Coordinate ColumnIndex RowIndex) :
  ~ (0 < createCoordinatesSorter this first second)%Z ->
  calculateDistance this (S fuel) first second
  = if eq_dec (columnIndex first) (columnIndex second) then
      distance <- calculateDistanceBetweenIndices (S fuel)
                    (rowIndex first) (rowIndex second) (findNextRowIndex this) ;;
      Done (withError (forPair first second) distance)
    else if eq_dec (rowIndex first) (rowIndex second) then
      distance <- calculateDistanceBetweenIndices (S fuel)
                    (columnIndex first) (columnIndex second) (findNextColumnIndex this) ;;
      Done (withError (forPair first second) distance)
    else Done (Left (forPair first second)).
Proof.
  intros Hsorted.
  change (calculateDistance this (S fuel) first second)
    with (if (createCoordinatesSorter this first second >? 0)%Z
          then calculateDistance this fuel second first
          else if eq_dec (columnIndex first) (columnIndex second) then
                 distance <- calculateDistanceBetweenIndices (S fuel)
                               (rowIndex first) (rowIndex second) (findNextRowIndex this) ;;
                 Done (withError (forPair first second) distance)
               else if eq_dec (rowIndex first) (rowIndex second) then
                 distance <- calculateDistanceBetweenIndices (S fuel)
                               (columnIndex first) (columnIndex second)
                               (findNextColumnIndex this) ;;
                 Done (withError (forPair first second) distance)
               else Done (Left (forPair first second))).
  destruct (createCoordinatesSorter this first second >? 0)%Z eqn:Hgt; [lia | reflexivity].
Qed.

Lemma calculateDistance_ordered fuel (a b : Coordinate ColumnIndex RowIndex) ka kb la lb :
  nth_error columns ka = Some (columnIndex a) ->
  nth_error columns kb = Some (columnIndex b) ->
  nth_error rows la = Some (rowIndex a) ->
  nth_error rows lb = Some (rowIndex b) ->
  ka = kb \/ la = lb ->
  ~ (0 < createCoordinatesSorter this a b)%Z ->
  length columns <= S fuel -> length rows <= S fuel ->
  calculateDistance this (S fuel) a b = Done (Right ((kb - ka) + (lb - la))).
Proof.
  intros Hka Hkb Hla Hlb Haligned Hsorted Hcfuel Hrfuel.
  pose proof (createCoordinatesSorter_pos _ _ _ _ _ _ Hka Hkb Hla Hlb) as Hpos.
  assert (Horder : la <= lb /\ (la = lb -> ka <= kb)).
  { split; [| intros ->]; apply Nat.nlt_ge; intros Hlt; apply Hsorted, Hpos; auto. }
  destruct Horder as [Hrowsorder Hcolumnsorder].
  destruct Hgrid as [Hcolumns Hrows].
  assert (Hkb' : kb < length columns) by (apply nth_error_Some; congruence).
  assert (Hlb' : lb < length rows) by (apply nth_error_Some; congruence).
  rewrite calculateDistance_no_swap by exact Hsorted.
  destruct (eq_dec (columnIndex a) (columnIndex b)) as [Hcolumn | Hcolumn].
  - assert (ka = kb) by (eapply (axis_position_unique _ _ _ _ Hcolumns); eauto; congruence).
    subst kb. unfold calculateDistanceBetweenIndices.
    rewrite (calculateDistanceLoop_axis _ _ _ _ Hrows (lb - la) la _ (rowIndex b));
      [| exact Hla | replace (la + (lb - la)) with lb by lia; exact Hlb | lia].
    cbn. do 2 f_equal. lia.
  - assert (ka <> kb) by congruence.
    assert (la = lb) by tauto. subst lb.
    destruct (eq_dec (rowIndex a) (rowIndex b)) as [Hrow | Hrow]; [| congruence].
    unfold calculateDistanceBetweenIndices.
    rewrite (calculateDistanceLoop_axis _ _ _ _ Hcolumns (kb - ka) ka _ (columnIndex b));
      [| exact Hka | replace (ka + (kb - ka)) with kb by lia; exact Hkb | lia].
    cbn. do 2 f_equal. lia.
Qed.

(** The distance of two aligned coordinates of the grid is the
    difference of their places. *)
Lemma calculateDistance_on_grid fuel (a b : Coordinate ColumnIndex RowIndex) ka kb la lb :
  nth_error columns ka = Some (columnIndex a) ->
  nth_error columns kb = Some (columnIndex b) ->
  nth_error rows la = Some (rowIndex a) ->
  nth_error rows lb = Some (rowIndex b) ->
  ka = kb \/ la = lb ->
  length columns + length rows <= fuel ->
  calculateDistance this fuel a b
  = Done (Right ((ka - kb) + (kb - ka) + ((la - lb) + (lb - la)))).
Proof.
  intros Hka Hkb Hla Hlb Haligned Hfuel.
  assert (Hka' : ka < length columns) by (apply nth_error_Some; congruence).
  assert (Hla' : la < length rows) by (apply nth_error_Some; congruence).
  destruct fuel as [| [| fuel]]; try lia.
  pose proof (createCoordinatesSorter_pos _ _ _ _ _ _ Hka Hkb Hla Hlb) as Hab.
  pose proof (createCoordinatesSorter_pos _ _ _ _ _ _ Hkb Hka Hlb Hla) as Hba.
  destruct (Z_lt_dec 0 (createCoordinatesSorter this a b)) as [Hgt | Hle].
  - rewrite calculateDistance_swap by lia.
    rewrite (calculateDistance_ordered _ _ _ _ _ _ _ Hkb Hka Hlb Hla); try lia.
    f_equal; f_equal; lia.
  - rewrite (calculateDistance_ordered _ _ _ _ _ _ _ Hka Hkb Hla Hlb); try lia; try assumption.
    f_equal; f_equal; lia.
Qed.

(** C2: on a well-formed finite grid, two coordinates that share their
    column or their row have a distance, which is the same in both
    argument orders, and the distance of a coordinate to itself is 0. *)
Theorem calculateDistance_symmetric :
  forall fuel : nat,
    length columns + length rows <= fuel ->
    (forall a b : Coordinate ColumnIndex RowIndex,
        onGrid columns rows a -> onGrid columns rows b ->
        columnIndex a = columnIndex b \/ rowIndex a = rowIndex b ->
        exists d, calculateDistance this fuel a b = Done (Right d)
                  /\ calculateDistance this fuel b a = Done (Right d))
    /\ (forall a : Coordinate ColumnIndex RowIndex,
           onGrid columns rows a -> calculateDistance this fuel a a = Done (Right 0)).
Proof.
  intros fuel Hfuel.
  assert (Hpair : forall a b : Coordinate ColumnIndex RowIndex,
             onGrid columns rows a -> onGrid columns rows b ->
             columnIndex a = columnIndex b \/ rowIndex a = rowIndex b ->
             exists ka kb la lb,
               (nth_error columns ka = Some (columnIndex a)
                /\ nth_error columns kb = Some (columnIndex b)
                /\ nth_error rows la = Some (rowIndex a)
                /\ nth_error rows lb = Some (rowIndex b))
               /\ (ka = kb \/ la = lb)).
  { intros a b [Hac Har] [Hbc Hbr] Haligned.
    apply In_nth_error in Hac, Har, Hbc, Hbr.
    destruct Hac as [ka Hka], Har as [la Hla], Hbc as [kb Hkb], Hbr as [lb Hlb].
    exists ka, kb, la, lb. split; [tauto |].
    destruct Hgrid as [Hcolumns Hrows].
    destruct Haligned as [Heq | Heq]; [left | right].
    - eapply (axis_position_unique _ _ _ _ Hcolumns); eauto; congruence.
    - eapply (axis_position_unique _ _ _ _ Hrows); eauto; congruence. }
  split.
  - intros a b Ha Hb Haligned.
    destruct (Hpair a b Ha Hb Haligned) as (ka & kb & la & lb & (Hka & Hkb & Hla & Hlb) & Hpos).
    exists ((ka - kb) + (kb - ka) + ((la - lb) + (lb - la))). split.
    + apply calculateDistance_on_grid; assumption.
    + rewrite (calculateDistance_on_grid _ _ _ _ _ _ _ Hkb Hka Hlb Hla); [| lia | exact Hfuel].
      f_equal; f_equal; lia.
  - intros a Ha.
    destruct (Hpair a a Ha Ha (or_introl eq_refl))
      as (ka & kb & la & lb & (Hka & Hkb & Hla & Hlb) & Hpos).
    rewrite (calculateDistance_on_grid _ _ _ _ _ _ _ Hka Hka Hla Hla); [| lia | exact Hfuel].
    f_equal; f_equal; lia.
Qed.

End GridFacts.

Section NeighbourFacts.
Context {ColumnIndex RowIndex : Type}.
Context `{EqDec ColumnIndex} `{EqDec RowIndex}.
Variable this : CoordinateNavigator ColumnIndex RowIndex.
Variable columns : list ColumnIndex.
Variable rows : list RowIndex.
Hypothesis Hgrid : WellFormedGrid this columns rows.

Lemma filterDefined_In {A : Type} (l : list (option A)) x :
  In x (filterDefined l) <-> In (Some x) l.
Proof.
  induction l as [| [y |] l IH]; simpl; [tauto | |].
  - rewrite IH. split; intros [Heq | Hin]; auto; left; congruence.
  - rewrite IH. split; [auto | intros [Heq | Hin]; [discriminate | exact Hin]].
Qed.

Lemma calculateDistance_one_step fuel (target coordinate : Coordinate ColumnIndex RowIndex) :
  onGrid columns rows target ->
  oneStepFrom this target coordinate ->
  length columns + length rows <= fuel ->
  calculateDistance this fuel target coordinate = Done (Right 1).
Proof.
  intros [Hcolumn Hrow] Hstep Hfuel.
  apply In_nth_error in Hcolumn, Hrow.
  destruct Hcolumn as [k Hk], Hrow as [l Hl].
  destruct Hgrid as [Hcolumns Hrows].
  destruct Hstep as [[Hsame [Hprevious | Hnext]] | [Hsame [Hprevious | Hnext]]].
  - destruct (axis_previous_position _ _ _ _ Hcolumns _ _ _ Hk Hprevious) as [Hk' Hpos].
    rewrite (calculateDistance_on_grid this columns rows Hgrid fuel target coordinate
               k (k - 1) l l); auto; [do 2 f_equal; lia | congruence].
  - rewrite (axis_next _ _ _ _ Hcolumns _ _ Hk) in Hnext.
    rewrite (calculateDistance_on_grid this columns rows Hgrid fuel target coordinate
               k (S k) l l); auto; [do 2 f_equal; lia | congruence].
  - destruct (axis_previous_position _ _ _ _ Hrows _ _ _ Hl Hprevious) as [Hl' Hpos].
    rewrite (calculateDistance_on_grid this columns rows Hgrid fuel target coordinate
               k k l (l - 1)); auto; [do 2 f_equal; lia | congruence].
  - rewrite (axis_next _ _ _ _ Hrows _ _ Hl) in Hnext.
    rewrite (calculateDistance_on_grid this columns rows Hgrid fuel target coordinate
               k k l (S l)); auto; [do 2 f_equal; lia | congruence].
Qed.

Lemma getSurroundingCoordinates_In (target coordinate : Coordinate ColumnIndex RowIndex) :
  In coordinate (getSurroundingCoordinates this target) <-> oneStepFrom this target coordinate.
Proof.
  unfold getSurroundingCoordinates, oneStepFrom.
  rewrite sort_In, in_app_iff, !in_map_iff.
  split.
  - intros [(column & <- & Hcolumn) | (row & <- & Hrow)]; simpl.
    + apply filterDefined_In in Hcolumn. simpl in Hcolumn. left. split; [reflexivity |].
      destruct Hcolumn as [Heq | [Heq | []]]; auto.
    + apply filterDefined_In in Hrow. simpl in Hrow. right. split; [reflexivity |].
      destruct Hrow as [Heq | [Heq | []]]; auto.
  - destruct coordinate as [column row]. cbn [columnIndex rowIndex].
    intros [[-> Hcolumn] | [-> Hrow]]; [left; exists column | right; exists row];
      (split; [reflexivity |]); apply filterDefined_In; simpl; tauto.
Qed.

(** C8: on a well-formed finite grid, [getSurroundingCoordinates]
    returns at most 4 coordinates, no two of them equal, each one
    adjacency step away from the target on exactly one axis and at
    distance 1 from it, and it returns fewer than 4 exactly when one of
    the adjacency lookups on the target returns none. *)
Theorem getSurroundingCoordinates_spec :
  forall (target : Coordinate ColumnIndex RowIndex) (fuel : nat),
    onGrid columns rows target ->
    length columns + length rows <= fuel ->
    length (getSurroundingCoordinates this target) <= 4
    /\ NoDup (getSurroundingCoordinates this target)
    /\ (forall coordinate,
           In coordinate (getSurroundingCoordinates this target) ->
           oneStepFrom this target coordinate
           /\ calculateDistance this fuel target coordinate = Done (Right 1))
    /\ (length (getSurroundingCoordinates this target) < 4 <-> atBoundary this target).
Proof.
  intros target fuel Htarget Hfuel.
  split; [| split; [| split]].
  - unfold getSurroundingCoordinates. rewrite sort_length, length_app, !length_map.
    destruct (findPreviousColumnIndex this (columnIndex target)),
      (findNextColumnIndex this (columnIndex target)),
      (findPreviousRowIndex this (rowIndex target)),
      (findNextRowIndex this (rowIndex target)); simpl; lia.
  - destruct Hgrid as [Hcolumns Hrows]. destruct Htarget as [Hcolumn Hrow].
    pose proof (axis_previous_neq _ _ _ _ Hcolumns (columnIndex target)) as Hpc.
    pose proof (axis_next_neq _ _ _ _ Hcolumns (columnIndex target)) as Hnc.
    pose proof (axis_previous_next_neq _ _ _ _ Hcolumns (columnIndex target)) as Hpnc.
    pose proof (axis_previous_next_neq _ _ _ _ Hrows (rowIndex target)) as Hpnr.
    unfold getSurroundingCoordinates. apply sort_NoDup.
    destruct (findPreviousColumnIndex this (columnIndex target)) as [pc |],
      (findNextColumnIndex this (columnIndex target)) as [nc |],
      (findPreviousRowIndex this (rowIndex target)) as [pr |],
      (findNextRowIndex this (rowIndex target)) as [nr |]; simpl;
      repeat (constructor; simpl);
      try (intros Hin; decompose [or] Hin);
      try contradiction;
      try match goal with
          | Heq : mkCoordinate _ _ = mkCoordinate _ _ |- _ => injection Heq; intros; subst
          end;
      try (exact (Hpnc _ _ Hcolumn eq_refl eq_refl eq_refl));
      try (exact (Hpnr _ _ Hrow eq_refl eq_refl eq_refl));
      try (exact (Hpc _ Hcolumn eq_refl eq_refl));
      try (exact (Hnc _ Hcolumn eq_refl eq_refl)).
  - intros coordinate Hin. apply getSurroundingCoordinates_In in Hin.
    split; [exact Hin | apply calculateDistance_one_step; assumption].
  - unfold getSurroundingCoordinates, atBoundary.
    rewrite sort_length, length_app, !length_map.
    destruct (findPreviousColumnIndex this (columnIndex target)),
      (findNextColumnIndex this (columnIndex target)),
      (findPreviousRowIndex this (rowIndex target)),
      (findNextRowIndex this (rowIndex target)); simpl;
      split; intros Hcase; try lia; auto;
      decompose [or] Hcase; discriminate.
Qed.

End NeighbourFacts.

(** ** Positions in a list without repetition *)

Section KeyOfFacts.
Context {A : Type} `{EqDec A}.

Lemma keyOf_Some (l : list A) x k : keyOf l x = Some k -> nth_error l k = Some x.
Proof.
  revert k. induction l as [| y l IH]; intros k; simpl; [discriminate |].
  destruct (eq_dec y x) as [-> | Hneq].
  - intros [= <-]. reflexivity.
  - destruct (keyOf l x) as [k' |]; [| discriminate].
    intros [= <-]. simpl. apply IH. reflexivity.
Qed.

Lemma keyOf_nth_error (l : list A) x k :
  NoDup l -> nth_error l k = Some x -> keyOf l x = Some k.
Proof.
  revert k. induction l as [| y l IH]; intros [| k] Hnd Hk; simpl in *; try discriminate;
    inversion Hnd as [| ? ? Hnotin Hnd']; subst.
  - injection Hk as ->. destruct (eq_dec x x); [reflexivity | contradiction].
  - destruct (eq_dec y x) as [-> | Hneq].
    + exfalso. apply Hnotin. eapply nth_error_In. exact Hk.
    + rewrite (IH k Hnd' Hk). reflexivity.
Qed.

Lemma keyOf_In (l : list A) x : In x l -> exists k, keyOf l x = Some k.
Proof.
  induction l as [| y l IH]; simpl; [contradiction |].
  intros Hin. destruct (eq_dec y x) as [-> | Hneq]; [eauto |].
  destruct Hin as [Heq | Hin]; [contradiction |].
  destruct (IH Hin) as [k ->]. eauto.
Qed.

(** The row that faces [x] in the reversed list faces [x] back. *)
Lemma reversed_position (l : list A) x :
  NoDup l -> In x l ->
  exists k,
    keyOf l x = Some k
    /\ In (nth k (rev l) x) l
    /\ keyOf l (nth k (rev l) x) = Some (length l - S k)
    /\ forall d, nth (length l - S k) (rev l) d = x.
Proof.
  intros Hnd Hin. destruct (keyOf_In l x Hin) as [k Hk]. exists k.
  pose proof (keyOf_Some _ _ _ Hk) as Hnth.
  assert (Hlt : k < length l) by (apply nth_error_Some; congruence).
  split; [exact Hk |].
  rewrite rev_nth by exact Hlt.
  assert (Hlt' : length l - S k < length l) by lia.
  split; [apply nth_In; exact Hlt' | split].
  - apply keyOf_nth_error; [exact Hnd |]. apply nth_error_nth'. exact Hlt'.
  - intros d. rewrite rev_nth by exact Hlt'.
    replace (length l - S (length l - S k)) with k by lia.
    apply nth_error_nth. exact Hnth.
Qed.

End KeyOfFacts.

(** ** The origin and the mirror *)

Section OriginFacts.
Context {Index : Type} `{EqDec Index}.
Variable previous : AdjacentIndexFinder Index.

Lemma last_cons_default (l : list Index) x d d' :
  last (x :: l) d = last (x :: l) d'.
Proof.
  revert x. induction l as [| y l IH]; intros x; [reflexivity |].
  change (last (y :: l) d = last (y :: l) d'). apply IH.
Qed.

Lemma findFirstIndexLoop_walk i l :
  walk previous i l ->
  forall fuel previousIndex, length l < fuel ->
    findFirstIndexLoop fuel previousIndex (Some i) previous = Done (last l i).
Proof.
  induction 1 as [i Hi | i j l Hij Hw IH]; intros [| fuel] previousIndex Hfuel;
    simpl in Hfuel; try lia.
  - simpl. rewrite Hi. destruct fuel; [lia | reflexivity].
  - change (findFirstIndexLoop (S fuel) previousIndex (Some i) previous)
      with (findFirstIndexLoop fuel i (previous i) previous).
    rewrite Hij, IH by lia.
    destruct (walk_head _ _ _ Hw) as [l' ->]. f_equal.
    change (last (i :: j :: l') i) with (last (j :: l') i).
    apply last_cons_default.
Qed.

Lemma findFirstIndex_finiteAcyclic reference :
  finiteAcyclic previous ->
  exists fuel0 first,
    forall fuel, fuel0 <= fuel -> findFirstIndex fuel reference previous = Done first.
Proof.
  intros Hfinite.
  destruct (finiteAcyclic_walk previous reference (Hfinite reference)) as [l Hl].
  exists (S (length l)), (last l reference). intros fuel Hfuel.
  apply findFirstIndexLoop_walk; [exact Hl | lia].
Qed.

End OriginFacts.

Section MirrorFacts.
Context {ColumnIndex RowIndex : Type}.
Context `{EqDec ColumnIndex} `{EqDec RowIndex}.
Variable this : CoordinateNavigator ColumnIndex RowIndex.
Hypothesis HpreviousColumn : finiteAcyclic (findPreviousColumnIndex this).
Hypothesis HpreviousRow : finiteAcyclic (findPreviousRowIndex this).
Hypothesis HnextRow : finiteAcyclic (findNextRowIndex this).

Lemma getGridOrigin_Done :
  exists fuel0 origin, forall fuel, fuel0 <= fuel -> getGridOrigin this fuel = Done origin.
Proof.
  destruct (findFirstIndex_finiteAcyclic _ (columnIndex (reference this)) HpreviousColumn)
    as (fuelc & column & Hcolumn).
  destruct (findFirstIndex_finiteAcyclic _ (rowIndex (reference this)) HpreviousRow)
    as (fuelr & row & Hrow).
  exists (fuelc + fuelr), (mkCoordinate column row). intros fuel Hfuel.
  unfold getGridOrigin, getOrigin.
  rewrite Hcolumn, Hrow by lia. reflexivity.
Qed.

(** The rows of the grid: the walk from the row of the origin. *)
Lemma rowIndices_Done :
  exists fuel0 origin rowIndices,
    walk (findNextRowIndex this) (rowIndex origin) rowIndices
    /\ forall fuel, fuel0 <= fuel ->
         getGridOrigin this fuel = Done origin
         /\ createIndices fuel (rowIndex origin) (findNextRowIndex this) = Done rowIndices.
Proof.
  destruct getGridOrigin_Done as (fuelo & origin & Horigin).
  destruct (finiteAcyclic_walk _ (rowIndex origin) (HnextRow (rowIndex origin)))
    as [rowIndices Hwalk].
  exists (fuelo + length rowIndices), origin, rowIndices.
  split; [exact Hwalk |]. intros fuel Hfuel. split.
  - apply Horigin. lia.
  - apply createIndices_walk; [exact Hwalk | lia].
Qed.

Lemma mirror_Done fuel origin rowIndices coordinates :
  getGridOrigin this fuel = Done origin ->
  createIndices fuel (rowIndex origin) (findNextRowIndex this) = Done rowIndices ->
  (forall c, In c coordinates -> In (rowIndex c) rowIndices) ->
  mirror this fuel coordinates
  = Done (map (fun c =>
                 mkCoordinate (columnIndex c)
                   (match keyOf rowIndices (rowIndex c) with
                    | Some k => nth k (rev rowIndices) (rowIndex c)
                    | None => rowIndex c
                    end))
              coordinates).
Proof.
  intros Horigin Hrows Hin. unfold mirror. rewrite Horigin. simpl. rewrite Hrows. simpl.
  apply mapM_Done. intros c Hc.
  destruct (keyOf_In rowIndices (rowIndex c) (Hin c Hc)) as [k ->]. reflexivity.
Qed.

(** C10: when the adjacency functions are finite and acyclic, [mirror]
    applied twice to coordinates whose rows belong to the row indices
    of the grid gives the coordinates back, and one application leaves
    every column index unchanged. *)
Theorem mirror_involution :
  exists fuel0, forall fuel, fuel0 <= fuel ->
    exists origin rowIndices,
      getGridOrigin this fuel = Done origin
      /\ createIndices fuel (rowIndex origin) (findNextRowIndex this) = Done rowIndices
      /\ forall coordinates : list (Coordinate ColumnIndex RowIndex),
          (forall c, In c coordinates -> In (rowIndex c) rowIndices) ->
          exists mirrored,
            mirror this fuel coordinates = Done mirrored
            /\ mirror this fuel mirrored = Done coordinates
            /\ map (@columnIndex _ _) mirrored = map (@columnIndex _ _) coordinates.
Proof.
  destruct rowIndices_Done as (fuel0 & origin & rowIndices & Hwalk & Hfuel0).
  exists fuel0. intros fuel Hfuel. exists origin, rowIndices.
  destruct (Hfuel0 fuel Hfuel) as [Horigin Hrows].
  split; [exact Horigin | split; [exact Hrows |]].
  intros coordinates Hin.
  pose proof (walk_NoDup _ _ _ Hwalk) as Hnd.
  eexists. split; [apply (mirror_Done fuel origin rowIndices); assumption | split].
  - rewrite (mirror_Done fuel origin rowIndices); try assumption.
    + f_equal. rewrite map_map. rewrite <- (map_id coordinates) at 2.
      apply map_ext_in. intros [column row] Hc. simpl.
      destruct (reversed_position rowIndices row Hnd (Hin _ Hc))
        as (k & Hk & _ & Hk' & Hback).
      rewrite Hk, Hk', Hback. reflexivity.
    + intros c' Hc'. apply in_map_iff in Hc'. destruct Hc' as (c & <- & Hc). simpl.
      destruct (reversed_position rowIndices (rowIndex c) Hnd (Hin _ Hc))
        as (k & Hk & Hmember & _).
      rewrite Hk. exact Hmember.
  - rewrite map_map. reflexivity.
Qed.

End MirrorFacts.

(** ** Gaps between the indices of a sorted list *)

Section PlaceFacts.
Context {Index : Type} `{EqDec Index}.
Variable axis : list Index.
Hypothesis Hnd : NoDup axis.

Lemma place_nth_error i : In i axis -> nth_error axis (place axis i) = Some i.
Proof.
  intros Hin. unfold place. destruct (keyOf_In axis i Hin) as [k Hk].
  rewrite Hk. apply keyOf_Some. exact Hk.
Qed.

Lemma nth_error_place k i : nth_error axis k = Some i -> place axis i = k.
Proof.
  intros Hk. unfold place. rewrite (keyOf_nth_error axis i k Hnd Hk). reflexivity.
Qed.

Lemma place_lt i : In i axis -> place axis i < length axis.
Proof.
  intros Hin. apply nth_error_Some. rewrite (place_nth_error i Hin). discriminate.
Qed.

Lemma place_injective i j : In i axis -> In j axis -> place axis i = place axis j -> i = j.
Proof.
  intros Hi Hj Heq. pose proof (place_nth_error i Hi) as Hi'.
  rewrite Heq, (place_nth_error j Hj) in Hi'. congruence.
Qed.

Lemma segment_In k n i :
  In i (firstn n (skipn (S k) axis)) <->
  In i axis /\ k < place axis i /\ place axis i <= k + n.
Proof.
  split.
  - intros Hin. apply In_nth_error in Hin. destruct Hin as [d Hd].
    rewrite nth_error_firstn in Hd.
    destruct (d <? n) eqn:Hdn; [| discriminate]. apply Nat.ltb_lt in Hdn.
    rewrite nth_error_skipn in Hd.
    rewrite (nth_error_place _ _ Hd).
    split; [eapply nth_error_In; exact Hd | lia].
  - intros (Hin & Hlow & Hhigh).
    apply (nth_error_In _ (place axis i - S k)).
    rewrite nth_error_firstn.
    destruct (place axis i - S k <? n) eqn:Hdn; [| apply Nat.ltb_ge in Hdn; lia].
    rewrite nth_error_skipn.
    replace (S k + (place axis i - S k)) with (place axis i) by lia.
    apply place_nth_error. exact Hin.
Qed.

End PlaceFacts.

(** ** Sorted lists *)

Section SortedFacts.
Context {A : Type}.
Variable key : A -> nat.

Lemma insertSorted_sorted (comparator : A -> A -> Z) x l :
  (forall y, In y l -> ((0 < comparator x y)%Z <-> key y < key x)) ->
  StronglySorted (keyLe key) l ->
  StronglySorted (keyLe key) (insertSorted comparator x l).
Proof.
  intros Hcmp Hsorted. induction Hsorted as [| y l Hsorted IH Hall]; simpl.
  - repeat constructor.
  - pose proof (Hcmp y (or_introl eq_refl)) as Hxy.
    destruct (comparator x y >? 0)%Z eqn:Hgt.
    + constructor.
      * apply IH. intros z Hz. apply Hcmp. right. exact Hz.
      * apply Forall_forall. intros z Hz.
        apply (Permutation_in _ (insertSorted_Permutation comparator x l)) in Hz.
        destruct Hz as [<- | Hz]; [unfold keyLe; lia |].
        rewrite Forall_forall in Hall. apply Hall. exact Hz.
    + constructor; [constructor; assumption |].
      assert (Hle : key x <= key y) by lia.
      constructor; [exact Hle |].
      apply Forall_forall. intros z Hz. rewrite Forall_forall in Hall.
      pose proof (Hall z Hz). unfold keyLe in *. lia.
Qed.

Lemma sort_sorted (comparator : A -> A -> Z) l :
  (forall x y, In x l -> In y l -> ((0 < comparator x y)%Z <-> key y < key x)) ->
  StronglySorted (keyLe key) (sort comparator l).
Proof.
  induction l as [| x l IH]; intros Hcmp; simpl; [constructor |].
  apply insertSorted_sorted.
  - intros y Hy. apply sort_In in Hy. apply Hcmp; simpl; auto.
  - apply IH. intros y z Hy Hz. apply Hcmp; simpl; auto.
Qed.

Lemma StronglySorted_first x l y :
  StronglySorted (keyLe key) (x :: l) -> In y (x :: l) -> key x <= key y.
Proof.
  intros Hsorted [<- | Hy]; [lia |].
  apply StronglySorted_inv in Hsorted. destruct Hsorted as [_ Hall].
  rewrite Forall_forall in Hall. apply Hall. exact Hy.
Qed.

Lemma StronglySorted_last l d :
  StronglySorted (keyLe key) l -> forall y, In y l -> key y <= key (last l d).
Proof.
  induction 1 as [| x l Hsorted IH Hall]; intros y Hy; [contradiction |].
  destruct l as [| z l].
  - destruct Hy as [<- | []]. simpl. lia.
  - change (last (x :: z :: l) d) with (last (z :: l) d).
    destruct Hy as [<- | Hy]; [| apply IH; exact Hy].
    rewrite Forall_forall in Hall.
    pose proof (Hall z (or_introl eq_refl)) as Hxz.
    pose proof (IH z (or_introl eq_refl)) as Hz. unfold keyLe in Hxz. lia.
Qed.

Lemma last_In (l : list A) x : In (last (x :: l) x) (x :: l).
Proof.
  revert x. induction l as [| y l IH]; intros x; [left; reflexivity |].
  change (last (x :: y :: l) x) with (last (y :: l) x).
  right. rewrite (last_cons_default l y x y). apply IH.
Qed.

End SortedFacts.

Section OrderedSetFacts.
Context {A : Type}.

Lemma StronglySorted_filter (R : A -> A -> Prop) (p : A -> bool) l :
  StronglySorted R l -> StronglySorted R (filter p l).
Proof.
  induction 1 as [| x l Hsorted IH Hall]; simpl; [constructor |].
  destruct (p x); [| exact IH].
  constructor; [exact IH |].
  rewrite Forall_forall in *. intros y Hy. apply filter_In in Hy. apply Hall. tauto.
Qed.

Context `{EqDec A}.

Lemma toOrderedSet_In (l : list A) x : In x (toOrderedSet l) <-> In x l.
Proof.
  induction l as [| y l IH]; simpl; [tauto |].
  rewrite filter_In, IH. destruct (eq_dec y x) as [-> | Hneq]; [tauto |].
  split; [tauto |]. intros [Heq | Hin]; [contradiction |].
  right. split; [exact Hin |]. apply negb_true_iff, identical_false_iff. congruence.
Qed.

Lemma toOrderedSet_sorted (R : A -> A -> Prop) (l : list A) :
  StronglySorted R l -> StronglySorted R (toOrderedSet l).
Proof.
  induction 1 as [| x l Hsorted IH Hall]; simpl; [constructor |].
  constructor; [apply StronglySorted_filter; exact IH |].
  rewrite Forall_forall in *. intros y Hy. apply filter_In in Hy.
  apply Hall, toOrderedSet_In. tauto.
Qed.

Lemma toOrderedSet_length_le_1 (l : list A) x :
  In x l -> length (toOrderedSet l) <= 1 -> forall y, In y l -> y = x.
Proof.
  intros Hx Hlen y Hy. apply toOrderedSet_In in Hx, Hy.
  destruct (toOrderedSet l) as [| z [| z' s]]; simpl in *; try lia; try contradiction.
  destruct Hx as [<- | []], Hy as [<- | []]. reflexivity.
Qed.

End OrderedSetFacts.

Section IndexGapsFacts.
Context {Index : Type} `{EqDec Index}.
Variables (previous next : AdjacentIndexFinder Index) (sorter : IndexSorter Index).
Variable axis : list Index.
Hypothesis Haxis : WellFormedAxis previous next sorter axis.

Lemma findIndexGapsLoop_axis n :
  forall k x missing fuel sortedIndices last,
    nth_error axis k = Some x -> nth_error axis (k + n) = Some last -> n < fuel ->
    findIndexGapsLoop fuel sortedIndices missing x last next
    = Done (missing
            ++ filter (fun y => negb (contains sortedIndices y))
                      (firstn n (skipn (S k) axis))).
Proof.
  induction n as [| n IH]; intros k x missing [| fuel] sortedIndices last Hk Hq Hfuel;
    try lia; simpl findIndexGapsLoop.
  - rewrite Nat.add_0_r in Hq. assert (x = last) by congruence. subst.
    destruct (eq_dec last last); [| contradiction]. simpl. rewrite app_nil_r. reflexivity.
  - destruct (eq_dec x last) as [-> | Hneq].
    + pose proof (axis_position_unique _ _ _ _ Haxis _ _ _ Hk Hq). lia.
    + rewrite (axis_next _ _ _ _ Haxis _ _ Hk).
      assert (Hlt : S k < length axis).
      { assert (k + S n < length axis) by (apply nth_error_Some; congruence). lia. }
      apply nth_error_Some in Hlt.
      destruct (nth_error axis (S k)) as [x' |] eqn:Hx'; [| contradiction].
      rewrite (IH (S k) x'); [| exact Hx' | | lia].
      * rewrite (skipn_nth_error _ _ _ Hx'). simpl firstn. simpl filter.
        destruct (contains sortedIndices x'); simpl; [reflexivity |].
        rewrite <- app_assoc. reflexivity.
      * replace (S k + n) with (k + S n) by lia. exact Hq.
Qed.

Lemma findIndexGaps_sorted xs fuel :
  (forall x, In x xs -> In x axis) ->
  StronglySorted (keyLe (place axis)) xs ->
  length axis <= fuel ->
  exists gaps,
    findIndexGaps fuel (toOrderedSet xs) next = Done gaps
    /\ forall g, In g gaps <-> ~ In g xs /\ strictlyInside axis xs g.
Proof.
  intros Hon Hsorted Hfuel.
  pose proof (axis_NoDup _ _ _ _ Haxis) as Hnd.
  pose proof (toOrderedSet_sorted _ xs Hsorted) as Hset.
  unfold findIndexGaps.
  destruct (toOrderedSet xs) as [| first rest] eqn:Hxs.
  - exists []. split; [reflexivity |].
    intros g. split; [contradiction |].
    intros (_ & _ & x & _ & Hx & _). apply toOrderedSet_In in Hx. rewrite Hxs in Hx.
    contradiction.
  - assert (Hfirst : In first xs) by (apply toOrderedSet_In; rewrite Hxs; left; reflexivity).
    destruct (length (first :: rest) <=? 1) eqn:Hlen.
    + apply Nat.leb_le in Hlen. rewrite <- Hxs in Hlen.
      exists []. split; [reflexivity |].
      intros g. split; [contradiction |].
      intros (_ & _ & x & y & Hx & Hy & Hlow & Hhigh).
      rewrite (toOrderedSet_length_le_1 xs first Hfirst Hlen x Hx) in Hlow.
      rewrite (toOrderedSet_length_le_1 xs first Hfirst Hlen y Hy) in Hhigh. lia.
    + set (last := List.last (first :: rest) first).
      assert (Hlast : In last xs).
      { apply toOrderedSet_In. rewrite Hxs. apply last_In. }
      pose proof (place_nth_error axis first (Hon _ Hfirst)) as Hp.
      pose proof (place_nth_error axis last (Hon _ Hlast)) as Hq.
      pose proof (place_lt axis last (Hon _ Hlast)) as Hqlt.
      assert (Hmin : forall x, In x xs -> place axis first <= place axis x).
      { intros x Hx. apply (StronglySorted_first _ first rest x Hset).
        rewrite <- Hxs. apply toOrderedSet_In. exact Hx. }
      assert (Hmax : forall x, In x xs -> place axis x <= place axis last).
      { intros x Hx. apply (StronglySorted_last _ (first :: rest) first Hset).
        rewrite <- Hxs. apply toOrderedSet_In. exact Hx. }
      pose proof (Hmin last Hlast) as Hpq.
      eexists. split.
      * apply (findIndexGapsLoop_axis (place axis last - place axis first)
                 (place axis first)); [exact Hp | | lia].
        replace (place axis first + (place axis last - place axis first))
          with (place axis last) by lia. exact Hq.
      * intros g. rewrite app_nil_l, filter_In, (segment_In axis Hnd).
        rewrite negb_true_iff, <- not_true_iff_false, contains_In.
        rewrite <- Hxs, toOrderedSet_In.
        split.
        -- intros [(Hg & Hlow & Hhigh) Hnotin]. split; [exact Hnotin |].
           split; [exact Hg |]. exists first, last.
           split; [exact Hfirst | split; [exact Hlast | split; [exact Hlow |]]].
           assert (place axis g <> place axis last); [| lia].
           intros Heq. apply Hnotin.
           rewrite (place_injective axis g last Hg (Hon _ Hlast) Heq). exact Hlast.
        -- intros [Hnotin (Hg & x & y & Hx & Hy & Hlow & Hhigh)].
           split; [| exact Hnotin]. split; [exact Hg |].
           pose proof (Hmin x Hx). pose proof (Hmax y Hy). lia.
Qed.

(** Once the gaps are added to the indices, no gap is left. *)
Lemma findIndexGaps_merged xs ys gaps fuel :
  (forall x, In x xs -> In x axis) ->
  (forall g, In g gaps <-> ~ In g xs /\ strictlyInside axis xs g) ->
  (forall y, In y ys <-> In y xs \/ In y gaps) ->
  StronglySorted (keyLe (place axis)) ys ->
  length axis <= fuel ->
  findIndexGaps fuel (toOrderedSet ys) next = Done [].
Proof.
  intros Hon Hgaps Hys Hsorted Hfuel.
  assert (Hon' : forall y, In y ys -> In y axis).
  { intros y Hy. apply Hys in Hy. destruct Hy as [Hy | Hy]; [apply Hon; exact Hy |].
    apply Hgaps in Hy. apply Hy. }
  destruct (findIndexGaps_sorted ys fuel Hon' Hsorted Hfuel) as (gaps' & -> & Hgaps').
  destruct gaps' as [| g rest]; [reflexivity | exfalso].
  destruct (proj1 (Hgaps' g) (or_introl eq_refl))
    as [Hnotin (Hg & x & y & Hx & Hy & Hlow & Hhigh)].
  assert (Hbelow : exists x0, In x0 xs /\ place axis x0 < place axis g).
  { apply Hys in Hx. destruct Hx as [Hx | Hx]; [eauto |].
    apply Hgaps in Hx. destruct Hx as [_ (_ & x0 & _ & Hx0 & _ & Hlow0 & _)].
    exists x0. split; [exact Hx0 | lia]. }
  assert (Habove : exists y0, In y0 xs /\ place axis g < place axis y0).
  { apply Hys in Hy. destruct Hy as [Hy | Hy]; [eauto |].
    apply Hgaps in Hy. destruct Hy as [_ (_ & _ & y0 & _ & Hy0 & _ & Hhigh0)].
    exists y0. split; [exact Hy0 | lia]. }
  destruct Hbelow as (x0 & Hx0 & Hlow0), Habove as (y0 & Hy0 & Hhigh0).
  apply Hnotin, Hys. right. apply Hgaps. split.
  - intros Hin. apply Hnotin, Hys. left. exact Hin.
  - split; [exact Hg |]. exists x0, y0. tauto.
Qed.

End IndexGapsFacts.

(** The indices of the coordinates of an alignment, from their sort to
    the gaps: [project] reads the index that varies along the
    alignment, [build] makes the coordinate of an index, and
    [aligned] holds of the coordinates of the line. *)
Section GapsPipeline.
Context {Index Coordinate : Type} `{EqDec Index}.
Variables (previous next : AdjacentIndexFinder Index) (sorter : IndexSorter Index).
Variable axis : list Index.
Hypothesis Haxis : WellFormedAxis previous next sorter axis.
Variable comparator : Coordinate -> Coordinate -> Z.
Variable project : Coordinate -> Index.
Variable build : Index -> Coordinate.
Variable aligned : Coordinate -> Prop.
Hypothesis Hcomparator :
  forall a b, aligned a -> aligned b ->
    ((0 < comparator a b)%Z <-> place axis (project b) < place axis (project a)).
Hypothesis Hproject : forall c, aligned c -> In (project c) axis.
Hypothesis Hbuild : forall i, In i axis -> aligned (build i) /\ project (build i) = i.

Lemma StronglySorted_map_key (key : Index -> nat) (l : list Coordinate) :
  StronglySorted (keyLe (fun c => key (project c))) l ->
  StronglySorted (keyLe key) (map project l).
Proof.
  induction 1 as [| x l Hsorted IH Hall]; simpl; constructor; [exact IH |].
  rewrite Forall_forall in *. intros i Hi. apply in_map_iff in Hi.
  destruct Hi as (c & <- & Hc). apply (Hall c Hc).
Qed.

Lemma projected_sorted (l : list Coordinate) :
  (forall c, In c l -> aligned c) ->
  StronglySorted (keyLe (place axis)) (map project (sort comparator l)).
Proof.
  intros Hl. apply StronglySorted_map_key.
  apply (sort_sorted (fun c => place axis (project c))).
  intros a b Ha Hb. apply Hcomparator; apply Hl; assumption.
Qed.

Lemma projected_In (l : list Coordinate) i :
  In i (map project (sort comparator l)) <-> exists c, In c l /\ project c = i.
Proof.
  rewrite in_map_iff. split; intros (c & Hc & Hi).
  - subst. exists c. split; [apply sort_In in Hi; exact Hi | reflexivity].
  - subst. exists c. split; [reflexivity | apply sort_In; exact Hc].
Qed.

Lemma findIndexGaps_pipeline (l : list Coordinate) fuel :
  (forall c, In c l -> aligned c) ->
  length axis <= fuel ->
  exists gaps,
    findIndexGaps fuel (toOrderedSet (map project (sort comparator l))) next = Done gaps
    /\ forall merged,
        Permutation merged (l ++ map build gaps) ->
        findIndexGaps fuel (toOrderedSet (map project (sort comparator merged))) next
        = Done [].
Proof.
  intros Hl Hfuel.
  assert (Hon : forall i, In i (map project (sort comparator l)) -> In i axis).
  { intros i Hi. apply projected_In in Hi. destruct Hi as (c & Hc & <-).
    apply Hproject, Hl, Hc. }
  destruct (findIndexGaps_sorted previous next sorter axis Haxis
              (map project (sort comparator l)) fuel Hon (projected_sorted l Hl) Hfuel)
    as (gaps & Hdone & Hgaps).
  exists gaps. split; [exact Hdone |].
  intros merged Hmerged.
  assert (Hgap_axis : forall g, In g gaps -> In g axis).
  { intros g Hg. apply Hgaps in Hg. apply Hg. }
  assert (Hmembers : forall c, In c merged <-> In c l \/ In c (map build gaps)).
  { intros c. rewrite <- in_app_iff. split; apply Permutation_in;
      [exact Hmerged | symmetry; exact Hmerged]. }
  assert (Hmerged_aligned : forall c, In c merged -> aligned c).
  { intros c Hc. apply Hmembers in Hc. destruct Hc as [Hc | Hc]; [apply Hl; exact Hc |].
    apply in_map_iff in Hc. destruct Hc as (g & <- & Hg). apply Hbuild, Hgap_axis, Hg. }
  apply (findIndexGaps_merged previous next sorter axis Haxis
           (map project (sort comparator l)) _ gaps fuel Hon Hgaps);
    [| apply projected_sorted; exact Hmerged_aligned | exact Hfuel].
  intros i. rewrite !projected_In. split.
  - intros (c & Hc & <-). apply Hmembers in Hc. destruct Hc as [Hc | Hc]; [left; eauto |].
    right. apply in_map_iff in Hc. destruct Hc as (g & <- & Hg).
    rewrite (proj2 (Hbuild g (Hgap_axis g Hg))). exact Hg.
  - intros [(c & Hc & <-) | Hg].
    + exists c. split; [apply Hmembers; left; exact Hc | reflexivity].
    + exists (build i). split; [| apply Hbuild, Hgap_axis, Hg].
      apply Hmembers. right. apply in_map. exact Hg.
Qed.

End GapsPipeline.

(** ** The gaps of an alignment *)

Section GapFacts.
Context {ColumnIndex RowIndex : Type}.
Context `{EqDec ColumnIndex} `{EqDec RowIndex}.
Variable this : CoordinateNavigator ColumnIndex RowIndex.
Variable columns : list ColumnIndex.
Variable rows : list RowIndex.
Hypothesis Hgrid : WellFormedGrid this columns rows.

Lemma findAlignmentGaps_HORIZONTAL fuel first second rest :
  findAlignmentGaps this fuel (mkAlignment HORIZONTAL (first :: second :: rest))
  = (missingColumns <-
       findIndexGaps fuel
         (toOrderedSet
            (map (@columnIndex _ _)
                 (sort (createCoordinatesSorter this) (first :: second :: rest))))
         (findNextColumnIndex this) ;;
     Done (map (fun columnIndex => mkCoordinate columnIndex (rowIndex first)) missingColumns)).
Proof. reflexivity. Qed.

Lemma findAlignmentGaps_VERTICAL fuel first second rest :
  findAlignmentGaps this fuel (mkAlignment VERTICAL (first :: second :: rest))
  = (missingRows <-
       findIndexGaps fuel
         (toOrderedSet
            (map (@rowIndex _ _)
                 (sort (createCoordinatesSorter this) (first :: second :: rest))))
         (findNextRowIndex this) ;;
     Done (map (fun rowIndex => mkCoordinate (columnIndex first) rowIndex) missingRows)).
Proof. reflexivity. Qed.

Lemma createCoordinatesSorter_place (a b : Coordinate ColumnIndex RowIndex) :
  onGrid columns rows a -> onGrid columns rows b ->
  (0 < createCoordinatesSorter this a b)%Z <->
  place rows (rowIndex b) < place rows (rowIndex a)
  \/ (place rows (rowIndex a) = place rows (rowIndex b)
      /\ place columns (columnIndex b) < place columns (columnIndex a)).
Proof.
  intros [Hac Har] [Hbc Hbr].
  apply (createCoordinatesSorter_pos this columns rows Hgrid);
    apply place_nth_error; assumption.
Qed.

Lemma findAlignmentGaps_on_grid (alignment : CoordinateAlignment ColumnIndex RowIndex) fuel :
  (forall c, In c (coordinates alignment) -> onGrid columns rows c) ->
  sharesAxis alignment ->
  length columns + length rows <= fuel ->
  exists gaps,
    findAlignmentGaps this fuel alignment = Done gaps
    /\ forall merged,
        Permutation merged (coordinates alignment ++ gaps) ->
        findAlignmentGaps this fuel (mkAlignment (direction alignment) merged) = Done [].
Proof.
  destruct alignment as [dir cs]. unfold sharesAxis. simpl.
  intros Hon Hshared Hfuel.
  destruct cs as [| first [| second rest]].
  - exists []. split; [reflexivity |]. intros merged Hmerged.
    apply Permutation_sym, Permutation_nil in Hmerged. subst. reflexivity.
  - exists []. split; [reflexivity |]. intros merged Hmerged.
    apply Permutation_sym, Permutation_length_1_inv in Hmerged. subst. reflexivity.
  - pose proof (Hon first (or_introl eq_refl)) as [Hfirstc Hfirstr].
    destruct Hgrid as [Hcolumns Hrows].
    destruct dir.
    + destruct Hshared as [row Hrow].
      destruct (findIndexGaps_pipeline
                  (findPreviousColumnIndex this) (findNextColumnIndex this)
                  (columnIndexSorter this) columns Hcolumns
                  (createCoordinatesSorter this) (@columnIndex _ _)
                  (fun column => mkCoordinate column (rowIndex first))
                  (fun c => onGrid columns rows c /\ rowIndex c = rowIndex first))
        with (l := first :: second :: rest) (fuel := fuel)
        as (gaps & Hgaps & Hmerged).
      * intros a b [Ha Hrowa] [Hb Hrowb].
        rewrite (createCoordinatesSorter_place a b Ha Hb), Hrowa, Hrowb. lia.
      * intros c [[Hc _] _]. exact Hc.
      * intros i Hi. repeat split; simpl; assumption.
      * intros c Hc. split; [apply Hon; exact Hc |].
        rewrite (Hrow c Hc), (Hrow first (or_introl eq_refl)). reflexivity.
      * lia.
      * eexists. split; [rewrite findAlignmentGaps_HORIZONTAL, Hgaps; reflexivity |].
        intros merged Hperm. pose proof (Hmerged merged Hperm) as Hnone.
        apply Permutation_length in Hperm. rewrite length_app in Hperm. simpl in Hperm.
        destruct merged as [| m1 [| m2 ms]]; simpl in Hperm; try lia.
        rewrite findAlignmentGaps_HORIZONTAL, Hnone. reflexivity.
    + destruct Hshared as [column Hcolumn].
      destruct (findIndexGaps_pipeline
                  (findPreviousRowIndex this) (findNextRowIndex this)
                  (rowIndexSorter this) rows Hrows
                  (createCoordinatesSorter this) (@rowIndex _ _)
                  (fun row => mkCoordinate (columnIndex first) row)
                  (fun c => onGrid columns rows c /\ columnIndex c = columnIndex first))
        with (l := first :: second :: rest) (fuel := fuel)
        as (gaps & Hgaps & Hmerged).
      * intros a b [Ha Hcolumna] [Hb Hcolumnb].
        rewrite (createCoordinatesSorter_place a b Ha Hb), Hcolumna, Hcolumnb. lia.
      * intros c [[_ Hc] _]. exact Hc.
      * intros i Hi. repeat split; simpl; assumption.
      * intros c Hc. split; [apply Hon; exact Hc |].
        rewrite (Hcolumn c Hc), (Hcolumn first (or_introl eq_refl)). reflexivity.
      * lia.
      * eexists. split; [rewrite findAlignmentGaps_VERTICAL, Hgaps; reflexivity |].
        intros merged Hperm. pose proof (Hmerged merged Hperm) as Hnone.
        apply Permutation_length in Hperm. rewrite length_app in Hperm. simpl in Hperm.
        destruct merged as [| m1 [| m2 ms]]; simpl in Hperm; try lia.
        rewrite findAlignmentGaps_VERTICAL, Hnone. reflexivity.
Qed.

End GapFacts.

Lemma mapM_exists {A B : Type} (f : A -> outcome B) (l : list A) :
  (forall x, In x l -> exists y, f x = Done y) -> exists r, mapM f l = Done r.
Proof.
  induction l as [| x l IH]; intros Hf; simpl; [eauto |].
  destruct (Hf x (or_introl eq_refl)) as [y ->].
  destruct IH as [r ->]; [intros z Hz; apply Hf; right; exact Hz |].
  simpl. eauto.
Qed.

Section GapTheorem.
Context {ColumnIndex RowIndex : Type}.
Context `{EqDec ColumnIndex} `{EqDec RowIndex}.
Variable this : CoordinateNavigator ColumnIndex RowIndex.
Variable columns : list ColumnIndex.
Variable rows : list RowIndex.
Hypothesis Hgrid : WellFormedGrid this columns rows.
Variable hashOrder : MapOrder (Coordinate ColumnIndex RowIndex).
Hypothesis Hrearranges : rearranges hashOrder.

Lemma calculateDistance_Done_on_grid fuel (a b : Coordinate ColumnIndex RowIndex) :
  onGrid columns rows a -> onGrid columns rows b ->
  length columns + length rows <= fuel ->
  exists result, calculateDistance this fuel a b = Done result.
Proof.
  intros Ha Hb Hfuel.
  pose proof (createCoordinatesSorter_place this columns rows Hgrid a b Ha Hb) as Hab.
  pose proof (createCoordinatesSorter_place this columns rows Hgrid b a Hb Ha) as Hba.
  destruct Hgrid as [Hcolumns Hrows].
  destruct Ha as [Hac Har], Hb as [Hbc Hbr].
  pose proof (place_nth_error columns _ Hac) as Hka.
  pose proof (place_nth_error columns _ Hbc) as Hkb.
  pose proof (place_nth_error rows _ Har) as Hla.
  pose proof (place_nth_error rows _ Hbr) as Hlb.
  destruct (Nat.eq_dec (place columns (columnIndex a)) (place columns (columnIndex b)))
    as [Hk | Hk];
    [| destruct (Nat.eq_dec (place rows (rowIndex a)) (place rows (rowIndex b)))
        as [Hl | Hl]].
  - eexists. apply (calculateDistance_on_grid this columns rows Hgrid fuel a b _ _ _ _
                      Hka Hkb Hla Hlb); [left; exact Hk | exact Hfuel].
  - eexists. apply (calculateDistance_on_grid this columns rows Hgrid fuel a b _ _ _ _
                      Hka Hkb Hla Hlb); [right; exact Hl | exact Hfuel].
  - assert (Hcolumn : columnIndex a <> columnIndex b) by congruence.
    assert (Hrow : rowIndex a <> rowIndex b) by congruence.
    assert (Hlen : 0 < length columns) by (pose proof (place_lt columns _ Hac); lia).
    assert (Hlen' : 0 < length rows) by (pose proof (place_lt rows _ Har); lia).
    destruct fuel as [| [| fuel]]; try lia.
    destruct (Z_lt_dec 0 (createCoordinatesSorter this a b)) as [Hgt | Hle].
    + rewrite calculateDistance_swap by lia. eexists.
      apply calculateDistance_not_aligned_ordered; [| congruence | congruence].
      apply Z.nlt_ge. intros Hgt'. apply Hab in Hgt. apply Hba in Hgt'. lia.
    + eexists. apply calculateDistance_not_aligned_ordered; [lia | exact Hcolumn | exact Hrow].
Qed.

Lemma findAlignments_Done fuel input maxDistance :
  (forall c, In c input -> onGrid columns rows c) ->
  length columns + length rows <= fuel ->
  exists alignments, findAlignments this hashOrder fuel input maxDistance = Done alignments.
Proof.
  intros Hinput Hfuel. unfold findAlignments.
  set (sorted := sort (createCoordinatesSorter this) input).
  set (candidatesMap := ImmutableMap hashOrder _).
  assert (Hsorted : forall c, In c sorted -> onGrid columns rows c).
  { intros c Hc. apply Hinput. apply sort_In in Hc. exact Hc. }
  assert (Hentries : forall entry, In entry candidatesMap ->
                       onGrid columns rows (fst entry)
                       /\ forall c, In c (snd entry) -> onGrid columns rows c).
  { apply (ImmutableMap_invariant hashOrder Hrearranges
             (fun key value => onGrid columns rows key
                               /\ forall c, In c value -> onGrid columns rows c)).
    intros e He. apply mapIndexedFrom_In in He. destruct He as (k & x & Hk & ->). simpl.
    split; [apply Hsorted; eapply nth_error_In; exact Hk |].
    intros c Hc. apply Hsorted. revert Hc. clear.
    generalize (k + 1). intros n. revert sorted. intros l. revert n.
    induction l as [| y l IH]; intros [| n] Hc; simpl in Hc; auto.
    right. apply (IH n). exact Hc. }
  match goal with
  | |- exists alignments, (validCandidates <- mapM ?f ?l ;; _) = _ =>
      destruct (mapM_exists f l) as [validCandidates ->]
  end.
  - intros entry Hentry. apply (mapFilter_In hashOrder Hrearranges) in Hentry.
    destruct Hentry as [Hentry _].
    destruct (Hentries entry Hentry) as [Hreference Hcandidates].
    match goal with
    | |- exists y, (potentialAlignments <- mapM ?f ?l ;; _) = _ =>
        destruct (mapM_exists f l) as [potentialAlignments ->]
    end.
    + intros c Hc. unfold mapCandidateToPotentialAlignment.
      destruct (calculateDistance_Done_on_grid fuel c (fst entry)
                  (Hcandidates c Hc) Hreference Hfuel) as [result ->].
      simpl. eauto.
    + simpl. eauto.
  - simpl. eauto.
Qed.

(** C7: on a well-formed finite grid, in whatever order the maps of
    more than eight entries iterate, [findAlignments] returns, and for
    every alignment it returns [findAlignmentGaps] returns gaps such
    that the alignment merged with them, in any order, has no gap
    left: [findAlignmentGaps] of the merged alignment is empty. *)
Theorem findAlignmentGaps_merged_contiguous :
  forall (fuel : nat) (input : list (Coordinate ColumnIndex RowIndex))
         (maxDistance : ShipSize),
    (forall c, In c input -> onGrid columns rows c) ->
    length columns + length rows <= fuel ->
    exists alignments,
      findAlignments this hashOrder fuel input maxDistance = Done alignments
      /\ forall alignment,
          In alignment alignments ->
          exists gaps,
            findAlignmentGaps this fuel alignment = Done gaps
            /\ forall merged,
                Permutation merged (coordinates alignment ++ gaps) ->
                findAlignmentGaps this fuel (mkAlignment (direction alignment) merged)
                = Done [].
Proof.
  intros fuel input maxDistance Hinput Hfuel.
  destruct (findAlignments_Done fuel input maxDistance Hinput Hfuel) as [alignments Hfound].
  exists alignments. split; [exact Hfound |].
  intros alignment Hin.
  apply (findAlignmentGaps_on_grid this columns rows Hgrid).
  - intros c Hc. apply Hinput.
    exact (findAlignments_members this hashOrder Hrearranges _ _ _ _ _ Hfound Hin c Hc).
  - exact (findAlignments_sharesAxis this hashOrder Hrearranges _ _ _ _ _ Hfound Hin).
  - exact Hfuel.
Qed.

End GapTheorem.

(** ** The traversal of the grid *)

Lemma filterDefined_nth_error_seq {A : Type} (l : list A) (size : nat) :
  filterDefined (map (nth_error l) (seq 0 size)) = firstn size l.
Proof.
  revert l. induction size as [| size IH]; intros l; [reflexivity |].
  rewrite <- cons_seq, <- seq_shift. cbn [map]. rewrite map_map. destruct l as [| x l].
  - simpl. clear. induction (seq 0 size) as [| d ds IHds]; [reflexivity | exact IHds].
  - simpl. f_equal. apply IH.
Qed.

Section SteppedWalk.
Context {Index : Type} `{EqDec Index}.
Variable next : AdjacentIndexFinder Index.
Variable origin : Index.
Variable indices : list Index.
Hypothesis Hwalk : walk next origin indices.
Variable step : nat.
Hypothesis Hstep : 0 < step.

Lemma findNextIndexByStep_walk d i n :
  nth_error indices d = Some i ->
  findNextIndexByStep next i n = nth_error indices (d + n).
Proof.
  intros Hd. rewrite (walk_nth_error next i _ (walk_suffix next _ _ Hwalk d i Hd)).
  apply nth_error_skipn.
Qed.

(** The walk by steps of [step] from the index at place [d]. *)
Lemma stepped_walk n :
  forall d i,
    length indices - d <= n ->
    nth_error indices d = Some i ->
    exists l,
      walk (fun index => findNextIndexByStep next index step) i l
      /\ length l <= length indices - d
      /\ (forall x, In x l -> In x indices)
      /\ forall t x, nth_error indices (d + t * step) = Some x -> In x l.
Proof.
  induction n as [| n IH]; intros d i Hn Hd.
  - assert (d < length indices) by (apply nth_error_Some; congruence). lia.
  - assert (Hlt : d < length indices) by (apply nth_error_Some; congruence).
    pose proof (findNextIndexByStep_walk d i step Hd) as Hnext.
    destruct (nth_error indices (d + step)) as [j |] eqn:Hj.
    + assert (Hlt' : d + step < length indices) by (apply nth_error_Some; congruence).
      destruct (IH (d + step) j) as (l & Hl & Hlen & Hin & Hcover); [lia | exact Hj |].
      exists (i :: l). split; [eapply walk_step; eauto | split; [simpl; lia | split]].
      * intros x [<- | Hx]; [eapply nth_error_In; exact Hd | apply Hin; exact Hx].
      * intros [| t] x Hx.
        -- left. rewrite Nat.add_0_r in Hx. congruence.
        -- right. apply (Hcover t). rewrite <- Hx. f_equal. simpl. lia.
    + exists [i]. split; [apply walk_boundary; exact Hnext | split; [simpl; lia | split]].
      * intros x [<- | []]. eapply nth_error_In. exact Hd.
      * intros [| t] x Hx.
        -- left. rewrite Nat.add_0_r in Hx. congruence.
        -- apply nth_error_None in Hj.
           assert (d + S t * step < length indices) by (apply nth_error_Some; congruence).
           simpl in *. nia.
Qed.

End SteppedWalk.

Section LoopableFacts.
Context {ColumnIndex RowIndex : Type}.
Context `{EqDec ColumnIndex} `{EqDec RowIndex}.

(** A cursor over a sequence that is not empty never reads outside it. *)
Lemma getNextIndex_in_range (self : LoopableIndices RowIndex) n :
  indices self <> [] ->
  nextIndexIndex self = Some n ->
  exists k, k < length (indices self)
            /\ nth_error (indices self) k = Some (fst (getNextIndex self)).
Proof.
  intros Hnonempty Hn. unfold getNextIndex. rewrite Hn.
  set (k := if S n <? length (indices self) then S n else 0).
  assert (Hk : k < length (indices self)).
  { unfold k. destruct (S n <? length (indices self)) eqn:Hlt.
    - apply Nat.ltb_lt. exact Hlt.
    - destruct (indices self); [contradiction | simpl; lia]. }
  exists k. split; [exact Hk |]. simpl. apply nth_error_nth'. exact Hk.
Qed.

Lemma traverseStartingCoordinatesFrom_next (rowIndices : list RowIndex) initial :
  forall (columnIndices : list ColumnIndex) n j column,
    n < length rowIndices ->
    nth_error columnIndices j = Some column ->
    nth_error (traverseStartingCoordinatesFrom
                 (mkLoopableIndices rowIndices initial (Some n)) columnIndices) j
    = Some (mkCoordinate column
              (nth ((n + 1 + j) mod length rowIndices) rowIndices initial)).
Proof.
  induction columnIndices as [| c columnIndices IH]; intros n j column Hn Hj;
    [destruct j; discriminate |].
  assert (Hnew : (if S n <? length rowIndices then S n else 0)
                 = (n + 1) mod length rowIndices).
  { destruct (S n <? length rowIndices) eqn:Hlt.
    - apply Nat.ltb_lt in Hlt. rewrite Nat.mod_small by lia. lia.
    - apply Nat.ltb_ge in Hlt. replace (n + 1) with (length rowIndices) by lia.
      rewrite Nat.Div0.mod_same. reflexivity. }
  simpl. rewrite Hnew. destruct j as [| j]; simpl in *.
  - injection Hj as <-. rewrite Nat.add_0_r. reflexivity.
  - rewrite (IH _ j column); [| apply Nat.mod_upper_bound; lia | exact Hj].
    replace (((n + 1) mod length rowIndices + 1 + j) mod length rowIndices)
      with ((n + 1 + S j) mod length rowIndices); [reflexivity |].
    replace ((n + 1) mod length rowIndices + 1 + j)
      with ((n + 1) mod length rowIndices + (1 + j)) by lia.
    rewrite Nat.Div0.add_mod_idemp_l. f_equal; lia.
Qed.

Lemma traverseStartingCoordinatesFrom_initial (rowIndices : list RowIndex) initial k :
  forall (columnIndices : list ColumnIndex) j column,
    keyOf rowIndices initial = Some k ->
    nth_error columnIndices j = Some column ->
    nth_error (traverseStartingCoordinatesFrom
                 (mkLoopableIndices rowIndices initial None) columnIndices) j
    = Some (mkCoordinate column (nth ((k + j) mod length rowIndices) rowIndices initial)).
Proof.
  intros columnIndices j column Hk Hj.
  pose proof (keyOf_Some _ _ _ Hk) as Hnth.
  assert (Hlt : k < length rowIndices) by (apply nth_error_Some; congruence).
  destruct columnIndices as [| c columnIndices]; [destruct j; discriminate |].
  simpl. rewrite Hk. destruct j as [| j]; simpl in *.
  - injection Hj as <-. rewrite Nat.add_0_r, Nat.mod_small by exact Hlt.
    rewrite (nth_error_nth _ _ _ Hnth). reflexivity.
  - rewrite (traverseStartingCoordinatesFrom_next _ _ _ _ j column Hlt Hj).
    replace (k + 1 + j) with (k + S j) by lia. reflexivity.
Qed.

End LoopableFacts.

Lemma Forall2_nth_error_l {A B : Type} (R : A -> B -> Prop) l r j x :
  Forall2 R l r -> nth_error l j = Some x ->
  exists y, nth_error r j = Some y /\ R x y.
Proof.
  intros HF. revert j. induction HF as [| x' y' l r Hxy HF IH]; intros [| j] Hj;
    simpl in *; try discriminate.
  - injection Hj as <-. eauto.
  - apply IH. exact Hj.
Qed.

Lemma Forall2_In_l {A B : Type} (R : A -> B -> Prop) l r x :
  Forall2 R l r -> In x l -> exists y, In y r /\ R x y.
Proof.
  induction 1 as [| x' y' l r Hxy HF IH]; intros Hin; simpl in *; [contradiction |].
  destruct Hin as [<- | Hin]; [eauto |].
  destruct (IH Hin) as (y & Hy & HR); eauto.
Qed.

Lemma diagonal_start (p j size : nat) :
  p < size -> ((p + size - j mod size) mod size + j) mod size = p.
Proof.
  intros Hp.
  assert (Hj : j mod size < size) by (apply Nat.mod_upper_bound; lia).
  rewrite Nat.Div0.add_mod_idemp_l.
  rewrite (Nat.div_mod_eq j size) at 2.
  replace (p + size - j mod size + (size * (j / size) + j mod size))
    with (p + (1 + j / size) * size) by nia.
  rewrite Nat.Div0.mod_add. apply Nat.mod_small. exact Hp.
Qed.

Section DiagonalFacts.
Context {ColumnIndex RowIndex : Type}.
Context `{EqDec ColumnIndex} `{EqDec RowIndex}.
Variable this : CoordinateNavigator ColumnIndex RowIndex.
Variable minShipSize : ShipSize.
Hypothesis Hsize : 0 < minShipSize.
Variable fuel : nat.
Variable origin : Coordinate ColumnIndex RowIndex.
Variable columnIndices : list ColumnIndex.
Variable rowIndices : list RowIndex.
Hypothesis Horigin : getGridOrigin this fuel = Done origin.
Hypothesis Hcolumns : walk (findNextColumnIndex this) (columnIndex origin) columnIndices.
Hypothesis Hrows : walk (findNextRowIndex this) (rowIndex origin) rowIndices.
Hypothesis Hcolumnsfuel : length columnIndices <= fuel.
Hypothesis Hrowsfuel : length rowIndices <= fuel.

Lemma findStartingCoordinates_Done :
  findStartingCoordinates this fuel minShipSize
  = Done (sort (createCoordinatesSorter this)
               (map (fun newRowIndex => mkCoordinate (columnIndex origin) newRowIndex)
                    (firstn minShipSize rowIndices))).
Proof.
  unfold findStartingCoordinates. rewrite Horigin. simpl bind. do 3 f_equal.
  rewrite <- filterDefined_nth_error_seq. f_equal. apply map_ext.
  intros d. apply walk_nth_error. exact Hrows.
Qed.

Lemma startingRows_Permutation :
  Permutation
    (map (@rowIndex _ _)
         (sort (createCoordinatesSorter this)
               (map (fun newRowIndex => mkCoordinate (columnIndex origin) newRowIndex)
                    (firstn minShipSize rowIndices))))
    (firstn minShipSize rowIndices).
Proof.
  rewrite (Permutation_map _ (sort_Permutation _ _)).
  rewrite map_map. simpl. rewrite map_id. reflexivity.
Qed.

(** The coordinates of one column of a diagonal. *)
Lemma traverseColumn_Done (traverseFirstCoordinate : Coordinate ColumnIndex RowIndex) d :
  nth_error rowIndices d = Some (rowIndex traverseFirstCoordinate) ->
  exists l,
    (rowIndices <- createIndices fuel (rowIndex traverseFirstCoordinate)
                     (fun initialValue =>
                        findNextIndexByStep (findNextRowIndex this) initialValue minShipSize) ;;
     Done (map (fun rowIndex =>
                  mkCoordinate (columnIndex traverseFirstCoordinate) rowIndex)
               rowIndices))
    = Done (map (fun rowIndex =>
                   mkCoordinate (columnIndex traverseFirstCoordinate) rowIndex) l)
    /\ (forall x, In x l -> In x rowIndices)
    /\ forall t x, nth_error rowIndices (d + t * minShipSize) = Some x -> In x l.
Proof.
  intros Hd.
  destruct (stepped_walk (findNextRowIndex this) (rowIndex origin) rowIndices Hrows
              minShipSize Hsize (length rowIndices) d _ (Nat.le_sub_l _ _) Hd)
    as (l & Hl & Hlen & Hin & Hcover).
  exists l. split; [| split; assumption].
  rewrite (createIndices_walk _ _ l fuel Hl) by lia. reflexivity.
Qed.

Lemma traverseGridDiagonally_Done startingCoordinates startingCoordinate k :
  (forall row, In row (map (@rowIndex _ _) startingCoordinates) -> In row rowIndices) ->
  In startingCoordinate startingCoordinates ->
  keyOf (map (@rowIndex _ _) startingCoordinates) (rowIndex startingCoordinate) = Some k ->
  exists list,
    traverseGridDiagonally fuel columnIndices minShipSize
                           startingCoordinates startingCoordinate (findNextRowIndex this)
    = Done list
    /\ (forall c, In c list -> In (rowIndex c) rowIndices)
    /\ forall j column i row,
        nth_error columnIndices j = Some column ->
        nth_error rowIndices i = Some row ->
        nth_error (map (@rowIndex _ _) startingCoordinates)
                  ((k + j) mod length startingCoordinates)
        = nth_error rowIndices (i mod minShipSize) ->
        In (mkCoordinate column row) list.
Proof.
  intros Hstart Hin Hk.
  set (startingRows := map (@rowIndex _ _) startingCoordinates) in *.
  assert (Hlength : length startingRows = length startingCoordinates)
    by apply length_map.
  assert (Hpositive : 0 < length startingRows).
  { apply keyOf_Some in Hk.
    assert (k < length startingRows) by (apply nth_error_Some; congruence). lia. }
  unfold traverseGridDiagonally.
  rewrite (proj2 (contains_In startingCoordinates startingCoordinate) Hin). simpl negb.
  cbv iota. fold startingRows. unfold newLoopableIndices.
  rewrite (proj2 (contains_In startingRows (rowIndex startingCoordinate)));
    [| eapply nth_error_In; apply keyOf_Some; exact Hk].
  simpl bind.
  set (traverseStartingCoordinates := traverseStartingCoordinatesFrom _ columnIndices).
  assert (Hnth : forall j column,
             nth_error columnIndices j = Some column ->
             nth_error traverseStartingCoordinates j
             = Some (mkCoordinate column
                       (nth ((k + j) mod length startingRows) startingRows
                            (rowIndex startingCoordinate)))).
  { intros j column Hj. apply traverseStartingCoordinatesFrom_initial; assumption. }
  assert (Hlen : length traverseStartingCoordinates = length columnIndices).
  { unfold traverseStartingCoordinates. generalize (mkLoopableIndices startingRows
                                                      (rowIndex startingCoordinate) None).
    clear. induction columnIndices as [| c cs IH]; intros st; simpl; [reflexivity |].
    destruct (getNextIndex st) as [row st']. simpl. rewrite IH. reflexivity. }
  assert (Hrow : forall tc, In tc traverseStartingCoordinates ->
                            exists d, nth_error rowIndices d = Some (rowIndex tc)).
  { intros tc Htc. apply In_nth_error in Htc. destruct Htc as [j Hj].
    assert (Hjlt : j < length columnIndices).
    { rewrite <- Hlen. apply nth_error_Some. congruence. }
    destruct (nth_error columnIndices j) as [column |] eqn:Hcolumn;
      [| apply nth_error_None in Hcolumn; lia].
    rewrite (Hnth j column Hcolumn) in Hj. injection Hj as <-. simpl.
    apply In_nth_error, Hstart, nth_In, Nat.mod_upper_bound. lia. }
  match goal with
  | |- exists list, (lists <- mapM ?f ?l ;; _) = _ /\ _ =>
      destruct (mapM_exists f l) as [lists Hlists]
  end.
  { intros tc Htc. destruct (Hrow tc Htc) as [d Hd].
    destruct (traverseColumn_Done tc d Hd) as (l & -> & _). eauto. }
  rewrite Hlists. simpl bind. eexists. split; [reflexivity |].
  apply mapM_Done_inv in Hlists. split.
  - intros c Hc. apply in_concat in Hc. destruct Hc as (list & Hlist & Hc).
    destruct (Forall2_In_r _ _ _ _ Hlists Hlist) as (tc & Htc & Hdone).
    destruct (Hrow tc Htc) as [d Hd].
    destruct (traverseColumn_Done tc d Hd) as (l & Hl & Hl_rows & _).
    rewrite Hl in Hdone. injection Hdone as <-.
    apply in_map_iff in Hc. destruct Hc as (x & <- & Hx). apply Hl_rows. exact Hx.
  - intros j column i row Hj Hi Hstarting.
    destruct (Forall2_nth_error_l _ _ _ _ _ Hlists (Hnth j column Hj)) as (list & Hlist & Hdone).
    assert (Hd : nth_error rowIndices (i mod minShipSize)
                 = Some (nth ((k + j) mod length startingRows) startingRows
                             (rowIndex startingCoordinate))).
    { rewrite <- Hstarting, <- Hlength. apply nth_error_nth'.
      apply Nat.mod_upper_bound. lia. }
    destruct (traverseColumn_Done
                (mkCoordinate column
                   (nth ((k + j) mod length startingRows) startingRows
                        (rowIndex startingCoordinate)))
                (i mod minShipSize) Hd) as (l & Hl & _ & Hcover).
    rewrite Hl in Hdone. injection Hdone as <-.
    apply in_concat. eexists. split; [eapply nth_error_In; exact Hlist |].
    simpl. apply in_map. apply (Hcover (i / minShipSize)).
    rewrite <- Hi. f_equal. rewrite (Nat.div_mod_eq i minShipSize) at 3. lia.
Qed.

Lemma traverseGridDiagonallyInDirection_Done :
  exists diagonals,
    traverseGridDiagonallyInDirection this fuel minShipSize = Done diagonals
    /\ (forall list c, In list diagonals -> In c list -> In (rowIndex c) rowIndices)
    /\ forall column row,
        In column columnIndices -> In row rowIndices ->
        exists list, In list diagonals /\ In (mkCoordinate column row) list.
Proof.
  unfold traverseGridDiagonallyInDirection.
  rewrite Horigin. simpl bind.
  rewrite (createIndices_walk _ _ _ fuel Hcolumns Hcolumnsfuel). simpl bind.
  rewrite findStartingCoordinates_Done. simpl bind.
  pose proof startingRows_Permutation as Hperm.
  set (startingCoordinates := sort _ _) in *.
  set (startingRows := map (@rowIndex _ _) startingCoordinates) in *.
  assert (Hprefix : forall row, In row (firstn minShipSize rowIndices) -> In row rowIndices).
  { intros row Hrow. rewrite <- (firstn_skipn minShipSize rowIndices).
    apply in_or_app. left. exact Hrow. }
  assert (Hstart : forall row, In row startingRows -> In row rowIndices).
  { intros row Hrow. apply Hprefix. apply (Permutation_in _ Hperm). exact Hrow. }
  assert (Hnd : NoDup startingRows).
  { apply (Permutation_NoDup (Permutation_sym Hperm)).
    pose proof (walk_NoDup _ _ _ Hrows) as Hnd.
    rewrite <- (firstn_skipn minShipSize rowIndices) in Hnd.
    apply NoDup_app_remove_r in Hnd. exact Hnd. }
  assert (Hlength : length startingRows = length startingCoordinates) by apply length_map.
  assert (Hdiagonal : forall s, In s startingCoordinates ->
             exists k, keyOf startingRows (rowIndex s) = Some k).
  { intros s Hs. apply keyOf_In. apply in_map. exact Hs. }
  match goal with
  | |- exists diagonals, mapM ?f ?l = _ /\ _ =>
      destruct (mapM_exists f l) as [diagonals Hdiagonals]
  end.
  { intros s Hs. destruct (Hdiagonal s Hs) as [k Hk].
    destruct (traverseGridDiagonally_Done startingCoordinates s k Hstart Hs Hk)
      as (list & -> & _). eauto. }
  exists diagonals. split; [exact Hdiagonals |].
  apply mapM_Done_inv in Hdiagonals. split.
  - intros list c Hlist Hc.
    destruct (Forall2_In_r _ _ _ _ Hdiagonals Hlist) as (s & Hs & Hdone).
    destruct (Hdiagonal s Hs) as [k Hk].
    destruct (traverseGridDiagonally_Done startingCoordinates s k Hstart Hs Hk)
      as (list' & Hlist' & Hrows' & _).
    rewrite Hlist' in Hdone. injection Hdone as <-. apply Hrows'. exact Hc.
  - intros column row Hcolumn Hrow.
    apply In_nth_error in Hcolumn, Hrow.
    destruct Hcolumn as [j Hj], Hrow as [i Hi].
    assert (Hilt : i < length rowIndices) by (apply nth_error_Some; congruence).
    assert (Hdlt : i mod minShipSize < minShipSize) by (apply Nat.mod_upper_bound; lia).
    assert (Hdle : i mod minShipSize <= i) by (apply Nat.Div0.mod_le).
    destruct (nth_error rowIndices (i mod minShipSize)) as [first |] eqn:Hfirst;
      [| apply nth_error_None in Hfirst; lia].
    assert (Hmember : In first startingRows).
    { apply (Permutation_in _ (Permutation_sym Hperm)).
      apply (nth_error_In _ (i mod minShipSize)). rewrite nth_error_firstn.
      destruct (i mod minShipSize <? minShipSize) eqn:Hlt;
        [exact Hfirst | apply Nat.ltb_ge in Hlt; lia]. }
    apply In_nth_error in Hmember. destruct Hmember as [p Hp].
    assert (Hplt : p < length startingRows) by (apply nth_error_Some; congruence).
    set (k := (p + length startingRows - j mod length startingRows)
                mod length startingRows).
    assert (Hklt : k < length startingCoordinates).
    { rewrite <- Hlength. apply Nat.mod_upper_bound. lia. }
    destruct (nth_error startingCoordinates k) as [s |] eqn:Hs;
      [| apply nth_error_None in Hs; lia].
    assert (Hk : keyOf startingRows (rowIndex s) = Some k).
    { apply keyOf_nth_error; [exact Hnd |]. unfold startingRows.
      apply map_nth_error. exact Hs. }
    pose proof (nth_error_In _ _ Hs) as Hsin.
    destruct (traverseGridDiagonally_Done startingCoordinates s k Hstart Hsin Hk)
      as (list & Hlist & _ & Hcover).
    destruct (Forall2_nth_error_l _ _ _ _ _ Hdiagonals Hs) as (list' & Hlist' & Hdone).
    rewrite Hlist in Hdone. injection Hdone as <-.
    exists list. split; [eapply nth_error_In; exact Hlist' |].
    apply (Hcover j column i row Hj Hi).
    rewrite <- Hlength. unfold k. rewrite diagonal_start by exact Hplt.
    rewrite Hfirst. exact Hp.
Qed.

Lemma traverseGrid_covers_grid :
  exists lists,
    traverseGrid this fuel minShipSize = Done lists
    /\ forall column row,
        In column columnIndices -> In row rowIndices ->
        exists list, In list lists /\ In (mkCoordinate column row) list.
Proof.
  destruct traverseGridDiagonallyInDirection_Done
    as (diagonals & Hdiagonals & Hdiagonal_rows & Hcover).
  unfold traverseGrid. rewrite Hdiagonals. simpl bind.
  pose proof (createIndices_walk _ _ _ fuel Hrows Hrowsfuel) as Hcreate.
  match goal with
  | |- exists lists, (pairs <- mapM ?f ?l ;; _) = _ /\ _ =>
      destruct (mapM_exists f l) as [pairs Hpairs]
  end.
  { intros list Hlist.
    rewrite (mirror_Done this fuel origin rowIndices list Horigin Hcreate
               (fun c Hc => Hdiagonal_rows list c Hlist Hc)).
    simpl. eauto. }
  rewrite Hpairs. simpl bind. eexists. split; [reflexivity |].
  apply mapM_Done_inv in Hpairs.
  intros column row Hcolumn Hrow.
  destruct (Hcover column row Hcolumn Hrow) as (list & Hlist & Hcell).
  exists list. split; [| exact Hcell].
  apply filter_In. split.
  - destruct (Forall2_In_l _ _ _ _ Hpairs Hlist) as (pair & Hpair & Hdone).
    apply in_concat. exists pair. split; [exact Hpair |].
    destruct (mirror this fuel list) as [mirrored | |]; simpl in Hdone; try discriminate.
    injection Hdone as <-. left. reflexivity.
  - apply Nat.ltb_lt. destruct list; [contradiction | simpl; lia].
Qed.

End DiagonalFacts.

Section TraversalTheorem.
Context {ColumnIndex RowIndex : Type}.
Context `{EqDec ColumnIndex} `{EqDec RowIndex}.
Variable this : CoordinateNavigator ColumnIndex RowIndex.
Hypothesis HpreviousColumn : finiteAcyclic (findPreviousColumnIndex this).
Hypothesis HpreviousRow : finiteAcyclic (findPreviousRowIndex this).
Hypothesis HnextColumn : finiteAcyclic (findNextColumnIndex this).
Hypothesis HnextRow : finiteAcyclic (findNextRowIndex this).

Lemma isRun_not_empty size (run : list (Coordinate ColumnIndex RowIndex)) :
  0 < size -> isRun this size run -> exists c, In c run.
Proof.
  intros Hsize Hrun.
  destruct Hrun as [start columns Hcolumns | start rows Hrows].
  - apply (f_equal (@length _)) in Hcolumns. unfold axisRun in Hcolumns.
    rewrite !length_map, length_seq in Hcolumns.
    destruct columns as [| column columns]; simpl in *; [lia | eauto].
  - apply (f_equal (@length _)) in Hrows. unfold axisRun in Hrows.
    rewrite !length_map, length_seq in Hrows.
    destruct rows as [| row rows]; simpl in *; [lia | eauto].
Qed.

(** C1: when the adjacency functions are finite and acyclic and
    [minShipSize] is positive, [traverseGrid] returns, and every
    axis-aligned contiguous run of [minShipSize] cells of the grid has
    a cell in one of the returned lists. *)
Theorem traverseGrid_intersects_runs :
  forall minShipSize : ShipSize,
    0 < minShipSize ->
    exists fuel0, forall fuel, fuel0 <= fuel ->
      exists origin lists,
        getGridOrigin this fuel = Done origin
        /\ traverseGrid this fuel minShipSize = Done lists
        /\ forall run,
            isRun this minShipSize run ->
            (forall c, In c run -> inGrid this origin c) ->
            exists c list, In c run /\ In list lists /\ In c list.
Proof.
  intros minShipSize Hsize.
  destruct (rowIndices_Done this HpreviousColumn HpreviousRow HnextRow)
    as (fuel0 & origin & rowIndices & Hrows & Hfuel0).
  destruct (finiteAcyclic_walk _ (columnIndex origin) (HnextColumn (columnIndex origin)))
    as [columnIndices Hcolumns].
  exists (fuel0 + length columnIndices + length rowIndices). intros fuel Hfuel.
  destruct (Hfuel0 fuel) as [Horigin _]; [lia |].
  destruct (traverseGrid_covers_grid this minShipSize Hsize fuel origin
              columnIndices rowIndices Horigin Hcolumns Hrows)
    as (lists & Hlists & Hcover); try lia.
  exists origin, lists. split; [exact Horigin | split; [exact Hlists |]].
  intros run Hrun Hgrid.
  destruct (isRun_not_empty minShipSize run Hsize Hrun) as [c Hc].
  destruct (Hgrid c Hc) as [[dc Hdc] [dr Hdr]].
  rewrite (walk_nth_error _ _ _ Hcolumns) in Hdc.
  rewrite (walk_nth_error _ _ _ Hrows) in Hdr.
  destruct (Hcover (columnIndex c) (rowIndex c)
              (nth_error_In _ _ Hdc) (nth_error_In _ _ Hdr)) as (list & Hlist & Hcell).
  exists c, list. destruct c as [column row]. auto.
Qed.

End TraversalTheorem.

(** ** Further properties of the axis arithmetic *)

Section StepFacts.
Context {Index : Type} `{EqDec Index}.
Variable next : AdjacentIndexFinder Index.

Lemma findNextIndexByStepFrom_add (value : option Index) (a b : nat) :
  findNextIndexByStepFrom next value (a + b)
  = findNextIndexByStepFrom next (findNextIndexByStepFrom next value a) b.
Proof.
  revert value. induction a as [| a IH]; intros value; simpl; [reflexivity | apply IH].
Qed.

(** X1: steps compose: [a + b] steps are [a] steps followed by [b] steps,
    and a boundary met on the way gives none. *)
Theorem findNextIndexByStep_add (initialValue : Index) (a b : nat) :
  findNextIndexByStep next initialValue (a + b)
  = match findNextIndexByStep next initialValue a with
    | Some index => findNextIndexByStep next index b
    | None => None
    end.
Proof.
  unfold findNextIndexByStep. rewrite findNextIndexByStepFrom_add.
  destruct (findNextIndexByStepFrom next (Some initialValue) a) as [index |];
    [reflexivity | apply findNextIndexByStepFrom_None].
Qed.

Lemma findNextIndexByStep_S (initialValue : Index) (n : nat) :
  findNextIndexByStep next initialValue (S n)
  = match next initialValue with
    | Some index => findNextIndexByStep next index n
    | None => None
    end.
Proof.
  unfold findNextIndexByStep. simpl.
  destruct (next initialValue); [reflexivity | apply findNextIndexByStepFrom_None].
Qed.

Lemma calculateDistanceLoop_Right fuel :
  forall count index second d,
    calculateDistanceLoop fuel count index second next = Done (Right d) ->
    count <= d /\ findNextIndexByStep next index (d - count) = Some second.
Proof.
  induction fuel as [| fuel IH]; intros count index second d; simpl; [discriminate |].
  destruct (eq_dec index second) as [-> | Hneq].
  - intros [= <-]. rewrite Nat.sub_diag. split; [lia | reflexivity].
  - destruct (next index) as [potentialNext |] eqn:Hnext; [| discriminate].
    intros Hloop. destruct (IH _ _ _ _ Hloop) as [Hle Hsteps].
    split; [lia |].
    replace (d - count) with (S (d - S count)) by lia.
    rewrite findNextIndexByStep_S, Hnext. exact Hsteps.
Qed.

Lemma calculateDistanceLoop_Left fuel :
  forall count index second failure,
    calculateDistanceLoop fuel count index second next = Done (Left failure) ->
    forall n, findNextIndexByStep next index n <> Some second.
Proof.
  induction fuel as [| fuel IH]; intros count index second failure; simpl; [discriminate |].
  destruct (eq_dec index second) as [-> | Hneq]; [discriminate |].
  destruct (next index) as [potentialNext |] eqn:Hnext.
  - intros Hloop [| n]; [intros [= Heq]; contradiction |].
    rewrite findNextIndexByStep_S, Hnext. exact (IH _ _ _ _ Hloop n).
  - intros _ [| n]; [intros [= Heq]; contradiction |].
    rewrite findNextIndexByStep_S, Hnext. discriminate.
Qed.

Lemma createIndicesLoop_Done fuel :
  forall indices previousIndex l,
    createIndicesLoop fuel indices previousIndex next = Done l ->
    exists rest,
      l = indices ++ rest
      /\ walk next previousIndex (previousIndex :: rest)
      /\ length rest < fuel.
Proof.
  induction fuel as [| fuel IH]; intros indices previousIndex l; simpl; [discriminate |].
  destruct (next previousIndex) as [nextIndex |] eqn:Hnext.
  - intros Hloop. destruct (IH _ _ _ Hloop) as (rest & -> & Hwalk & Hlen).
    exists (nextIndex :: rest). rewrite <- app_assoc.
    split; [reflexivity | split; [| simpl; lia]].
    eapply walk_step; eauto.
  - intros [= <-]. exists []. rewrite app_nil_r.
    split; [reflexivity | split; [| simpl; lia]].
    apply walk_boundary. exact Hnext.
Qed.

Lemma createIndices_Done_walk fuel originIndex l :
  createIndices fuel originIndex next = Done l ->
  walk next originIndex l /\ length l <= fuel.
Proof.
  intros Hdone. destruct (createIndicesLoop_Done _ _ _ _ Hdone) as (rest & -> & Hwalk & Hlen).
  split; [exact Hwalk | simpl; lia].
Qed.

(** X2: what [createIndices] returns: a list that starts with the origin,
    where each index is followed by its successor and the last index
    has none, without repetition; more fuel gives the same list. *)
Theorem createIndices_sound :
  forall (fuel : nat) (originIndex : Index) (l : list Index),
    createIndices fuel originIndex next = Done l ->
    (exists rest, l = originIndex :: rest)
    /\ NoDup l
    /\ (forall k index, nth_error l k = Some index -> next index = nth_error l (S k))
    /\ forall fuel', fuel <= fuel' -> createIndices fuel' originIndex next = Done l.
Proof.
  intros fuel originIndex l Hdone.
  destruct (createIndices_Done_walk _ _ _ Hdone) as [Hwalk Hlen].
  split; [exact (walk_head _ _ _ Hwalk) | split; [exact (walk_NoDup _ _ _ Hwalk) | split]].
  - intros k index. apply (walk_next_nth _ _ _ Hwalk).
  - intros fuel' Hfuel. apply createIndices_walk; [exact Hwalk | lia].
Qed.

Lemma findFirstIndexLoop_Done fuel :
  forall previousIndex index first,
    findFirstIndexLoop fuel previousIndex (Some index) next = Done first ->
    next first = None /\ reachable next index first.
Proof.
  induction fuel as [| fuel IH]; intros previousIndex index first; [discriminate |].
  change (findFirstIndexLoop (S fuel) previousIndex (Some index) next)
    with (findFirstIndexLoop fuel index (next index) next).
  destruct (next index) as [potential |] eqn:Hnext.
  - intros Hloop. destruct (IH _ _ _ Hloop) as [Hboundary [d Hd]].
    split; [exact Hboundary |]. exists (S d).
    rewrite findNextIndexByStep_S, Hnext. exact Hd.
  - destruct fuel; [discriminate |]. intros [= <-].
    split; [exact Hnext | exists 0; reflexivity].
Qed.

End StepFacts.

(** ** Further properties of the origin and of the distance *)

Section OriginDistanceFacts.
Context {ColumnIndex RowIndex : Type}.
Context `{EqDec ColumnIndex} `{EqDec RowIndex}.
Variable this : CoordinateNavigator ColumnIndex RowIndex.

(** X3: the origin, when it is returned, is at the boundary of both axes
    and is met by stepping back from the reference. *)
Theorem getGridOrigin_boundary :
  forall (fuel : nat) (origin : Coordinate ColumnIndex RowIndex),
    getGridOrigin this fuel = Done origin ->
    findPreviousColumnIndex this (columnIndex origin) = None
    /\ findPreviousRowIndex this (rowIndex origin) = None
    /\ reachable (findPreviousColumnIndex this)
                 (columnIndex (reference this)) (columnIndex origin)
    /\ reachable (findPreviousRowIndex this)
                 (rowIndex (reference this)) (rowIndex origin).
Proof.
  intros fuel origin. unfold getGridOrigin, getOrigin, findFirstIndex.
  destruct (findFirstIndexLoop fuel _ _ (findPreviousColumnIndex this))
    as [column | |] eqn:Hcolumn; simpl; try discriminate.
  destruct (findFirstIndexLoop fuel _ _ (findPreviousRowIndex this))
    as [row | |] eqn:Hrow; simpl; try discriminate.
  intros [= <-]. simpl.
  destruct (findFirstIndexLoop_Done _ _ _ _ _ Hcolumn) as [Hc Hcr].
  destruct (findFirstIndexLoop_Done _ _ _ _ _ Hrow) as [Hr Hrr].
  tauto.
Qed.

(** X4: a distance that [calculateDistance] returns is real: the two
    coordinates share their column and one row is met from the other
    in that many steps, or they share their row and one column is met
    from the other in that many steps. *)
Theorem calculateDistance_sound :
  forall (fuel : nat) (first second : Coordinate ColumnIndex RowIndex) (d : nat),
    calculateDistance this fuel first second = Done (Right d) ->
    (columnIndex first = columnIndex second
     /\ (findNextIndexByStep (findNextRowIndex this) (rowIndex first) d
         = Some (rowIndex second)
         \/ findNextIndexByStep (findNextRowIndex this) (rowIndex second) d
            = Some (rowIndex first)))
    \/ (rowIndex first = rowIndex second
        /\ (findNextIndexByStep (findNextColumnIndex this) (columnIndex first) d
            = Some (columnIndex second)
            \/ findNextIndexByStep (findNextColumnIndex this) (columnIndex second) d
               = Some (columnIndex first))).
Proof.
  induction fuel as [| fuel IH]; intros first second d; [discriminate |].
  destruct (Z_lt_dec 0 (createCoordinatesSorter this first second)) as [Hgt | Hle].
  - rewrite calculateDistance_swap by lia. intros Hswapped.
    destruct (IH _ _ _ Hswapped) as [[Heq Hsteps] | [Heq Hsteps]];
      [left | right]; (split; [congruence | tauto]).
  - rewrite calculateDistance_no_swap by exact Hle.
    unfold calculateDistanceBetweenIndices.
    destruct (eq_dec (columnIndex first) (columnIndex second)) as [Hcolumn | Hcolumn].
    + destruct (calculateDistanceLoop _ _ _ _ (findNextRowIndex this))
        as [[failure | distance] | |] eqn:Hloop; simpl; try discriminate.
      intros [= <-]. left. split; [exact Hcolumn | left].
      destruct (calculateDistanceLoop_Right _ _ _ _ _ _ Hloop) as [_ Hsteps].
      rewrite Nat.sub_0_r in Hsteps. exact Hsteps.
    + destruct (eq_dec (rowIndex first) (rowIndex second)) as [Hrow | Hrow];
        [| discriminate].
      destruct (calculateDistanceLoop _ _ _ _ (findNextColumnIndex this))
        as [[failure | distance] | |] eqn:Hloop; simpl; try discriminate.
      intros [= <-]. right. split; [exact Hrow | left].
      destruct (calculateDistanceLoop_Right _ _ _ _ _ _ Hloop) as [_ Hsteps].
      rewrite Nat.sub_0_r in Hsteps. exact Hsteps.
Qed.

End OriginDistanceFacts.

(** ** Further properties on a well-formed grid *)

Section AxisOriginFacts.
Context {Index : Type} `{EqDec Index}.
Variables (previous next : AdjacentIndexFinder Index) (sorter : IndexSorter Index).
Variable axis : list Index.
Hypothesis Haxis : WellFormedAxis previous next sorter axis.

Lemma findFirstIndexLoop_axis k :
  forall index previousIndex fuel,
    nth_error axis k = Some index -> k + 2 <= fuel ->
    exists first,
      nth_error axis 0 = Some first
      /\ findFirstIndexLoop fuel previousIndex (Some index) previous = Done first.
Proof.
  induction k as [| k IH]; intros index previousIndex [| fuel] Hk Hfuel; try lia.
  - change (findFirstIndexLoop (S fuel) previousIndex (Some index) previous)
      with (findFirstIndexLoop fuel index (previous index) previous).
    rewrite (axis_first _ _ _ _ Haxis _ Hk). destruct fuel; [lia |].
    exists index. split; [exact Hk | reflexivity].
  - change (findFirstIndexLoop (S fuel) previousIndex (Some index) previous)
      with (findFirstIndexLoop fuel index (previous index) previous).
    rewrite (axis_previous _ _ _ _ Haxis _ _ Hk).
    assert (Hlt : k < length axis).
    { assert (S k < length axis) by (apply nth_error_Some; congruence). lia. }
    apply nth_error_Some in Hlt.
    destruct (nth_error axis k) as [index' |] eqn:Hk'; [| contradiction].
    apply IH; [reflexivity | lia].
Qed.

(** Adjacency reads both ways on the axis. *)
Lemma axis_next_previous i j :
  In i axis -> next i = Some j -> In j axis /\ previous j = Some i.
Proof.
  intros Hi Hnext. apply In_nth_error in Hi. destruct Hi as [k Hk].
  rewrite (axis_next _ _ _ _ Haxis _ _ Hk) in Hnext.
  split; [eapply nth_error_In; exact Hnext |].
  rewrite (axis_previous _ _ _ _ Haxis _ _ Hnext). exact Hk.
Qed.

Lemma axis_previous_next i j :
  In i axis -> previous i = Some j -> In j axis /\ next j = Some i.
Proof.
  intros Hi Hprevious. apply In_nth_error in Hi. destruct Hi as [k Hk].
  destruct (axis_previous_position _ _ _ _ Haxis _ _ _ Hk Hprevious) as [Hj Hpos].
  split; [eapply nth_error_In; exact Hj |].
  rewrite (axis_next _ _ _ _ Haxis _ _ Hj).
  replace (S (k - 1)) with k by lia. exact Hk.
Qed.

End AxisOriginFacts.

Section WellFormedGridFacts.
Context {ColumnIndex RowIndex : Type}.
Context `{EqDec ColumnIndex} `{EqDec RowIndex}.
Variable this : CoordinateNavigator ColumnIndex RowIndex.
Variable columns : list ColumnIndex.
Variable rows : list RowIndex.
Hypothesis Hgrid : WellFormedGrid this columns rows.

Lemma getGridOrigin_on_grid fuel :
  onGrid columns rows (reference this) ->
  length columns + length rows <= fuel ->
  exists firstColumn firstRow,
    nth_error columns 0 = Some firstColumn
    /\ nth_error rows 0 = Some firstRow
    /\ getGridOrigin this fuel = Done (mkCoordinate firstColumn firstRow).
Proof.
  intros [Hcolumn Hrow] Hfuel. destruct Hgrid as [Hcolumns Hrows].
  pose proof (place_lt columns _ Hcolumn) as Hclt.
  pose proof (place_lt rows _ Hrow) as Hrlt.
  destruct (findFirstIndexLoop_axis _ _ _ _ Hcolumns _ _
              (columnIndex (reference this)) fuel (place_nth_error columns _ Hcolumn))
    as (firstColumn & Hfirstc & Hdonec); [lia |].
  destruct (findFirstIndexLoop_axis _ _ _ _ Hrows _ _
              (rowIndex (reference this)) fuel (place_nth_error rows _ Hrow))
    as (firstRow & Hfirstr & Hdoner); [lia |].
  exists firstColumn, firstRow. split; [exact Hfirstc | split; [exact Hfirstr |]].
  unfold getGridOrigin, getOrigin, findFirstIndex. rewrite Hdonec, Hdoner. reflexivity.
Qed.

(** X5: on a well-formed grid whose reference is a cell of the grid, the
    origin is the first column and the first row, and [createIndices]
    from the origin enumerates the two axes. *)
Theorem getGridOrigin_well_formed :
  forall fuel : nat,
    onGrid columns rows (reference this) ->
    length columns + length rows <= fuel ->
    exists firstColumn firstRow,
      nth_error columns 0 = Some firstColumn
      /\ nth_error rows 0 = Some firstRow
      /\ getGridOrigin this fuel = Done (mkCoordinate firstColumn firstRow)
      /\ createIndices fuel firstColumn (findNextColumnIndex this) = Done columns
      /\ createIndices fuel firstRow (findNextRowIndex this) = Done rows.
Proof.
  intros fuel Hreference Hfuel.
  destruct (getGridOrigin_on_grid fuel Hreference Hfuel)
    as (firstColumn & firstRow & Hfirstc & Hfirstr & Horigin).
  exists firstColumn, firstRow.
  split; [exact Hfirstc | split; [exact Hfirstr | split; [exact Horigin |]]].
  destruct Hgrid as [Hcolumns Hrows]. split.
  - apply createIndices_walk; [| lia].
    exact (axis_walk _ _ _ _ Hcolumns 0 _ Hfirstc).
  - apply createIndices_walk; [| lia].
    exact (axis_walk _ _ _ _ Hrows 0 _ Hfirstr).
Qed.

Lemma calculateDistance_not_aligned_on_grid fuel (a b : Coordinate ColumnIndex RowIndex) :
  onGrid columns rows a -> onGrid columns rows b ->
  columnIndex a <> columnIndex b -> rowIndex a <> rowIndex b ->
  2 <= fuel ->
  exists failure, calculateDistance this fuel a b = Done (Left failure).
Proof.
  intros Ha Hb Hcolumn Hrow Hfuel.
  pose proof (createCoordinatesSorter_place this columns rows Hgrid a b Ha Hb) as Hab.
  pose proof (createCoordinatesSorter_place this columns rows Hgrid b a Hb Ha) as Hba.
  destruct fuel as [| [| fuel]]; try lia.
  destruct (Z_lt_dec 0 (createCoordinatesSorter this a b)) as [Hgt | Hle].
  - rewrite calculateDistance_swap by lia. eexists.
    apply calculateDistance_not_aligned_ordered; [| congruence | congruence].
    apply Z.nlt_ge. intros Hgt'. apply Hab in Hgt. apply Hba in Hgt'. lia.
  - eexists. apply calculateDistance_not_aligned_ordered; [lia | exact Hcolumn | exact Hrow].
Qed.

Lemma calculateDistance_places fuel (a b : Coordinate ColumnIndex RowIndex) :
  onGrid columns rows a -> onGrid columns rows b ->
  columnIndex a = columnIndex b \/ rowIndex a = rowIndex b ->
  length columns + length rows <= fuel ->
  calculateDistance this fuel a b
  = Done (Right ((place columns (columnIndex a) - place columns (columnIndex b))
                 + (place columns (columnIndex b) - place columns (columnIndex a))
                 + ((place rows (rowIndex a) - place rows (rowIndex b))
                    + (place rows (rowIndex b) - place rows (rowIndex a))))).
Proof.
  intros [Hac Har] [Hbc Hbr] Haligned Hfuel.
  apply (calculateDistance_on_grid this columns rows Hgrid);
    try (apply place_nth_error; assumption); [| exact Hfuel].
  destruct Haligned as [-> | ->]; auto.
Qed.

(** X6: on a well-formed grid [calculateDistance] fails exactly for the
    coordinates that share neither their column nor their row; for the
    others it returns the difference of their places on the shared
    axis, which is 0 only for equal coordinates. *)
Theorem calculateDistance_on_grid_outcome :
  forall (fuel : nat) (a b : Coordinate ColumnIndex RowIndex),
    onGrid columns rows a -> onGrid columns rows b ->
    length columns + length rows <= fuel ->
    ((exists failure, calculateDistance this fuel a b = Done (Left failure)) <->
     columnIndex a <> columnIndex b /\ rowIndex a <> rowIndex b)
    /\ (columnIndex a = columnIndex b \/ rowIndex a = rowIndex b ->
        calculateDistance this fuel a b
        = Done (Right ((place columns (columnIndex a) - place columns (columnIndex b))
                       + (place columns (columnIndex b) - place columns (columnIndex a))
                       + ((place rows (rowIndex a) - place rows (rowIndex b))
                          + (place rows (rowIndex b) - place rows (rowIndex a))))))
    /\ (calculateDistance this fuel a b = Done (Right 0) <-> a = b).
Proof.
  intros fuel a b Ha Hb Hfuel.
  pose proof (calculateDistance_places fuel a b Ha Hb) as Hvalue.
  assert (Hlen : 2 <= fuel).
  { destruct Ha as [Hac Har].
    pose proof (place_lt columns _ Hac). pose proof (place_lt rows _ Har). lia. }
  split; [| split].
  - split.
    + intros [failure Hfailure].
      destruct (eq_dec (columnIndex a) (columnIndex b)) as [Hc | Hc];
        [rewrite Hvalue in Hfailure by auto; discriminate |].
      destruct (eq_dec (rowIndex a) (rowIndex b)) as [Hr | Hr];
        [rewrite Hvalue in Hfailure by auto; discriminate |].
      split; assumption.
    + intros [Hc Hr]. apply calculateDistance_not_aligned_on_grid; assumption.
  - intros Haligned. apply Hvalue; assumption.
  - split.
    + intros Hzero.
      destruct (eq_dec (columnIndex a) (columnIndex b)) as [Hc | Hc];
        [| destruct (eq_dec (rowIndex a) (rowIndex b)) as [Hr | Hr]].
      * rewrite Hvalue in Hzero by auto. injection Hzero as Hzero.
        destruct a as [ca ra], b as [cb rb]. simpl in *. subst cb. f_equal.
        apply (place_injective rows); [apply Ha | apply Hb | lia].
      * rewrite Hvalue in Hzero by auto. injection Hzero as Hzero.
        destruct a as [ca ra], b as [cb rb]. simpl in *. subst rb. f_equal.
        apply (place_injective columns); [apply Ha | apply Hb | lia].
      * destruct (calculateDistance_not_aligned_on_grid fuel a b Ha Hb Hc Hr Hlen)
          as [failure Hfailure]. rewrite Hfailure in Hzero. discriminate.
    + intros <-. rewrite Hvalue by auto. do 2 f_equal. lia.
Qed.

(** X7: distances add up along a line: when [b] is sorted between [a] and
    [c] on a shared column or row, the distance from [a] to [c] is the
    sum of the distances from [a] to [b] and from [b] to [c]. *)
Theorem calculateDistance_additive :
  forall (fuel : nat) (a b c : Coordinate ColumnIndex RowIndex),
    onGrid columns rows a -> onGrid columns rows b -> onGrid columns rows c ->
    (columnIndex a = columnIndex b /\ columnIndex b = columnIndex c)
    \/ (rowIndex a = rowIndex b /\ rowIndex b = rowIndex c) ->
    (createCoordinatesSorter this a b <= 0)%Z ->
    (createCoordinatesSorter this b c <= 0)%Z ->
    length columns + length rows <= fuel ->
    exists d1 d2,
      calculateDistance this fuel a b = Done (Right d1)
      /\ calculateDistance this fuel b c = Done (Right d2)
      /\ calculateDistance this fuel a c = Done (Right (d1 + d2)).
Proof.
  intros fuel a b c Ha Hb Hc Hline Hab Hbc Hfuel.
  pose proof (createCoordinatesSorter_place this columns rows Hgrid a b Ha Hb) as Hab'.
  pose proof (createCoordinatesSorter_place this columns rows Hgrid b c Hb Hc) as Hbc'.
  rewrite (calculateDistance_places fuel a b Ha Hb), (calculateDistance_places fuel b c Hb Hc),
    (calculateDistance_places fuel a c Ha Hc); try assumption;
    try (destruct Hline as [[H1 H2] | [H1 H2]]; [left | right]; congruence).
  do 2 eexists. split; [reflexivity | split; [reflexivity |]].
  do 2 f_equal.
  destruct Hline as [[H1 H2] | [H1 H2]]; rewrite H1, H2 in *; lia.
Qed.

(** X8: adjacency is symmetric: a coordinate that surrounds a cell of the
    grid is a cell of the grid, surrounded by that cell. *)
Theorem getSurroundingCoordinates_symmetric :
  forall a b : Coordinate ColumnIndex RowIndex,
    onGrid columns rows a ->
    In b (getSurroundingCoordinates this a) ->
    onGrid columns rows b /\ In a (getSurroundingCoordinates this b).
Proof.
  intros a b [Hac Har] Hb. destruct Hgrid as [Hcolumns Hrows].
  apply getSurroundingCoordinates_In in Hb. rewrite getSurroundingCoordinates_In.
  unfold onGrid, oneStepFrom in *.
  destruct Hb as [[Hrow [Hstep | Hstep]] | [Hcolumn [Hstep | Hstep]]].
  - destruct (axis_previous_next _ _ _ _ Hcolumns _ _ Hac Hstep) as [Hin Hback].
    rewrite Hrow. split; [tauto | left; auto].
  - destruct (axis_next_previous _ _ _ _ Hcolumns _ _ Hac Hstep) as [Hin Hback].
    rewrite Hrow. split; [tauto | left; auto].
  - destruct (axis_previous_next _ _ _ _ Hrows _ _ Har Hstep) as [Hin Hback].
    rewrite Hcolumn. split; [tauto | right; auto].
  - destruct (axis_next_previous _ _ _ _ Hrows _ _ Har Hstep) as [Hin Hback].
    rewrite Hcolumn. split; [tauto | right; auto].
Qed.

End WellFormedGridFacts.

(** ** Further properties of the alignments *)

Section MapFacts.
Context {A V : Type} `{EqDec A}.
Variable hashOrder : MapOrder A.
Hypothesis Hrearranges : rearranges hashOrder.

Lemma mapSet_fresh (entries : list (A * V)) key value :
  ~ In key (map fst entries) -> mapSet entries key value = entries ++ [(key, value)].
Proof.
  induction entries as [| [k v] entries IH]; intros Hfresh; simpl; [reflexivity |].
  destruct (eq_dec k key) as [-> | Hneq]; [exfalso; apply Hfresh; left; reflexivity |].
  rewrite IH; [reflexivity |]. intros Hin. apply Hfresh. right. exact Hin.
Qed.

(** A map built from entries with distinct keys iterates over the
    entries. *)
Lemma ImmutableMap_distinct_keys (entries : list (A * V)) :
  NoDup (map fst entries) -> ImmutableMap hashOrder entries = iterate hashOrder entries.
Proof.
  unfold ImmutableMap.
  assert (Hgen : forall acc : list (A * V),
             NoDup (map fst (acc ++ entries)) ->
             fold_left (fun m entry => mapSet m (fst entry) (snd entry)) entries acc
             = acc ++ entries).
  { induction entries as [| [k v] entries IH]; intros acc Hnd; simpl;
      [rewrite app_nil_r; reflexivity |].
    rewrite mapSet_fresh.
    - rewrite IH; rewrite <- app_assoc; [reflexivity | exact Hnd].
    - rewrite map_app in Hnd. simpl in Hnd. apply NoDup_remove_2 in Hnd.
      intros Hin. apply Hnd. apply in_or_app. left. exact Hin. }
  intros Hnd. rewrite (Hgen []) by exact Hnd. reflexivity.
Qed.

Lemma ImmutableMap_keys (entries : list (A * V)) :
  NoDup (map fst entries) -> NoDup (map fst (ImmutableMap hashOrder entries)).
Proof.
  intros Hnd. rewrite ImmutableMap_distinct_keys by exact Hnd.
  apply (Permutation_NoDup (l := map fst entries)); [| exact Hnd].
  apply Permutation_map, Permutation_sym, (iterate_Permutation hashOrder Hrearranges).
Qed.

Lemma ImmutableMap_In (entries : list (A * V)) e :
  NoDup (map fst entries) -> In e entries -> In e (ImmutableMap hashOrder entries).
Proof.
  intros Hnd He. rewrite ImmutableMap_distinct_keys by exact Hnd.
  apply (iterate_In hashOrder Hrearranges). exact He.
Qed.

Lemma mapFilter_keys (predicate : A * V -> bool) (entries : list (A * V)) :
  NoDup (map fst entries) -> NoDup (map fst (mapFilter hashOrder predicate entries)).
Proof.
  intros Hnd. apply ImmutableMap_keys, NoDup_map_filter. exact Hnd.
Qed.

(** A filtered map keeps every entry that the predicate keeps. *)
Lemma mapFilter_keeps (predicate : A * V -> bool) (entries : list (A * V)) e :
  NoDup (map fst entries) -> In e entries -> predicate e = true ->
  In e (mapFilter hashOrder predicate entries).
Proof.
  intros Hnd He Hkept. apply ImmutableMap_In.
  - apply NoDup_map_filter. exact Hnd.
  - apply filter_In. split; assumption.
Qed.

End MapFacts.

Section FilterFacts.
Context {A : Type}.

Lemma filterIndexedFrom_nth_error (p : A -> nat -> bool) l :
  forall start n x,
    nth_error l n = Some x -> p x (start + n) = true ->
    In x (filterIndexedFrom p start l).
Proof.
  induction l as [| y l IH]; intros start [| n] x Hn Hp; simpl in *; try discriminate.
  - injection Hn as ->. rewrite Nat.add_0_r in Hp. rewrite Hp. left. reflexivity.
  - assert (Hin : In x (filterIndexedFrom p (S start) l)).
    { apply (IH (S start) n); [exact Hn |].
      replace (S start + n) with (start + S n) by lia. exact Hp. }
    destruct (p y start); [right |]; exact Hin.
Qed.

Lemma mapIndexedFrom_nth_error {B : Type} (f : A -> nat -> B) l :
  forall start n x,
    nth_error l n = Some x ->
    nth_error (mapIndexedFrom f start l) n = Some (f x (start + n)).
Proof.
  induction l as [| y l IH]; intros start [| n] x Hn; simpl in *; try discriminate.
  - injection Hn as ->. rewrite Nat.add_0_r. reflexivity.
  - rewrite (IH (S start) n x Hn). do 2 f_equal. lia.
Qed.

Lemma mapIndexedFrom_fst {B : Type} (g : A -> nat -> B) l start :
  map fst (mapIndexedFrom (fun x index => (x, g x index)) start l) = l.
Proof.
  revert start. induction l as [| y l IH]; intros start; simpl; [| rewrite IH]; reflexivity.
Qed.

Context `{EqDec A}.

Lemma fold_left_contains (l previous : list A) (start : bool) :
  fold_left (fun contained x => contained && contains previous x) l start = true <->
  start = true /\ incl l previous.
Proof.
  revert start. induction l as [| x l IH]; intros start; simpl.
  - split; [intros ->; split; [reflexivity | intros y []] | tauto].
  - rewrite IH, andb_true_iff, contains_In. split.
    + intros [[Hstart Hx] Hl]. split; [exact Hstart |].
      intros y [<- | Hy]; [exact Hx | apply Hl; exact Hy].
    + intros [Hstart Hl]. split; [split; [exact Hstart |] |].
      * apply Hl. left. reflexivity.
      * intros y Hy. apply Hl. right. exact Hy.
Qed.

End FilterFacts.

Section AlignmentSoundness.
Context {ColumnIndex RowIndex : Type}.
Context `{EqDec ColumnIndex} `{EqDec RowIndex}.
Variable this : CoordinateNavigator ColumnIndex RowIndex.
Variable hashOrder : MapOrder (Coordinate ColumnIndex RowIndex).
Hypothesis Hrearranges : rearranges hashOrder.

Lemma valid_candidate fuel coordinate reference maxDistance c :
  mapCandidateToPotentialAlignment this fuel coordinate reference = Done c ->
  (filterInvalidAlignmentCandidate maxDistance c = true <->
   findCoordinatesAlignmentDirection coordinate reference <> None
   /\ exists d, calculateDistance this fuel coordinate reference = Done (Right d)
                /\ d <= maxDistance).
Proof.
  intros Hc.
  destruct (mapCandidateToPotentialAlignment_Done _ _ _ _ _ Hc)
    as (_ & Halignment & result & Hresult & Hdistance).
  unfold filterInvalidAlignmentCandidate.
  rewrite Halignment, Hdistance, Hresult, !andb_true_iff.
  destruct (findCoordinatesAlignmentDirection coordinate reference) as [direction |];
    destruct result as [failure | d]; simpl; rewrite ?Nat.leb_le; split.
  - intros [[_ Hfalse] _]. discriminate.
  - intros [_ (d & Hd & _)]. discriminate.
  - intros [_ Hle]. split; [discriminate | eauto].
  - intros [_ (d' & [= <-] & Hle)]. auto.
  - intros [[Hfalse _] _]. discriminate.
  - intros [Hfalse _]. contradiction.
  - intros [[Hfalse _] _]. discriminate.
  - intros [Hfalse _]. contradiction.
Qed.

(** X9: what [findAlignments] returns is sound, in whatever order
    the maps of more than eight entries iterate: the members of an
    alignment are coordinates of the input, and one member, the
    reference, is aligned in the direction of the alignment with every
    other member, at a distance of at most [maxDistance]. *)
Theorem findAlignments_sound :
  forall (fuel : nat) (input : list (Coordinate ColumnIndex RowIndex))
         (maxDistance : ShipSize)
         (alignments : list (CoordinateAlignment ColumnIndex RowIndex))
         (alignment : CoordinateAlignment ColumnIndex RowIndex),
    findAlignments this hashOrder fuel input maxDistance = Done alignments ->
    In alignment alignments ->
    exists reference,
      In reference (coordinates alignment)
      /\ forall c,
          In c (coordinates alignment) ->
          In c input
          /\ (c = reference
              \/ (findCoordinatesAlignmentDirection c reference
                  = Some (direction alignment)
                  /\ exists d,
                      calculateDistance this fuel c reference = Done (Right d)
                      /\ d <= maxDistance)).
Proof.
  intros fuel input maxDistance alignments alignment Hfound Hin.
  pose proof (findAlignments_members this hashOrder Hrearranges _ _ _ _ _ Hfound Hin) as Hmembers.
  destruct (findAlignments_inv this hashOrder Hrearranges _ _ _ _ _ Hfound Hin)
    as (_ & k & reference & potentialAlignments & Hk & HF & Hgroup).
  exists reference. split.
  - rewrite Hgroup. simpl. apply sort_In, in_or_app. right. left. reflexivity.
  - intros c Hc. split; [apply Hmembers; exact Hc |].
    rewrite Hgroup in Hc. simpl in Hc. apply sort_In, in_app_or in Hc.
    destruct Hc as [Hc | [<- | []]]; [right | left; reflexivity].
    apply in_map_iff in Hc. destruct Hc as (p & <- & Hp).
    apply filter_In in Hp. destruct Hp as [Hp Hdirection].
    apply filter_In in Hp. destruct Hp as [Hp Hvalid].
    apply identical_true_iff in Hdirection.
    destruct (Forall2_In_r _ _ _ _ HF Hp) as (coordinate & _ & Hmap).
    apply (valid_candidate _ _ _ maxDistance _ Hmap) in Hvalid.
    destruct (mapCandidateToPotentialAlignment_Done _ _ _ _ _ Hmap) as (-> & Halignment & _).
    split; [congruence | apply Hvalid].
Qed.

End AlignmentSoundness.

Section RedundancyFacts.
Context {ColumnIndex RowIndex : Type}.
Context `{EqDec ColumnIndex} `{EqDec RowIndex}.

(** The redundancy filter loses no coordinates: an alignment that is
    dropped is contained in an alignment that is kept. *)
Lemma filterRedundantAlignments_covers
      (alignments : list (CoordinateAlignment ColumnIndex RowIndex)) :
  forall n alignment,
    nth_error alignments n = Some alignment ->
    exists kept,
      In kept (filterIndexedFrom
                 (fun alignment index => filterRedundantAlignments alignment index alignments)
                 0 alignments)
      /\ incl (coordinates alignment) (coordinates kept).
Proof.
  induction n as [| n IH]; intros alignment Hn.
  - exists alignment. split; [| apply incl_refl].
    eapply filterIndexedFrom_nth_error; [exact Hn | reflexivity].
  - destruct (filterRedundantAlignments alignment (S n) alignments) eqn:Hkept.
    + exists alignment. split; [| apply incl_refl].
      eapply filterIndexedFrom_nth_error; [exact Hn | exact Hkept].
    + simpl in Hkept.
      destruct (nth_error alignments n) as [previous |] eqn:Hprevious; [| discriminate].
      apply negb_false_iff, fold_left_contains in Hkept. destruct Hkept as [_ Hincl].
      destruct (IH previous eq_refl) as (kept & Hin & Hincl').
      exists kept. split; [exact Hin |].
      intros c Hc. apply Hincl', Hincl. exact Hc.
Qed.

End RedundancyFacts.

Lemma two_members_length {A : Type} (l : list A) (x y : A) :
  In x l -> In y l -> x <> y -> 1 < length l.
Proof.
  destruct l as [| z [| z' l]]; simpl; intros Hx Hy Hneq; try contradiction; [| lia].
  destruct Hx as [<- | []], Hy as [<- | []]. contradiction.
Qed.

Section AlignmentCompleteness.
Context {ColumnIndex RowIndex : Type}.
Context `{EqDec ColumnIndex} `{EqDec RowIndex}.
Variable this : CoordinateNavigator ColumnIndex RowIndex.
Variable columns : list ColumnIndex.
Variable rows : list RowIndex.
Hypothesis Hgrid : WellFormedGrid this columns rows.
Variable hashOrder : MapOrder (Coordinate ColumnIndex RowIndex).
Hypothesis Hrearranges : rearranges hashOrder.

Lemma findAlignments_keeps_pair fuel input maxDistance alignments a b i j :
  (forall c, In c input -> onGrid columns rows c) ->
  NoDup input ->
  length columns + length rows <= fuel ->
  findAlignments this hashOrder fuel input maxDistance = Done alignments ->
  nth_error (sort (createCoordinatesSorter this) input) i = Some a ->
  nth_error (sort (createCoordinatesSorter this) input) j = Some b ->
  i < j ->
  columnIndex a = columnIndex b \/ rowIndex a = rowIndex b ->
  (place columns (columnIndex a) - place columns (columnIndex b))
  + (place columns (columnIndex b) - place columns (columnIndex a))
  + ((place rows (rowIndex a) - place rows (rowIndex b))
     + (place rows (rowIndex b) - place rows (rowIndex a))) <= maxDistance ->
  exists alignment,
    In alignment alignments
    /\ In a (coordinates alignment) /\ In b (coordinates alignment).
Proof.
  intros Hinput Hnd Hfuel Hfound Hi Hj Hij Haligned Hdistance.
  unfold findAlignments in Hfound.
  set (sorted := sort (createCoordinatesSorter this) input) in *.
  assert (Hsorted : NoDup sorted) by (apply sort_NoDup; exact Hnd).
  assert (Hon : forall c, In c sorted -> onGrid columns rows c).
  { intros c Hc. apply Hinput. apply sort_In in Hc. exact Hc. }
  set (entries := mapIndexedFrom _ 0 sorted) in *.
  assert (Hkeys : NoDup (map fst entries)).
  { unfold entries.
    rewrite (mapIndexedFrom_fst (fun _ index => skipn (index + 1) sorted)). exact Hsorted. }
  set (candidatesMap := ImmutableMap hashOrder entries) in *.
  pose proof (ImmutableMap_keys hashOrder Hrearranges entries Hkeys) as Hmapkeys.
  fold candidatesMap in Hmapkeys.
  set (withCandidates := mapFilter hashOrder _ candidatesMap) in *.
  destruct (mapM _ withCandidates) as [validCandidates | |] eqn:Hvalid;
    simpl in Hfound; try discriminate.
  injection Hfound as <-.
  apply mapM_Done_inv in Hvalid.
  assert (Hb : In b (skipn (S i) sorted)).
  { apply (nth_error_In _ (j - S i)). rewrite nth_error_skipn.
    replace (S i + (j - S i)) with j by lia. exact Hj. }
  assert (Hneq : a <> b).
  { intros ->. pose proof (proj1 (NoDup_nth_error sorted) Hsorted i j) as Hunique.
    assert (i < length sorted) by (apply nth_error_Some; congruence).
    rewrite Hi, Hj in Hunique. specialize (Hunique ltac:(assumption) eq_refl). lia. }
  assert (Hentry : In (a, skipn (S i) sorted) withCandidates).
  { apply (mapFilter_keeps hashOrder Hrearranges); [exact Hmapkeys | |].
    - apply (ImmutableMap_In hashOrder Hrearranges); [exact Hkeys |].
      apply (nth_error_In _ i). unfold entries.
      rewrite (mapIndexedFrom_nth_error _ _ 0 i a Hi). simpl.
      replace (i + 1) with (S i) by lia. reflexivity.
    - cbn [snd]. apply Nat.ltb_lt.
      destruct (skipn (S i) sorted); [contradiction | simpl; lia]. }
  assert (Hvalidkeys : NoDup (map fst validCandidates)).
  { replace (map fst validCandidates) with (map fst withCandidates).
    - apply (mapFilter_keys hashOrder Hrearranges). exact Hmapkeys.
    - clear - Hvalid. induction Hvalid as [| entry out l r Hout _ IH]; [reflexivity |].
      simpl. rewrite IH. f_equal.
      match type of Hout with
      | bind ?m _ = _ => destruct m; simpl in Hout; try discriminate
      end.
      injection Hout as <-. reflexivity. }
  destruct (Forall2_In_l _ _ _ _ Hvalid Hentry) as (entry & Hentry' & Hdone).
  cbn [fst snd] in Hdone.
  match type of Hdone with
  | bind ?m _ = _ => destruct m as [potentialAlignments | |] eqn:Hpotential
  end; simpl in Hdone; try discriminate.
  injection Hdone as <-.
  apply mapM_Done_inv in Hpotential.
  destruct (Forall2_In_l _ _ _ _ Hpotential Hb) as (p & Hp & Hmap).
  destruct (mapCandidateToPotentialAlignment_Done _ _ _ _ _ Hmap)
    as (Hcandidate & Halignment & _).
  assert (Hdirection : exists direction,
             findCoordinatesAlignmentDirection b a = Some direction).
  { unfold findCoordinatesAlignmentDirection.
    destruct (eq_dec (columnIndex b) (columnIndex a)); [eauto |].
    destruct (eq_dec (rowIndex b) (rowIndex a)); [eauto |].
    destruct Haligned; congruence. }
  destruct Hdirection as [direction Hdirection].
  assert (Hvalidp : filterInvalidAlignmentCandidate maxDistance p = true).
  { apply (valid_candidate this _ _ _ maxDistance _ Hmap). split; [congruence |].
    eexists. split.
    - apply (calculateDistance_places this columns rows Hgrid fuel b a);
        [apply Hon; eapply nth_error_In; exact Hj
        | apply Hon; eapply nth_error_In; exact Hi
        | destruct Haligned; [left | right]; congruence
        | exact Hfuel].
    - lia. }
  set (valid := filter (filterInvalidAlignmentCandidate maxDistance) potentialAlignments)
    in *.
  assert (Hpvalid : In p valid) by (apply filter_In; split; assumption).
  set (group := groupCandidatesFromDirection this direction valid a).
  assert (Ha_group : In a (coordinates group)).
  { simpl. apply sort_In, in_or_app. right. left. reflexivity. }
  assert (Hb_group : In b (coordinates group)).
  { simpl. apply sort_In, in_or_app. left. apply in_map_iff.
    exists p. split; [exact Hcandidate |]. apply filter_In. split; [exact Hpvalid |].
    apply identical_true_iff. congruence. }
  match goal with
  | |- exists alignment,
        In alignment (filterIndexedFrom _ 0 ?l) /\ _ =>
      assert (Hgroup : In group l)
  end.
  { apply filter_In. split.
    - apply in_concat.
      exists [groupCandidatesFromDirection this HORIZONTAL valid a;
              groupCandidatesFromDirection this VERTICAL valid a].
      split.
      + apply in_map_iff. exists (a, valid). split; [reflexivity |].
        apply (mapFilter_keeps hashOrder Hrearranges); [exact Hvalidkeys | exact Hentry' |].
        simpl. apply Nat.ltb_lt. destruct valid; [contradiction | simpl; lia].
      + unfold group. destruct direction; simpl; auto.
    - apply Nat.ltb_lt. exact (two_members_length _ a b Ha_group Hb_group Hneq). }
  apply In_nth_error in Hgroup. destruct Hgroup as [n Hn].
  destruct (filterRedundantAlignments_covers _ n group Hn) as (kept & Hkept & Hincl).
  exists kept. split; [exact Hkept | split; apply Hincl; assumption].
Qed.

(** X10: [findAlignments] loses no aligned pair, in whatever order
    the maps of more than eight entries iterate: on a well-formed
    grid, two different coordinates of an input without repetition
    whose distance is at most [maxDistance] are members of one
    returned alignment. *)
Theorem findAlignments_complete :
  forall (fuel : nat) (input : list (Coordinate ColumnIndex RowIndex))
         (maxDistance : ShipSize) (a b : Coordinate ColumnIndex RowIndex) (d : nat),
    (forall c, In c input -> onGrid columns rows c) ->
    NoDup input ->
    length columns + length rows <= fuel ->
    In a input -> In b input -> a <> b ->
    calculateDistance this fuel a b = Done (Right d) ->
    d <= maxDistance ->
    exists alignments,
      findAlignments this hashOrder fuel input maxDistance = Done alignments
      /\ exists alignment,
          In alignment alignments
          /\ In a (coordinates alignment) /\ In b (coordinates alignment).
Proof.
  intros fuel input maxDistance a b d Hinput Hnd Hfuel Ha Hb Hneq Hdistance Hle.
  destruct (findAlignments_Done this columns rows Hgrid hashOrder Hrearranges
              fuel input maxDistance Hinput Hfuel)
    as [alignments Hfound].
  exists alignments. split; [exact Hfound |].
  assert (Haligned : columnIndex a = columnIndex b \/ rowIndex a = rowIndex b).
  { destruct (eq_dec (columnIndex a) (columnIndex b)) as [Hc | Hc]; [auto |].
    destruct (eq_dec (rowIndex a) (rowIndex b)) as [Hr | Hr]; [auto |].
    destruct (calculateDistance_not_aligned_on_grid this columns rows Hgrid fuel a b
                (Hinput a Ha) (Hinput b Hb) Hc Hr) as [failure Hfailure].
    - pose proof (place_lt columns _ (proj1 (Hinput a Ha))).
      pose proof (place_lt rows _ (proj2 (Hinput a Ha))). lia.
    - rewrite Hfailure in Hdistance. discriminate. }
  rewrite (calculateDistance_places this columns rows Hgrid fuel a b
             (Hinput a Ha) (Hinput b Hb) Haligned Hfuel) in Hdistance.
  injection Hdistance as Hd.
  pose proof (proj2 (sort_In (createCoordinatesSorter this) input a) Ha) as Hi.
  pose proof (proj2 (sort_In (createCoordinatesSorter this) input b) Hb) as Hj.
  apply In_nth_error in Hi, Hj. destruct Hi as [i Hi], Hj as [j Hj].
  destruct (Nat.lt_total i j) as [Hlt | [Heq | Hgt]].
  - apply (findAlignments_keeps_pair fuel input maxDistance alignments a b i j);
      try assumption. lia.
  - subst j. rewrite Hi in Hj. injection Hj as Heq. contradiction.
  - destruct (findAlignments_keeps_pair fuel input maxDistance alignments b a j i)
      as (alignment & Hin & Hb' & Ha'); try assumption;
      [destruct Haligned; [left | right]; congruence | lia |].
    exists alignment. tauto.
Qed.

End AlignmentCompleteness.

(** ** Further properties of the gaps and of the extremums *)

Section IndexExtremumFacts.
Context {Index : Type} `{EqDec Index}.
Variables (previous next : AdjacentIndexFinder Index) (sorter : IndexSorter Index).
Variable axis : list Index.
Hypothesis Haxis : WellFormedAxis previous next sorter axis.

Lemma strictlyInside_ext (l l' : list Index) i :
  (forall x, In x l <-> In x l') -> strictlyInside axis l i -> strictlyInside axis l' i.
Proof.
  intros Hext (Hi & first & last & Hfirst & Hlast & Hlow & Hhigh).
  split; [exact Hi |]. exists first, last. rewrite <- !Hext. tauto.
Qed.

Lemma extremumOf_ext (l l' : list Index) i :
  (forall x, In x l <-> In x l') ->
  extremumOf axis previous next l i -> extremumOf axis previous next l' i.
Proof.
  intros Hext (member & Hmember & Hcase).
  exists member. split; [apply Hext; exact Hmember |].
  destruct Hcase as [[Hmin Hstep] | [Hmax Hstep]]; [left | right];
    (split; [| exact Hstep]); intros x Hx; [apply Hmin | apply Hmax]; apply Hext; exact Hx.
Qed.

Lemma findIndexExtremums_sorted xs i :
  (forall x, In x xs -> In x axis) ->
  StronglySorted (keyLe (place axis)) xs ->
  In i (findIndexExtremums (toOrderedSet xs) previous next)
  <-> extremumOf axis previous next xs i.
Proof.
  intros Hon Hsorted.
  pose proof (toOrderedSet_sorted _ xs Hsorted) as Hset.
  unfold findIndexExtremums.
  destruct (toOrderedSet xs) as [| first rest] eqn:Hxs.
  - split; [contradiction |].
    intros (member & Hmember & _). apply toOrderedSet_In in Hmember.
    rewrite Hxs in Hmember. contradiction.
  - set (last := List.last (first :: rest) first).
    assert (Hfirst : In first xs) by (apply toOrderedSet_In; rewrite Hxs; left; reflexivity).
    assert (Hlast : In last xs) by (apply toOrderedSet_In; rewrite Hxs; apply last_In).
    assert (Hmin : forall x, In x xs -> place axis first <= place axis x).
    { intros x Hx. apply (StronglySorted_first _ first rest x Hset).
      rewrite <- Hxs. apply toOrderedSet_In. exact Hx. }
    assert (Hmax : forall x, In x xs -> place axis x <= place axis last).
    { intros x Hx. apply (StronglySorted_last _ (first :: rest) first Hset).
      rewrite <- Hxs. apply toOrderedSet_In. exact Hx. }
    rewrite filterDefined_In. simpl. split.
    + intros [Hstep | [Hstep | []]].
      * exists first. split; [exact Hfirst | left; split; assumption].
      * exists last. split; [exact Hlast | right; split; assumption].
    + intros (member & Hmember & [[Hmin' Hstep] | [Hmax' Hstep]]).
      * left. rewrite <- Hstep. f_equal.
        apply (place_injective axis); [apply Hon; exact Hfirst | apply Hon; exact Hmember |].
        pose proof (Hmin member Hmember). pose proof (Hmin' first Hfirst). lia.
      * right. left. rewrite <- Hstep. f_equal.
        apply (place_injective axis); [apply Hon; exact Hlast | apply Hon; exact Hmember |].
        pose proof (Hmax member Hmember). pose proof (Hmax' last Hlast). lia.
Qed.

(** An extremum is an index of the axis that is no index of the list. *)
Lemma extremumOf_outside xs i :
  (forall x, In x xs -> In x axis) ->
  extremumOf axis previous next xs i -> In i axis /\ ~ In i xs.
Proof.
  intros Hon (member & Hmember & Hcase).
  pose proof (axis_NoDup _ _ _ _ Haxis) as Hnd.
  pose proof (place_nth_error axis member (Hon _ Hmember)) as Hplace.
  destruct Hcase as [[Hmin Hstep] | [Hmax Hstep]].
  - destruct (axis_previous_position _ _ _ _ Haxis _ _ _ Hplace Hstep) as [Hi Hpos].
    split; [eapply nth_error_In; exact Hi |].
    intros Hin. pose proof (Hmin i Hin) as Hle.
    rewrite (nth_error_place axis Hnd _ _ Hi) in Hle. lia.
  - rewrite (axis_next _ _ _ _ Haxis _ _ Hplace) in Hstep.
    split; [eapply nth_error_In; exact Hstep |].
    intros Hin. pose proof (Hmax i Hin) as Hle.
    rewrite (nth_error_place axis Hnd _ _ Hstep) in Hle. lia.
Qed.

End IndexExtremumFacts.

Lemma findIndexExtremums_length {Index : Type} (l : list Index)
      (previous next : Index -> option Index) :
  length (findIndexExtremums l previous next) <= 2.
Proof.
  unfold findIndexExtremums. destruct l as [| first rest]; [simpl; lia |].
  destruct (previous first), (next (last (first :: rest) first)); cbn; lia.
Qed.

Section GapExtremumTheorems.
Context {ColumnIndex RowIndex : Type}.
Context `{EqDec ColumnIndex} `{EqDec RowIndex}.
Variable this : CoordinateNavigator ColumnIndex RowIndex.
Variable columns : list ColumnIndex.
Variable rows : list RowIndex.
Hypothesis Hgrid : WellFormedGrid this columns rows.

(** The columns of the sorted coordinates of one row. *)
Lemma row_projection (l : list (Coordinate ColumnIndex RowIndex)) row :
  (forall c, In c l -> onGrid columns rows c /\ rowIndex c = row) ->
  (forall x, In x (map (@columnIndex _ _) (sort (createCoordinatesSorter this) l)) ->
             In x columns)
  /\ StronglySorted (keyLe (place columns))
                    (map (@columnIndex _ _) (sort (createCoordinatesSorter this) l))
  /\ forall x, In x (map (@columnIndex _ _) (sort (createCoordinatesSorter this) l))
               <-> In x (map (@columnIndex _ _) l).
Proof.
  intros Hl.
  assert (Hmembers : forall x,
             In x (map (@columnIndex _ _) (sort (createCoordinatesSorter this) l))
             <-> In x (map (@columnIndex _ _) l)).
  { intros x. rewrite !in_map_iff. split; intros (c & Hc & Hin); exists c;
      (split; [exact Hc |]); apply sort_In in Hin || apply sort_In; exact Hin. }
  split; [| split; [| exact Hmembers]].
  - intros x Hx. apply Hmembers, in_map_iff in Hx. destruct Hx as (c & <- & Hc).
    apply (Hl c Hc).
  - apply (projected_sorted columns (createCoordinatesSorter this) (@columnIndex _ _)
             (fun c => onGrid columns rows c /\ rowIndex c = row)); [| exact Hl].
    intros a b [Ha Hrowa] [Hb Hrowb].
    rewrite (createCoordinatesSorter_place this columns rows Hgrid a b Ha Hb), Hrowa, Hrowb.
    lia.
Qed.

(** The rows of the sorted coordinates of one column. *)
Lemma column_projection (l : list (Coordinate ColumnIndex RowIndex)) column :
  (forall c, In c l -> onGrid columns rows c /\ columnIndex c = column) ->
  (forall x, In x (map (@rowIndex _ _) (sort (createCoordinatesSorter this) l)) ->
             In x rows)
  /\ StronglySorted (keyLe (place rows))
                    (map (@rowIndex _ _) (sort (createCoordinatesSorter this) l))
  /\ forall x, In x (map (@rowIndex _ _) (sort (createCoordinatesSorter this) l))
               <-> In x (map (@rowIndex _ _) l).
Proof.
  intros Hl.
  assert (Hmembers : forall x,
             In x (map (@rowIndex _ _) (sort (createCoordinatesSorter this) l))
             <-> In x (map (@rowIndex _ _) l)).
  { intros x. rewrite !in_map_iff. split; intros (c & Hc & Hin); exists c;
      (split; [exact Hc |]); apply sort_In in Hin || apply sort_In; exact Hin. }
  split; [| split; [| exact Hmembers]].
  - intros x Hx. apply Hmembers, in_map_iff in Hx. destruct Hx as (c & <- & Hc).
    apply (Hl c Hc).
  - apply (projected_sorted rows (createCoordinatesSorter this) (@rowIndex _ _)
             (fun c => onGrid columns rows c /\ columnIndex c = column)); [| exact Hl].
    intros a b [Ha Hcolumna] [Hb Hcolumnb].
    rewrite (createCoordinatesSorter_place this columns rows Hgrid a b Ha Hb),
      Hcolumna, Hcolumnb.
    lia.
Qed.

Lemma shared_row (l : list (Coordinate ColumnIndex RowIndex)) first row :
  (forall c, In c (first :: l) -> rowIndex c = row) ->
  forall c, In c (first :: l) -> rowIndex c = rowIndex first.
Proof.
  intros Hrow c Hc. rewrite (Hrow c Hc), (Hrow first (or_introl eq_refl)). reflexivity.
Qed.

Lemma shared_column (l : list (Coordinate ColumnIndex RowIndex)) first column :
  (forall c, In c (first :: l) -> columnIndex c = column) ->
  forall c, In c (first :: l) -> columnIndex c = columnIndex first.
Proof.
  intros Hcolumn c Hc.
  rewrite (Hcolumn c Hc), (Hcolumn first (or_introl eq_refl)). reflexivity.
Qed.

(** X11: the gaps of an alignment of a well-formed grid are exactly the
    cells of its line that lie strictly between two of its members and
    are no members. *)
Theorem findAlignmentGaps_exact :
  forall (alignment : CoordinateAlignment ColumnIndex RowIndex) (fuel : nat),
    (forall c, In c (coordinates alignment) -> onGrid columns rows c) ->
    sharesAxis alignment ->
    length columns + length rows <= fuel ->
    exists gaps,
      findAlignmentGaps this fuel alignment = Done gaps
      /\ forall g,
          In g gaps <->
          ~ In g (coordinates alignment) /\ insideAlignment columns rows alignment g.
Proof.
  intros [dir cs] fuel. unfold sharesAxis, insideAlignment. simpl.
  intros Hon Hshared Hfuel. destruct Hgrid as [Hcolumns Hrows].
  destruct cs as [| first [| second rest]].
  - exists []. split; [reflexivity |]. intros g. split; [contradiction |].
    intros [_ Hinside]. destruct dir; destruct Hinside as [(member & [] & _) _].
  - exists []. split; [reflexivity |]. intros g. split; [contradiction |].
    intros [_ Hinside].
    destruct dir; destruct Hinside as [_ (_ & x & y & Hx & Hy & Hlow & Hhigh)];
      simpl in Hx, Hy; destruct Hx as [<- | []], Hy as [<- | []]; lia.
  - set (cs := first :: second :: rest) in *.
    destruct dir.
    + destruct Hshared as [row Hrow].
      pose proof (shared_row _ _ _ Hrow) as Hfirst.
      destruct (row_projection cs (rowIndex first)) as (Haxis & Hsorted & Hmembers).
      { intros c Hc. split; [apply Hon; exact Hc | apply Hfirst; exact Hc]. }
      destruct (findIndexGaps_sorted _ _ _ _ Hcolumns _ fuel Haxis Hsorted)
        as (gaps & Hgaps & Hspec); [lia |].
      eexists. split.
      { unfold cs. rewrite findAlignmentGaps_HORIZONTAL. fold cs. rewrite Hgaps.
        reflexivity. }
      intros g. rewrite in_map_iff. split.
      * intros (i & <- & Hi). apply Hspec in Hi. destruct Hi as [Hnotin Hinside].
        split; [| split].
        -- intros Hin. apply Hnotin, Hmembers, in_map_iff. exists (mkCoordinate i (rowIndex first)).
           split; [reflexivity | exact Hin].
        -- exists first. split; [left; reflexivity | reflexivity].
        -- simpl. exact (strictlyInside_ext columns _ _ i Hmembers Hinside).
      * intros [Hnotin [(member & Hmember & Hgrow) Hinside]].
        exists (columnIndex g). split.
        -- destruct g as [gc gr]. simpl in *. rewrite Hgrow, (Hfirst member Hmember).
           reflexivity.
        -- apply Hspec. split.
           ++ intros Hin. apply Hmembers, in_map_iff in Hin.
              destruct Hin as (c & Hcolumn & Hc). apply Hnotin.
              replace g with c; [exact Hc |].
              destruct g as [gc gr], c as [cc cr]. simpl in *.
              pose proof (Hfirst _ Hc) as Hcrow. pose proof (Hfirst _ Hmember) as Hmrow.
              simpl in Hcrow. congruence.
           ++ apply (strictlyInside_ext columns (map (@columnIndex _ _) cs));
                [intros x; symmetry; apply Hmembers | exact Hinside].
    + destruct Hshared as [column Hcolumn].
      pose proof (shared_column _ _ _ Hcolumn) as Hfirst.
      destruct (column_projection cs (columnIndex first)) as (Haxis & Hsorted & Hmembers).
      { intros c Hc. split; [apply Hon; exact Hc | apply Hfirst; exact Hc]. }
      destruct (findIndexGaps_sorted _ _ _ _ Hrows _ fuel Haxis Hsorted)
        as (gaps & Hgaps & Hspec); [lia |].
      eexists. split.
      { unfold cs. rewrite findAlignmentGaps_VERTICAL. fold cs. rewrite Hgaps.
        reflexivity. }
      intros g. rewrite in_map_iff. split.
      * intros (i & <- & Hi). apply Hspec in Hi. destruct Hi as [Hnotin Hinside].
        split; [| split].
        -- intros Hin. apply Hnotin, Hmembers, in_map_iff.
           exists (mkCoordinate (columnIndex first) i).
           split; [reflexivity | exact Hin].
        -- exists first. split; [left; reflexivity | reflexivity].
        -- simpl. exact (strictlyInside_ext rows _ _ i Hmembers Hinside).
      * intros [Hnotin [(member & Hmember & Hgcolumn) Hinside]].
        exists (rowIndex g). split.
        -- destruct g as [gc gr]. simpl in *. rewrite Hgcolumn, (Hfirst member Hmember).
           reflexivity.
        -- apply Hspec. split.
           ++ intros Hin. apply Hmembers, in_map_iff in Hin.
              destruct Hin as (c & Hrow & Hc). apply Hnotin.
              replace g with c; [exact Hc |].
              destruct g as [gc gr], c as [cc cr]. simpl in *.
              pose proof (Hfirst _ Hc) as Hccolumn. pose proof (Hfirst _ Hmember) as Hmcolumn.
              simpl in Hccolumn. congruence.
           ++ apply (strictlyInside_ext rows (map (@rowIndex _ _) cs));
                [intros x; symmetry; apply Hmembers | exact Hinside].
Qed.

(** X12: the extremums of an alignment of a well-formed grid are exactly
    the cells of its line one step before its first member and one
    step after its last member; they are cells of the grid and no
    members, and there are at most two. *)
Theorem findNextExtremums_exact :
  forall alignment : CoordinateAlignment ColumnIndex RowIndex,
    (forall c, In c (coordinates alignment) -> onGrid columns rows c) ->
    sharesAxis alignment ->
    (forall e,
        In e (findNextExtremums this alignment) <->
        besideAlignment this columns rows alignment e)
    /\ (forall e,
           In e (findNextExtremums this alignment) ->
           onGrid columns rows e /\ ~ In e (coordinates alignment))
    /\ length (findNextExtremums this alignment) <= 2.
Proof.
  intros [dir cs]. unfold sharesAxis, besideAlignment. simpl.
  intros Hon Hshared. destruct Hgrid as [Hcolumns Hrows].
  assert (Hlength : length (findNextExtremums this (mkAlignment dir cs)) <= 2).
  { unfold findNextExtremums. simpl.
    destruct cs as [| first rest]; [simpl; lia |].
    destruct dir; rewrite length_map; apply findIndexExtremums_length. }
  assert (Hexact : forall e,
             In e (findNextExtremums this (mkAlignment dir cs)) <->
             match dir with
             | HORIZONTAL =>
                 (exists member, In member cs /\ rowIndex e = rowIndex member)
                 /\ extremumOf columns (findPreviousColumnIndex this)
                               (findNextColumnIndex this)
                               (map (@columnIndex _ _) cs) (columnIndex e)
             | VERTICAL =>
                 (exists member, In member cs /\ columnIndex e = columnIndex member)
                 /\ extremumOf rows (findPreviousRowIndex this) (findNextRowIndex this)
                               (map (@rowIndex _ _) cs) (rowIndex e)
             end).
  { intros e. unfold findNextExtremums. simpl.
    destruct cs as [| first rest].
    - split; [contradiction |]. destruct dir; intros [(member & [] & _) _].
    - set (cs := first :: rest) in *. destruct dir.
      + destruct Hshared as [row Hrow].
        pose proof (shared_row _ _ _ Hrow) as Hfirst.
        destruct (row_projection cs (rowIndex first)) as (Haxis & Hsorted & Hmembers).
        { intros c Hc. split; [apply Hon; exact Hc | apply Hfirst; exact Hc]. }
        rewrite in_map_iff. split.
        * intros (i & <- & Hi).
          apply (findIndexExtremums_sorted _ _ columns _ i Haxis Hsorted) in Hi.
          split; [exists first; split; [left; reflexivity | reflexivity] |].
          simpl. exact (extremumOf_ext _ _ columns _ _ i Hmembers Hi).
        * intros [(member & Hmember & Herow) Hbeside].
          exists (columnIndex e). split.
          -- destruct e as [ec er]. simpl in *. rewrite Herow, (Hfirst member Hmember).
             reflexivity.
          -- apply (findIndexExtremums_sorted _ _ columns _ _ Haxis Hsorted).
             apply (extremumOf_ext _ _ columns (map (@columnIndex _ _) cs));
               [intros x; symmetry; apply Hmembers | exact Hbeside].
      + destruct Hshared as [column Hcolumn].
        pose proof (shared_column _ _ _ Hcolumn) as Hfirst.
        destruct (column_projection cs (columnIndex first)) as (Haxis & Hsorted & Hmembers).
        { intros c Hc. split; [apply Hon; exact Hc | apply Hfirst; exact Hc]. }
        rewrite in_map_iff. split.
        * intros (i & <- & Hi).
          apply (findIndexExtremums_sorted _ _ rows _ i Haxis Hsorted) in Hi.
          split; [exists first; split; [left; reflexivity | reflexivity] |].
          simpl. exact (extremumOf_ext _ _ rows _ _ i Hmembers Hi).
        * intros [(member & Hmember & Hecolumn) Hbeside].
          exists (rowIndex e). split.
          -- destruct e as [ec er]. simpl in *. rewrite Hecolumn, (Hfirst member Hmember).
             reflexivity.
          -- apply (findIndexExtremums_sorted _ _ rows _ _ Haxis Hsorted).
             apply (extremumOf_ext _ _ rows (map (@rowIndex _ _) cs));
               [intros x; symmetry; apply Hmembers | exact Hbeside]. }
  split; [exact Hexact | split; [| exact Hlength]].
  intros e He. apply Hexact in He.
  destruct dir; destruct He as [(member & Hmember & Hline) Hbeside].
  - destruct (extremumOf_outside _ _ _ columns Hcolumns _ _
                (fun x Hx => ltac:(apply in_map_iff in Hx; destruct Hx as (c & <- & Hc);
                                   apply (Hon c Hc))) Hbeside) as [Hin Hnotin].
    split.
    + split; [exact Hin | rewrite Hline; apply (Hon member Hmember)].
    + intros Hmem. apply Hnotin. apply in_map. exact Hmem.
  - destruct (extremumOf_outside _ _ _ rows Hrows _ _
                (fun x Hx => ltac:(apply in_map_iff in Hx; destruct Hx as (c & <- & Hc);
                                   apply (Hon c Hc))) Hbeside) as [Hin Hnotin].
    split.
    + split; [rewrite Hline; apply (Hon member Hmember) | exact Hin].
    + intros Hmem. apply Hnotin. apply in_map. exact Hmem.
Qed.

End GapExtremumTheorems.

(** ** The cursor on the row indices *)

Section CursorFacts.
Context {Index : Type} `{EqDec Index}.

Lemma newLoopableIndices_Done (l : list Index) initial self :
  newLoopableIndices l initial = Done self ->
  self = mkLoopableIndices l initial None
  /\ exists k, keyOf l initial = Some k /\ k < length l /\ nth k l initial = initial.
Proof.
  unfold newLoopableIndices. destruct (contains l initial) eqn:Hcontains; [| discriminate].
  intros [= <-]. split; [reflexivity |].
  apply contains_In in Hcontains. destruct (keyOf_In _ _ Hcontains) as [k Hk].
  exists k. split; [exact Hk |]. apply keyOf_Some in Hk. split.
  - apply nth_error_Some. rewrite Hk. discriminate.
  - apply nth_error_nth. exact Hk.
Qed.

(** Once started, the cursor moves one place further at every call
    and goes back to place 0 after the last place. *)
Lemma nthNextIndex_from (l : list Index) initial n :
  forall j,
    j < length l ->
    nthNextIndex (mkLoopableIndices l initial (Some j)) n
    = nth ((j + 1 + n) mod length l) l initial.
Proof.
  induction n as [| n IH]; intros j Hj.
  - cbn [nthNextIndex getNextIndex nextIndexIndex indices initialIndex fst].
    rewrite Nat.add_0_r.
    destruct (S j <? length l) eqn:Hlt.
    + apply Nat.ltb_lt in Hlt. rewrite Nat.mod_small by lia. f_equal. lia.
    + apply Nat.ltb_ge in Hlt. replace (j + 1) with (length l) by lia.
      rewrite Nat.Div0.mod_same. reflexivity.
  - cbn [nthNextIndex getNextIndex nextIndexIndex indices initialIndex snd].
    rewrite IH.
    + f_equal. destruct (S j <? length l) eqn:Hlt.
      * f_equal. lia.
      * apply Nat.ltb_ge in Hlt.
        replace (j + 1 + S n) with (length l + (0 + 1 + n)) by lia.
        rewrite <- (Nat.Div0.add_mod_idemp_l (length l)), Nat.Div0.mod_same.
        reflexivity.
    + destruct (S j <? length l) eqn:Hlt; [apply Nat.ltb_lt in Hlt |]; lia.
Qed.

(** X13: a new cursor returns its initial index at the first call and then
    walks the indices in their order, from the first place of the
    initial index, going back to the first index after the last
    one. *)
Theorem getNextIndex_cycles :
  forall (l : list Index) (initial : Index) (self : LoopableIndices Index),
    newLoopableIndices l initial = Done self ->
    exists k,
      keyOf l initial = Some k
      /\ forall n, nthNextIndex self n = nth ((k + n) mod length l) l initial.
Proof.
  intros l initial self Hnew.
  destruct (newLoopableIndices_Done _ _ _ Hnew) as (-> & k & Hk & Hlt & Hnth).
  exists k. split; [exact Hk |]. intros [| n].
  - cbn [nthNextIndex getNextIndex nextIndexIndex indices initialIndex fst].
    rewrite Nat.add_0_r, Nat.mod_small by exact Hlt. symmetry. exact Hnth.
  - cbn [nthNextIndex getNextIndex nextIndexIndex indices initialIndex snd].
    rewrite Hk, nthNextIndex_from by exact Hlt. f_equal. f_equal. lia.
Qed.

(** X14: a new cursor only returns indices of its list, returns every index
    of the list within as many calls as the list is long, and repeats
    itself with the length of the list as its period. *)
Theorem getNextIndex_round :
  forall (l : list Index) (initial : Index) (self : LoopableIndices Index),
    newLoopableIndices l initial = Done self ->
    (forall n, In (nthNextIndex self n) l)
    /\ (forall x, In x l -> exists n, n < length l /\ nthNextIndex self n = x)
    /\ (forall n, nthNextIndex self (n + length l) = nthNextIndex self n).
Proof.
  intros l initial self Hnew.
  destruct (newLoopableIndices_Done _ _ _ Hnew) as (-> & k & Hk & Hlt & Hnth).
  assert (Hformula : forall n,
             nthNextIndex (mkLoopableIndices l initial None) n
             = nth ((k + n) mod length l) l initial).
  { intros [| n].
    - cbn [nthNextIndex getNextIndex nextIndexIndex indices initialIndex fst].
    rewrite Nat.add_0_r, Nat.mod_small by exact Hlt. symmetry. exact Hnth.
    - cbn [nthNextIndex getNextIndex nextIndexIndex indices initialIndex snd].
      rewrite Hk, nthNextIndex_from by exact Hlt. f_equal. f_equal. lia. }
  split; [| split].
  - intros n. rewrite Hformula. apply nth_In. apply Nat.mod_upper_bound. lia.
  - intros x Hx. destruct (In_nth _ _ initial Hx) as (j & Hj & Hjx).
    exists ((j + (length l - k)) mod length l). split.
    + apply Nat.mod_upper_bound. lia.
    + rewrite Hformula, Nat.Div0.add_mod_idemp_r.
      replace (k + (j + (length l - k))) with (j + 1 * length l) by lia.
      rewrite Nat.Div0.mod_add, Nat.mod_small by exact Hj. exact Hjx.
  - intros n. rewrite !Hformula. f_equal.
    replace (k + (n + length l)) with (k + n + 1 * length l) by lia.
    apply Nat.Div0.mod_add.
Qed.

End CursorFacts.

(** ** The order of the coordinates and the neighbours *)

Section AxisPlaceFacts.
Context {Index : Type} `{EqDec Index}.
Variables (previous next : AdjacentIndexFinder Index) (sorter : IndexSorter Index).
Variable axis : list Index.
Hypothesis Haxis : WellFormedAxis previous next sorter axis.

Lemma axis_next_place i j :
  In i axis -> In j axis ->
  next i = Some j <-> place axis j = S (place axis i).
Proof.
  intros Hi Hj. pose proof (axis_NoDup _ _ _ _ Haxis) as Hnd.
  pose proof (place_nth_error axis i Hi) as Hki.
  pose proof (place_nth_error axis j Hj) as Hkj.
  rewrite (axis_next _ _ _ _ Haxis _ _ Hki). split.
  - intros Hnext. exact (nth_error_place axis Hnd _ _ Hnext).
  - intros <-. exact Hkj.
Qed.

Lemma axis_previous_place i j :
  In i axis -> In j axis ->
  previous i = Some j <-> place axis i = S (place axis j).
Proof.
  intros Hi Hj. pose proof (axis_NoDup _ _ _ _ Haxis) as Hnd.
  pose proof (place_nth_error axis i Hi) as Hki.
  pose proof (place_nth_error axis j Hj) as Hkj.
  split.
  - intros Hprevious.
    destruct (axis_previous_position _ _ _ _ Haxis _ _ _ Hki Hprevious) as [Hk Hpos].
    pose proof (nth_error_place axis Hnd _ _ Hk). lia.
  - intros Hplace. rewrite Hplace in Hki.
    rewrite (axis_previous _ _ _ _ Haxis _ _ Hki). exact Hkj.
Qed.

Lemma axis_sorter_sgn i j :
  In i axis -> In j axis ->
  Z.sgn (sorter i j) = Z.sgn (Z.of_nat (place axis i) - Z.of_nat (place axis j)).
Proof.
  intros Hi Hj. pose proof (axis_NoDup _ _ _ _ Haxis) as Hnd.
  apply (axis_sorter _ _ _ _ Haxis); apply place_nth_error; assumption.
Qed.

End AxisPlaceFacts.

Section OrderNeighbourTheorems.
Context {ColumnIndex RowIndex : Type}.
Context `{EqDec ColumnIndex} `{EqDec RowIndex}.
Variable this : CoordinateNavigator ColumnIndex RowIndex.
Variable columns : list ColumnIndex.
Variable rows : list RowIndex.
Hypothesis Hgrid : WellFormedGrid this columns rows.

Lemma createCoordinatesSorter_sgn (a b : Coordinate ColumnIndex RowIndex) :
  onGrid columns rows a -> onGrid columns rows b ->
  Z.sgn (createCoordinatesSorter this a b)
  = if place rows (rowIndex a) =? place rows (rowIndex b)
    then Z.sgn (Z.of_nat (place columns (columnIndex a))
                - Z.of_nat (place columns (columnIndex b)))
    else Z.sgn (Z.of_nat (place rows (rowIndex a)) - Z.of_nat (place rows (rowIndex b))).
Proof.
  intros [Hac Har] [Hbc Hbr]. destruct Hgrid as [Hcolumns Hrows].
  pose proof (axis_sorter_sgn _ _ _ _ Hcolumns _ _ Hac Hbc) as Hcsgn.
  pose proof (axis_sorter_sgn _ _ _ _ Hrows _ _ Har Hbr) as Hrsgn.
  unfold createCoordinatesSorter.
  destruct (rowIndexSorter this (rowIndex a) (rowIndex b) =? 0)%Z eqn:Hzero; simpl.
  - apply Z.eqb_eq in Hzero. rewrite Hzero in Hrsgn.
    destruct (place rows (rowIndex a) =? place rows (rowIndex b)) eqn:Hplace.
    + exact Hcsgn.
    + apply Nat.eqb_neq in Hplace. simpl in Hrsgn. lia.
  - apply Z.eqb_neq in Hzero.
    destruct (place rows (rowIndex a) =? place rows (rowIndex b)) eqn:Hplace.
    + apply Nat.eqb_eq in Hplace. lia.
    + exact Hrsgn.
Qed.

(** X15: on a well-formed grid the sorter of coordinates is a total order
    of the cells: it gives 0 only for equal cells, swapping the cells
    swaps the sign, and the order is transitive. *)
Theorem createCoordinatesSorter_total_order :
  forall a b c : Coordinate ColumnIndex RowIndex,
    onGrid columns rows a -> onGrid columns rows b -> onGrid columns rows c ->
    (createCoordinatesSorter this a b = 0%Z <-> a = b)
    /\ Z.sgn (createCoordinatesSorter this b a)
       = (- Z.sgn (createCoordinatesSorter this a b))%Z
    /\ ((createCoordinatesSorter this a b <= 0)%Z ->
        (createCoordinatesSorter this b c <= 0)%Z ->
        (createCoordinatesSorter this a c <= 0)%Z).
Proof.
  intros a b c Ha Hb Hc.
  pose proof (createCoordinatesSorter_sgn a b Ha Hb) as Hab.
  pose proof (createCoordinatesSorter_sgn b a Hb Ha) as Hba.
  pose proof (createCoordinatesSorter_sgn b c Hb Hc) as Hbc.
  pose proof (createCoordinatesSorter_sgn a c Ha Hc) as Hac.
  destruct Hgrid as [Hcolumns Hrows].
  pose proof (axis_NoDup _ _ _ _ Hcolumns) as Hndc.
  pose proof (axis_NoDup _ _ _ _ Hrows) as Hndr.
  split; [| split].
  - split.
    + intros Hzero. rewrite Hzero in Hab. simpl in Hab.
      destruct (place rows (rowIndex a) =? place rows (rowIndex b)) eqn:Hplace.
      * apply Nat.eqb_eq in Hplace.
        destruct a as [ca ra], b as [cb rb], Ha as [Hca Hra], Hb as [Hcb Hrb].
        simpl in *. f_equal.
        -- apply (place_injective columns); [exact Hca | exact Hcb | lia].
        -- apply (place_injective rows); [exact Hra | exact Hrb | exact Hplace].
      * apply Nat.eqb_neq in Hplace. lia.
    + intros <-. rewrite Nat.eqb_refl, Z.sub_diag in Hab. simpl in Hab.
      apply Z.sgn_null_iff. exact Hab.
  - rewrite Hab, Hba.
    destruct (place rows (rowIndex a) =? place rows (rowIndex b)) eqn:Hplace.
    + apply Nat.eqb_eq in Hplace. rewrite Hplace, Nat.eqb_refl. lia.
    + apply Nat.eqb_neq in Hplace.
      destruct (place rows (rowIndex b) =? place rows (rowIndex a)) eqn:Hplace';
        [apply Nat.eqb_eq in Hplace' |]; lia.
  - intros Hle1 Hle2.
    destruct (place rows (rowIndex a) =? place rows (rowIndex b)) eqn:Hp1;
      [apply Nat.eqb_eq in Hp1 | apply Nat.eqb_neq in Hp1];
      (destruct (place rows (rowIndex b) =? place rows (rowIndex c)) eqn:Hp2;
       [apply Nat.eqb_eq in Hp2 | apply Nat.eqb_neq in Hp2]);
      (destruct (place rows (rowIndex a) =? place rows (rowIndex c)) eqn:Hp3;
       [apply Nat.eqb_eq in Hp3 | apply Nat.eqb_neq in Hp3]); lia.
Qed.

(** X16: on a well-formed grid the coordinates that surround a cell are
    exactly the cells at distance 1 from it. *)
Theorem getSurroundingCoordinates_distance_one :
  forall (fuel : nat) (a b : Coordinate ColumnIndex RowIndex),
    onGrid columns rows a -> onGrid columns rows b ->
    length columns + length rows <= fuel ->
    In b (getSurroundingCoordinates this a) <->
    calculateDistance this fuel a b = Done (Right 1).
Proof.
  intros fuel a b Ha Hb Hfuel.
  pose proof (calculateDistance_places this columns rows Hgrid fuel a b Ha Hb) as Hvalue.
  assert (Hlen : 2 <= fuel).
  { destruct Ha as [Hac Har]. destruct Hgrid as [Hcolumns Hrows].
    pose proof (place_lt columns _ Hac). pose proof (place_lt rows _ Har). lia. }
  rewrite getSurroundingCoordinates_In. unfold oneStepFrom.
  destruct Ha as [Hac Har], Hb as [Hbc Hbr]. destruct Hgrid as [Hcolumns Hrows].
  pose proof (axis_NoDup _ _ _ _ Hcolumns) as Hndc.
  pose proof (axis_NoDup _ _ _ _ Hrows) as Hndr.
  rewrite (axis_previous_place _ _ _ _ Hcolumns _ _ Hac Hbc),
    (axis_next_place _ _ _ _ Hcolumns _ _ Hac Hbc),
    (axis_previous_place _ _ _ _ Hrows _ _ Har Hbr),
    (axis_next_place _ _ _ _ Hrows _ _ Har Hbr).
  split.
  - intros [[Hrow Hstep] | [Hcolumn Hstep]].
    + rewrite Hvalue by auto. rewrite Hrow. do 2 f_equal. lia.
    + rewrite Hvalue by auto. rewrite Hcolumn. do 2 f_equal. lia.
  - intros Hone.
    destruct (eq_dec (columnIndex a) (columnIndex b)) as [Hc | Hc].
    + rewrite Hvalue in Hone by auto. injection Hone as Hone. rewrite Hc in Hone.
      right. split; [congruence | lia].
    + destruct (eq_dec (rowIndex a) (rowIndex b)) as [Hr | Hr].
      * rewrite Hvalue in Hone by auto. injection Hone as Hone. rewrite Hr in Hone.
        left. split; [congruence | lia].
      * destruct (calculateDistance_not_aligned_on_grid this columns rows
                    (conj Hcolumns Hrows) fuel a b (conj Hac Har) (conj Hbc Hbr) Hc Hr Hlen)
          as [failure Hfailure].
        rewrite Hfailure in Hone. discriminate.
Qed.

End OrderNeighbourTheorems.

(** ** The mirror and the starting coordinates on a well-formed grid *)

Lemma mapM_Throws {A B : Type} (f : A -> outcome B) (l : list A) (e : Failure) :
  (forall x, In x l -> (exists y, f x = Done y) \/ f x = Throws e) ->
  (exists x, In x l /\ f x = Throws e) ->
  mapM f l = Throws e.
Proof.
  induction l as [| x l IH]; intros Hall (thrower & Hin & Hthrows); [contradiction |].
  simpl. destruct (Hall x (or_introl eq_refl)) as [[y Hy] | Hx].
  - rewrite Hy. simpl. destruct Hin as [-> | Hin]; [congruence |].
    rewrite IH; [reflexivity | intros z Hz; apply Hall; right; exact Hz | eauto].
  - rewrite Hx. reflexivity.
Qed.

Lemma keyOf_None {A : Type} `{EqDec A} (l : list A) x : ~ In x l -> keyOf l x = None.
Proof.
  induction l as [| y l IH]; simpl; [reflexivity |].
  intros Hnotin. destruct (eq_dec y x) as [-> | Hneq]; [tauto |].
  rewrite IH by tauto. reflexivity.
Qed.

Lemma StronglySorted_nth_error {A : Type} (R : A -> A -> Prop) (l : list A) :
  (forall k1 k2 x y,
      k1 < k2 -> nth_error l k1 = Some x -> nth_error l k2 = Some y -> R x y) ->
  StronglySorted R l.
Proof.
  induction l as [| x l IH]; intros Hl; constructor.
  - apply IH. intros k1 k2 a b Hlt Ha Hb. apply (Hl (S k1) (S k2)); [lia | exact Ha | exact Hb].
  - apply Forall_forall. intros y Hy. apply In_nth_error in Hy. destruct Hy as [k Hk].
    apply (Hl 0 (S k)); [lia | reflexivity | exact Hk].
Qed.

Lemma sort_ordered {A : Type} (comparator : A -> A -> Z) (l : list A) :
  StronglySorted (fun x y => (comparator x y <= 0)%Z) l -> sort comparator l = l.
Proof.
  induction 1 as [| x l Hsorted IH Hall]; [reflexivity |].
  unfold sort in *. simpl. rewrite IH. destruct l as [| y l']; [reflexivity |].
  simpl. inversion Hall as [| ? ? Hxy _]; subst.
  destruct (comparator x y >? 0)%Z eqn:Hgt; [| reflexivity].
  apply Z.gtb_lt in Hgt. lia.
Qed.

Section MirrorOnGrid.
Context {ColumnIndex RowIndex : Type}.
Context `{EqDec ColumnIndex} `{EqDec RowIndex}.
Variable this : CoordinateNavigator ColumnIndex RowIndex.
Variable columns : list ColumnIndex.
Variable rows : list RowIndex.
Hypothesis Hgrid : WellFormedGrid this columns rows.

Lemma grid_indices_Done fuel :
  onGrid columns rows (reference this) ->
  length columns + length rows <= fuel ->
  exists origin,
    getGridOrigin this fuel = Done origin
    /\ nth_error columns 0 = Some (columnIndex origin)
    /\ nth_error rows 0 = Some (rowIndex origin)
    /\ walk (findNextColumnIndex this) (columnIndex origin) columns
    /\ walk (findNextRowIndex this) (rowIndex origin) rows
    /\ createIndices fuel (columnIndex origin) (findNextColumnIndex this) = Done columns
    /\ createIndices fuel (rowIndex origin) (findNextRowIndex this) = Done rows.
Proof.
  intros Hreference Hfuel.
  destruct (getGridOrigin_on_grid this columns rows Hgrid fuel Hreference Hfuel)
    as (firstColumn & firstRow & Hfirstc & Hfirstr & Horigin).
  destruct Hgrid as [Hcolumns Hrows].
  pose proof (axis_walk _ _ _ _ Hcolumns 0 _ Hfirstc) as Hwalkc.
  pose proof (axis_walk _ _ _ _ Hrows 0 _ Hfirstr) as Hwalkr.
  exists (mkCoordinate firstColumn firstRow). simpl.
  repeat split; try assumption; apply createIndices_walk; try assumption; lia.
Qed.

Lemma reversed_place (row : RowIndex) :
  In row rows ->
  exists k,
    keyOf rows row = Some k
    /\ In (nth k (rev rows) row) rows
    /\ place rows (nth k (rev rows) row) + place rows row + 1 = length rows.
Proof.
  intros Hrow. destruct Hgrid as [_ Hrows].
  pose proof (axis_NoDup _ _ _ _ Hrows) as Hnd.
  pose proof (place_nth_error rows row Hrow) as Hplace.
  pose proof (place_lt rows row Hrow) as Hlt.
  exists (place rows row). split; [apply keyOf_nth_error; assumption |].
  rewrite rev_nth by exact Hlt.
  assert (Hk : length rows - S (place rows row) < length rows) by lia.
  pose proof (nth_error_nth' rows row Hk) as Hnth.
  split; [eapply nth_error_In; exact Hnth |].
  rewrite (nth_error_place rows Hnd _ _ Hnth). lia.
Qed.

(** X17: on a well-formed grid [mirror] keeps the column of every
    coordinate and replaces its row by the row at the same place
    counted from the last row: the places of the two rows add up to
    the number of rows less one. *)
Theorem mirror_flips_rows :
  forall (fuel : nat) (input : list (Coordinate ColumnIndex RowIndex)),
    onGrid columns rows (reference this) ->
    length columns + length rows <= fuel ->
    (forall c, In c input -> In (rowIndex c) rows) ->
    exists mirrored,
      mirror this fuel input = Done mirrored
      /\ Forall2 (fun c m =>
                    columnIndex m = columnIndex c
                    /\ In (rowIndex m) rows
                    /\ place rows (rowIndex m) + place rows (rowIndex c) + 1 = length rows)
                 input mirrored.
Proof.
  intros fuel input Hreference Hfuel Hinput.
  destruct (grid_indices_Done fuel Hreference Hfuel)
    as (origin & Horigin & _ & _ & _ & _ & _ & Hrows).
  eexists. split; [exact (mirror_Done this fuel origin rows input Horigin Hrows Hinput) |].
  clear Horigin Hrows. induction input as [| c input IH]; simpl; constructor.
  - destruct (reversed_place (rowIndex c) (Hinput c (or_introl eq_refl)))
      as (k & -> & Hin & Hplace).
    simpl. auto.
  - apply IH. intros c' Hc'. apply Hinput. right. exact Hc'.
Qed.

(** X18: on a well-formed grid [mirror] fails with an assertion error as
    soon as one coordinate has a row that is no row of the grid. *)
Theorem mirror_unknown_row :
  forall (fuel : nat) (input : list (Coordinate ColumnIndex RowIndex))
         (c : Coordinate ColumnIndex RowIndex),
    onGrid columns rows (reference this) ->
    length columns + length rows <= fuel ->
    In c input -> ~ In (rowIndex c) rows ->
    mirror this fuel input = Throws AssertionError.
Proof.
  intros fuel input c Hreference Hfuel Hc Hrow.
  destruct (grid_indices_Done fuel Hreference Hfuel)
    as (origin & Horigin & _ & _ & _ & _ & _ & Hrows).
  unfold mirror. rewrite Horigin. simpl. rewrite Hrows. simpl.
  apply mapM_Throws.
  - intros x _. destruct (keyOf rows (rowIndex x)); simpl; eauto.
  - exists c. split; [exact Hc |]. rewrite (keyOf_None _ _ Hrow). reflexivity.
Qed.

(** X19: on a well-formed grid the starting coordinates are the cells of
    the first column in the first [minShipSize] rows, or in all the
    rows when the grid has fewer, from the first row on. *)
Theorem findStartingCoordinates_first_column :
  forall (fuel : nat) (minShipSize : ShipSize),
    onGrid columns rows (reference this) ->
    length columns + length rows <= fuel ->
    exists firstColumn,
      nth_error columns 0 = Some firstColumn
      /\ findStartingCoordinates this fuel minShipSize
         = Done (map (fun row => mkCoordinate firstColumn row) (firstn minShipSize rows)).
Proof.
  intros fuel minShipSize Hreference Hfuel.
  destruct (grid_indices_Done fuel Hreference Hfuel)
    as (origin & Horigin & Hfirstc & _ & _ & Hwalkr & _ & _).
  exists (columnIndex origin). split; [exact Hfirstc |].
  rewrite (findStartingCoordinates_Done this minShipSize fuel origin rows Horigin Hwalkr).
  f_equal. apply sort_ordered. apply StronglySorted_nth_error.
  intros k1 k2 x y Hlt Hx Hy.
  rewrite nth_error_map in Hx, Hy.
  destruct (nth_error (firstn minShipSize rows) k1) as [r1 |] eqn:Hr1; [| discriminate].
  destruct (nth_error (firstn minShipSize rows) k2) as [r2 |] eqn:Hr2; [| discriminate].
  injection Hx as <-. injection Hy as <-.
  assert (Hk2 : k2 < minShipSize).
  { assert (k2 < length (firstn minShipSize rows)) by (apply nth_error_Some; congruence).
    rewrite length_firstn in *. lia. }
  rewrite nth_error_firstn in Hr1, Hr2.
  destruct (k1 <? minShipSize) eqn:Hk1'; [| discriminate].
  destruct (k2 <? minShipSize) eqn:Hk2'; [| discriminate].
  pose proof (nth_error_In _ _ Hr1) as Hin1. pose proof (nth_error_In _ _ Hr2) as Hin2.
  pose proof (nth_error_In _ _ Hfirstc) as Hinc.
  pose proof (createCoordinatesSorter_place this columns rows Hgrid
                (mkCoordinate (columnIndex origin) r1) (mkCoordinate (columnIndex origin) r2)
                (conj Hinc Hin1) (conj Hinc Hin2)) as Hpos.
  simpl in Hpos. destruct Hgrid as [_ Hrows].
  pose proof (axis_NoDup _ _ _ _ Hrows) as Hnd.
  rewrite (nth_error_place rows Hnd _ _ Hr1), (nth_error_place rows Hnd _ _ Hr2) in Hpos.
  apply Z.nlt_ge. intros Hgt. apply Hpos in Hgt. lia.
Qed.

Lemma traverseStartingCoordinatesFrom_columns (columnIndices : list ColumnIndex) :
  forall (loopableStartingRows : LoopableIndices RowIndex) c,
    In c (traverseStartingCoordinatesFrom loopableStartingRows columnIndices) ->
    In (columnIndex c) columnIndices.
Proof.
  induction columnIndices as [| column columnIndices IH]; intros loopable c; simpl;
    [contradiction |].
  destruct (getNextIndex loopable) as [row loopable']. simpl.
  intros [<- | Hc]; [left; reflexivity | right; exact (IH _ _ Hc)].
Qed.

Lemma traverseGridDiagonally_columns fuel (columnIndices : list ColumnIndex) minShipSize
      (startingCoordinates : list (Coordinate ColumnIndex RowIndex)) startingCoordinate list :
  traverseGridDiagonally fuel columnIndices minShipSize startingCoordinates
                         startingCoordinate (findNextRowIndex this) = Done list ->
  forall c, In c list -> In (columnIndex c) columnIndices.
Proof.
  unfold traverseGridDiagonally.
  destruct (negb (contains startingCoordinates startingCoordinate)); [discriminate |].
  destruct (newLoopableIndices _ _) as [loopable | |]; simpl bind; try discriminate.
  match goal with
  | |- (lists <- ?m ;; _) = _ -> _ => destruct m as [lists | |] eqn:Hlists
  end; simpl bind; try discriminate.
  intros [= <-] c Hc. apply in_concat in Hc. destruct Hc as (l & Hl & Hc).
  apply mapM_Done_inv in Hlists.
  destruct (Forall2_In_r _ _ _ _ Hlists Hl) as (first & Hfirst & Hdone).
  destruct (createIndices fuel (rowIndex first) _) as [stepped | |]; simpl in Hdone;
    try discriminate.
  injection Hdone as <-. apply in_map_iff in Hc. destruct Hc as (row & <- & _). simpl.
  exact (traverseStartingCoordinatesFrom_columns _ _ _ Hfirst).
Qed.

Lemma traverseGridDiagonallyInDirection_columns fuel minShipSize origin diagonals :
  getGridOrigin this fuel = Done origin ->
  createIndices fuel (columnIndex origin) (findNextColumnIndex this) = Done columns ->
  traverseGridDiagonallyInDirection this fuel minShipSize = Done diagonals ->
  forall list c, In list diagonals -> In c list -> In (columnIndex c) columns.
Proof.
  intros Horigin Hcolumns. unfold traverseGridDiagonallyInDirection.
  rewrite Horigin. simpl bind. rewrite Hcolumns. simpl bind.
  destruct (findStartingCoordinates this fuel minShipSize) as [starting | |];
    simpl bind; try discriminate.
  intros Hdiagonals list c Hlist Hc. apply mapM_Done_inv in Hdiagonals.
  destruct (Forall2_In_r _ _ _ _ Hdiagonals Hlist) as (s & _ & Hdone).
  exact (traverseGridDiagonally_columns _ _ _ _ _ _ Hdone c Hc).
Qed.

(** X20: on a well-formed grid [traverseGrid] returns lists that are not
    empty and hold cells of the grid only, and every cell of the grid
    is in one of them. *)
Theorem traverseGrid_on_grid :
  forall (fuel : nat) (minShipSize : ShipSize),
    0 < minShipSize ->
    onGrid columns rows (reference this) ->
    length columns + length rows <= fuel ->
    exists lists,
      traverseGrid this fuel minShipSize = Done lists
      /\ (forall list,
             In list lists ->
             list <> [] /\ forall c, In c list -> onGrid columns rows c)
      /\ forall c, onGrid columns rows c -> exists list, In list lists /\ In c list.
Proof.
  intros fuel minShipSize Hsize Hreference Hfuel.
  destruct (grid_indices_Done fuel Hreference Hfuel)
    as (origin & Horigin & _ & _ & Hwalkc & Hwalkr & Hcreatec & Hcreater).
  assert (Hcfuel : length columns <= fuel) by lia.
  assert (Hrfuel : length rows <= fuel) by lia.
  destruct (traverseGrid_covers_grid this minShipSize Hsize fuel origin columns rows
              Horigin Hwalkc Hwalkr Hcfuel Hrfuel) as (lists & Hlists & Hcover).
  exists lists. split; [exact Hlists | split].
  - destruct (traverseGridDiagonallyInDirection_Done this minShipSize Hsize fuel origin
                columns rows Horigin Hwalkc Hwalkr Hcfuel Hrfuel)
      as (diagonals & Hdiagonals & Hdiagonal_rows & _).
    pose proof (traverseGridDiagonallyInDirection_columns _ _ _ _ Horigin Hcreatec
                  Hdiagonals) as Hdiagonal_columns.
    unfold traverseGrid in Hlists. rewrite Hdiagonals in Hlists. simpl bind in Hlists.
    match type of Hlists with
    | (pairs <- ?m ;; _) = _ => destruct m as [pairs | |] eqn:Hpairs
    end; simpl bind in Hlists; try discriminate.
    injection Hlists as <-. apply mapM_Done_inv in Hpairs.
    intros list Hlist. apply filter_In in Hlist. destruct Hlist as [Hlist Hlength].
    apply Nat.ltb_lt in Hlength.
    split; [intros ->; simpl in Hlength; lia |].
    apply in_concat in Hlist. destruct Hlist as (pair & Hpair & Hlist).
    destruct (Forall2_In_r _ _ _ _ Hpairs Hpair) as (diagonal & Hdiagonal & Hdone).
    rewrite (mirror_Done this fuel origin rows diagonal Horigin Hcreater
               (fun c Hc => Hdiagonal_rows diagonal c Hdiagonal Hc)) in Hdone.
    simpl in Hdone. injection Hdone as <-.
    destruct Hlist as [<- | [<- | []]]; intros c Hc.
    + split; [exact (Hdiagonal_columns _ _ Hdiagonal Hc)
             | exact (Hdiagonal_rows _ _ Hdiagonal Hc)].
    + apply in_map_iff in Hc. destruct Hc as (c' & <- & Hc'). split; simpl.
      * exact (Hdiagonal_columns _ _ Hdiagonal Hc').
      * destruct (reversed_place (rowIndex c') (Hdiagonal_rows _ _ Hdiagonal Hc'))
          as (k & -> & Hin & _).
        exact Hin.
  - intros [column row] [Hcolumn Hrow]. exact (Hcover column row Hcolumn Hrow).
Qed.

End MirrorOnGrid.

(** ** The distance between two indices *)

Section IndexDistanceFacts.
Context {Index : Type} `{EqDec Index}.
Variable next : AdjacentIndexFinder Index.

Lemma calculateDistanceLoop_least fuel :
  forall count index second d,
    calculateDistanceLoop fuel count index second next = Done (Right d) ->
    forall n, n < d - count -> findNextIndexByStep next index n <> Some second.
Proof.
  induction fuel as [| fuel IH]; intros count index second d; simpl; [discriminate |].
  destruct (eq_dec index second) as [-> | Hneq].
  - intros [= <-] n Hn. lia.
  - destruct (next index) as [potentialNext |] eqn:Hnext; [| discriminate].
    intros Hloop [| n] Hn; [intros [= Heq]; contradiction |].
    rewrite findNextIndexByStep_S, Hnext. apply (IH _ _ _ _ Hloop). lia.
Qed.

Lemma calculateDistanceLoop_reached fuel :
  forall count index second d,
    findNextIndexByStep next index d = Some second ->
    d < fuel ->
    exists d',
      d' <= d
      /\ calculateDistanceLoop fuel count index second next = Done (Right (count + d')).
Proof.
  induction fuel as [| fuel IH]; intros count index second d Hsteps Hfuel; [lia |].
  simpl. destruct (eq_dec index second) as [-> | Hneq].
  - exists 0. rewrite Nat.add_0_r. split; [lia | reflexivity].
  - destruct d as [| d]; [injection Hsteps as Heq; contradiction |].
    rewrite findNextIndexByStep_S in Hsteps.
    destruct (next index) as [potentialNext |]; [| discriminate].
    destruct (IH (S count) _ _ _ Hsteps) as (d' & Hle & Hloop); [lia |].
    exists (S d'). split; [lia |]. rewrite Hloop. do 2 f_equal. lia.
Qed.

(** X21: the distance between two indices is the least number of steps
    from the first to the second: a returned distance is that number,
    a failure tells that no number of steps leads to the second, and
    a second index met in fewer steps than the fuel gives a distance. *)
Theorem calculateDistanceBetweenIndices_least :
  forall (fuel : nat) (first second : Index),
    (forall d,
        calculateDistanceBetweenIndices fuel first second next = Done (Right d) ->
        findNextIndexByStep next first d = Some second
        /\ forall n, n < d -> findNextIndexByStep next first n <> Some second)
    /\ (forall failure,
           calculateDistanceBetweenIndices fuel first second next = Done (Left failure) ->
           forall n, findNextIndexByStep next first n <> Some second)
    /\ (forall d,
           findNextIndexByStep next first d = Some second ->
           d < fuel ->
           exists d',
             d' <= d
             /\ calculateDistanceBetweenIndices fuel first second next = Done (Right d')).
Proof.
  intros fuel first second. unfold calculateDistanceBetweenIndices. split; [| split].
  - intros d Hloop. split.
    + destruct (calculateDistanceLoop_Right _ _ _ _ _ _ Hloop) as [_ Hsteps].
      rewrite Nat.sub_0_r in Hsteps. exact Hsteps.
    + intros n Hn. apply (calculateDistanceLoop_least _ _ _ _ _ Hloop). lia.
  - intros failure Hloop. exact (calculateDistanceLoop_Left _ _ _ _ _ _ Hloop).
  - intros d Hsteps Hfuel.
    exact (calculateDistanceLoop_reached fuel 0 first second d Hsteps Hfuel).
Qed.

End IndexDistanceFacts.

(** ** The example grid is well formed *)

Section ExampleGridFacts.

Lemma sortColumns_antisymmetric : antisymmetric sortColumns.
Proof. intros i j. unfold sortColumns. lia. Qed.

Lemma sortRows_antisymmetric : antisymmetric sortRows.
Proof. intros i j. unfold sortRows. lia. Qed.

Lemma nextColumn_finiteAcyclic : finiteAcyclic nextColumn.
Proof.
  apply (well_founded_lt_compat _ (fun column => Z.to_nat (5 - columnOrdinal column))).
  intros j i Hstep. destruct i; simpl in Hstep; inversion Hstep; subst; simpl; lia.
Qed.

Lemma previousColumn_finiteAcyclic : finiteAcyclic previousColumn.
Proof.
  apply (well_founded_lt_compat _ (fun column => Z.to_nat (columnOrdinal column))).
  intros j i Hstep. destruct i; simpl in Hstep; inversion Hstep; subst; simpl; lia.
Qed.

Lemma nextRow_finiteAcyclic : finiteAcyclic nextRow.
Proof.
  apply (well_founded_lt_compat _ (fun row => Z.to_nat (5 - row))).
  intros j i Hstep. unfold nextRow in Hstep.
  destruct ((1 <=? i) && (i <? 5))%Z eqn:Hrange; inversion Hstep; subst. lia.
Qed.

Lemma previousRow_finiteAcyclic : finiteAcyclic previousRow.
Proof.
  apply (well_founded_lt_compat _ (fun row => Z.to_nat row)).
  intros j i Hstep. unfold previousRow in Hstep.
  destruct ((1 <? i) && (i <=? 5))%Z eqn:Hrange; inversion Hstep; subst. lia.
Qed.

Tactic Notation "axis_cases" ident(k) :=
  do 5 (try (destruct k as [| k]; simpl; [intros [= <-] |]));
  try (intros Hnone; destruct k; discriminate Hnone).

Lemma columns_WellFormedAxis :
  WellFormedAxis previousColumn nextColumn sortColumns columns.
Proof.
  split.
  - unfold columns. repeat constructor; simpl; intuition discriminate.
  - intros k i. unfold columns. axis_cases k; reflexivity.
  - intros k i. unfold columns.
    destruct k as [| k]; simpl; [intros [= <-]; reflexivity |].
    axis_cases k; try reflexivity.
  - intros i [= <-]. reflexivity.
  - intros k l i j. unfold columns.
    axis_cases k; axis_cases l; reflexivity.
Qed.

Lemma rows_WellFormedAxis :
  WellFormedAxis previousRow nextRow sortRows rows.
Proof.
  split.
  - unfold rows. repeat constructor; simpl; intuition discriminate.
  - intros k i. unfold rows. axis_cases k; reflexivity.
  - intros k i. unfold rows.
    destruct k as [| k]; simpl; [intros [= <-]; reflexivity |].
    axis_cases k; try reflexivity.
  - intros i [= <-]. reflexivity.
  - intros k l i j. unfold rows.
    axis_cases k; axis_cases l; reflexivity.
Qed.

Lemma descendingOrder_rearranges : rearranges descendingOrder.
Proof. intros V entries. apply sort_Permutation. Qed.

(** The order of the large maps shows in the result: for the ten
    cells of the rows 1 and 5 and the distance 3, maps that iterate in
    the order of insertion give four alignments, and maps that iterate
    in the descending order give eight, the alignment (D1, E1) among
    them. *)
Lemma findAlignments_follows_map_order :
  let input := map (fun column => coordinate column 1) columns
               ++ map (fun column => coordinate column 5) columns in
  (exists alignments,
      findAlignments navigator (fun V entries => entries) 10 input 3 = Done alignments
      /\ length alignments = 4)
  /\ exists alignments,
      findAlignments navigator descendingOrder 10 input 3 = Done alignments
      /\ length alignments = 8
      /\ In (mkAlignment HORIZONTAL [coordinate D 1; E1]) alignments.
Proof.
  split; eexists; (split; [vm_compute; reflexivity |]).
  - reflexivity.
  - split; [reflexivity |]. simpl. tauto.
Qed.

(** The maps of an input of three coordinates hold at most three
    entries and iterate in the order of insertion, whatever the order
    of the large maps. *)
Lemma findAlignments_repeated_input (hashOrder : MapOrder TestCoordinate) :
  findAlignments navigator hashOrder 4 [A1; A2; A2] 4
  = Done [mkAlignment VERTICAL [A1; A2; A2]].
Proof. vm_compute. reflexivity. Qed.

(** C4, as the spec states it, fails: an input that holds A2 twice
    gives an alignment that holds A2 twice. *)
Lemma findAlignments_repeats_repeated_input :
  exists alignments alignment,
    findAlignments navigator descendingOrder 4 [A1; A2; A2] 4 = Done alignments
    /\ In alignment alignments
    /\ ~ NoDup (coordinates alignment).
Proof.
  exists [mkAlignment VERTICAL [A1; A2; A2]], (mkAlignment VERTICAL [A1; A2; A2]).
  split; [apply findAlignments_repeated_input | split; [left; reflexivity |]].
  simpl. intros Hnd. inversion Hnd as [| ? ? _ Hnd']; subst.
  inversion Hnd' as [| ? ? Hnotin _]; subst. apply Hnotin. left. reflexivity.
Qed.

End ExampleGridFacts.

(** ** The examples of the spec on the example grid *)

Section ExampleGrid.

(** C9, as the spec states it, fails: on the example grid the
    surrounding coordinates of C3 are not returned in the order
    B3, D3, C2, C4. *)
Lemma getSurroundingCoordinates_C3_not_columns_first :
  getSurroundingCoordinates navigator C3 <> [B3; D3; C2; C4].
Proof. vm_compute. discriminate. Qed.

(** C9, amended: on the example grid [getSurroundingCoordinates C3]
    returns the four neighbours B3, D3, C2 and C4 in the row-major
    order (rows compared first, then columns), which is the sequence
    C2, B3, D3, C4. *)
Theorem getSurroundingCoordinates_C3_row_major :
  getSurroundingCoordinates navigator C3 = [C2; B3; D3; C4]
  /\ Permutation (getSurroundingCoordinates navigator C3) [B3; D3; C2; C4]
  /\ StronglySorted rowMajor (getSurroundingCoordinates navigator C3).
Proof.
  assert (Hvalue : getSurroundingCoordinates navigator C3 = [C2; B3; D3; C4])
    by (vm_compute; reflexivity).
  rewrite Hvalue. split; [reflexivity | split].
  - apply (@Permutation_cons_app _ [B3; D3; C4] [B3; D3] [C4] C2).
    reflexivity.
  - repeat constructor; unfold rowMajor; vm_compute; discriminate.
Qed.

(** C6 fails on the code: for the coordinates A1, B1, C1, A2 the
    returned list holds the alignment (B1, C1), which is contained in
    the returned alignment (A1, B1, C1).  The vertical alignment
    (A1, A2) stands between the two, and only the alignment just
    before is compared.  The maps of this input hold at most four
    entries and iterate in the order of insertion. *)
Theorem findAlignments_keeps_contained_alignment :
  forall (hashOrder : MapOrder TestCoordinate) fuel,
    findAlignments navigator hashOrder (4 + fuel) [A1; B1; C1; A2] 4
    = Done [mkAlignment HORIZONTAL [A1; B1; C1];
            mkAlignment VERTICAL [A1; A2];
            mkAlignment HORIZONTAL [B1; C1]]
    /\ incl [B1; C1] [A1; B1; C1].
Proof.
  intros hashOrder fuel. split; [vm_compute; reflexivity |].
  intros x [<- | [<- | []]]; simpl; auto.
Qed.

End ExampleGrid.

(** ** The theorems at work on the example grid *)

Section Witnesses.

Lemma calculateDistance_not_aligned_witness :
  (calculateDistance navigator 2 A1 B2 = Done (Left (forPair A1 B2))
   \/ calculateDistance navigator 2 A1 B2 = Done (Left (forPair B2 A1)))
  /\ (calculateDistance navigator 2 B2 A1 = Done (Left (forPair B2 A1))
      \/ calculateDistance navigator 2 B2 A1 = Done (Left (forPair A1 B2))).
Proof.
  apply (calculateDistance_not_aligned navigator
           sortColumns_antisymmetric sortRows_antisymmetric A1 B2);
    [discriminate | discriminate | lia].
Defined.


Lemma findAlignments_groups_witness :
  2 <= length [A1; A2; A3; A5]
  /\ (exists column, forall c, In c [A1; A2; A3; A5] -> columnIndex c = column)
  /\ (NoDup [A1; A2; A3; A5; E1] -> NoDup [A1; A2; A3; A5]).
Proof.
  apply (findAlignments_groups navigator descendingOrder descendingOrder_rearranges 6
           [A1; A2; A3; A5; E1] 4
           [mkAlignment HORIZONTAL [A1; E1]; mkAlignment VERTICAL [A1; A2; A3; A5]]
           (mkAlignment VERTICAL [A1; A2; A3; A5])).
  - vm_compute. reflexivity.
  - simpl. auto.
Defined.

Lemma example_WellFormedGrid : WellFormedGrid navigator columns rows.
Proof. split; [exact columns_WellFormedAxis | exact rows_WellFormedAxis]. Qed.

Lemma example_onGrid (column : TestColumn) (row : Z) :
  In row rows -> onGrid columns rows (coordinate column row).
Proof.
  intros Hrow. split; [| exact Hrow]. destruct column; simpl; tauto.
Qed.

Lemma example_getGridOrigin fuel origin :
  getGridOrigin navigator fuel = Done origin -> origin = A1.
Proof.
  do 4 (destruct fuel as [| fuel]; [discriminate |]).
  intros [= <-]. reflexivity.
Qed.

Lemma example_rowIndices fuel rowIndices :
  createIndices fuel 1%Z nextRow = Done rowIndices -> rowIndices = rows.
Proof.
  do 5 (destruct fuel as [| fuel]; [discriminate |]).
  intros [= <-]. reflexivity.
Qed.

Lemma example_inGrid (column : TestColumn) (row : Z) :
  In row rows -> inGrid navigator A1 (coordinate column row).
Proof.
  intros Hrow. split.
  - destruct column; [exists 0 | exists 1 | exists 2 | exists 3 | exists 4]; reflexivity.
  - simpl in Hrow. decompose [or] Hrow; try contradiction; subst;
      [exists 0 | exists 1 | exists 2 | exists 3 | exists 4]; reflexivity.
Qed.

Lemma traverseGrid_intersects_runs_witness :
  exists fuel lists,
    traverseGrid navigator fuel 2 = Done lists
    /\ isRun navigator 2 [A1; B1]
    /\ exists c list, In c [A1; B1] /\ In list lists /\ In c list.
Proof.
  destruct (traverseGrid_intersects_runs navigator
              previousColumn_finiteAcyclic previousRow_finiteAcyclic
              nextColumn_finiteAcyclic nextRow_finiteAcyclic 2)
    as [fuel Hfuel]; [lia |].
  destruct (Hfuel fuel (le_n fuel)) as (origin & lists & Horigin & Hlists & Hruns).
  apply example_getGridOrigin in Horigin. subst origin.
  assert (Hrun : isRun navigator 2 [A1; B1]).
  { apply (horizontalRun navigator 2 A1 [A; B]). reflexivity. }
  exists fuel, lists. split; [exact Hlists | split; [exact Hrun |]].
  apply Hruns; [exact Hrun |].
  intros c [<- | [<- | []]]; apply example_inGrid; simpl; tauto.
Defined.

Lemma calculateDistance_symmetric_witness :
  (exists d, calculateDistance navigator 10 A1 A4 = Done (Right d)
             /\ calculateDistance navigator 10 A4 A1 = Done (Right d))
  /\ calculateDistance navigator 10 C3 C3 = Done (Right 0).
Proof.
  destruct (calculateDistance_symmetric navigator columns rows example_WellFormedGrid 10)
    as [Hpair Hself]; [simpl; lia |].
  split.
  - apply Hpair; [apply example_onGrid | apply example_onGrid | left; reflexivity];
      simpl; tauto.
  - apply Hself. apply example_onGrid. simpl. tauto.
Defined.

Lemma findAlignmentGaps_merged_contiguous_witness :
  findAlignments navigator descendingOrder 10 [A1; A2; A5; E1] 4
  = Done [mkAlignment HORIZONTAL [A1; E1]; mkAlignment VERTICAL [A1; A2; A5]]
  /\ findAlignmentGaps navigator 10 (mkAlignment VERTICAL [A1; A2; A5]) = Done [A3; A4]
  /\ findAlignmentGaps navigator 10 (mkAlignment VERTICAL ([A1; A2; A5] ++ [A3; A4]))
     = Done [].
Proof.
  destruct (findAlignmentGaps_merged_contiguous navigator columns rows
              example_WellFormedGrid descendingOrder descendingOrder_rearranges
              10 [A1; A2; A5; E1] 4)
    as (alignments & Hfound & Hgaps).
  - intros c [<- | [<- | [<- | [<- | []]]]]; apply example_onGrid; simpl; tauto.
  - simpl. lia.
  - assert (Hvalue : findAlignments navigator descendingOrder 10 [A1; A2; A5; E1] 4
                     = Done [mkAlignment HORIZONTAL [A1; E1];
                             mkAlignment VERTICAL [A1; A2; A5]])
      by (vm_compute; reflexivity).
    rewrite Hvalue in Hfound. injection Hfound as <-.
    destruct (Hgaps (mkAlignment VERTICAL [A1; A2; A5])) as (gaps & Hdone & Hmerged);
      [right; left; reflexivity |].
    assert (Hgapsvalue : findAlignmentGaps navigator 10 (mkAlignment VERTICAL [A1; A2; A5])
                         = Done [A3; A4])
      by (vm_compute; reflexivity).
    rewrite Hgapsvalue in Hdone. injection Hdone as <-.
    split; [exact Hvalue | split; [exact Hgapsvalue |]].
    apply (Hmerged ([A1; A2; A5] ++ [A3; A4])). reflexivity.
Defined.

Lemma getSurroundingCoordinates_spec_witness :
  length (getSurroundingCoordinates navigator C3) <= 4
  /\ NoDup (getSurroundingCoordinates navigator C3)
  /\ (forall coordinate,
         In coordinate (getSurroundingCoordinates navigator C3) ->
         oneStepFrom navigator C3 coordinate
         /\ calculateDistance navigator 10 C3 coordinate = Done (Right 1))
  /\ (length (getSurroundingCoordinates navigator C3) < 4 <-> atBoundary navigator C3).
Proof.
  apply (getSurroundingCoordinates_spec navigator columns rows example_WellFormedGrid C3 10).
  - apply example_onGrid. simpl. tauto.
  - simpl. lia.
Defined.

Lemma mirror_involution_witness :
  exists fuel mirrored,
    mirror navigator fuel [A1; B2; C4] = Done mirrored
    /\ mirror navigator fuel mirrored = Done [A1; B2; C4]
    /\ map (@columnIndex _ _) mirrored = [A; B; C].
Proof.
  destruct (mirror_involution navigator
              previousColumn_finiteAcyclic previousRow_finiteAcyclic nextRow_finiteAcyclic)
    as [fuel Hfuel].
  destruct (Hfuel fuel (le_n fuel)) as (origin & rowIndices & Horigin & Hrows & Hmirror).
  apply example_getGridOrigin in Horigin. subst origin.
  apply example_rowIndices in Hrows. subst rowIndices.
  destruct (Hmirror [A1; B2; C4]) as (mirrored & Hfirst & Hsecond & Hcolumns).
  - intros c [<- | [<- | [<- | []]]]; simpl; tauto.
  - exists fuel, mirrored. split; [exact Hfirst | split; [exact Hsecond | exact Hcolumns]].
Defined.

End Witnesses.


(** ** The further properties on the example grid *)

Section FurtherWitnesses.

Lemma createIndices_sound_witness :
  (exists rest, rows = 1%Z :: rest)
  /\ NoDup rows
  /\ (forall k index, nth_error rows k = Some index -> nextRow index = nth_error rows (S k))
  /\ forall fuel', 6 <= fuel' -> createIndices fuel' 1%Z nextRow = Done rows.
Proof.
  apply (createIndices_sound nextRow 6 1%Z rows). vm_compute. reflexivity.
Defined.

Lemma getGridOrigin_boundary_witness :
  findPreviousColumnIndex navigator (columnIndex A1) = None
  /\ findPreviousRowIndex navigator (rowIndex A1) = None
  /\ reachable (findPreviousColumnIndex navigator)
               (columnIndex (reference navigator)) (columnIndex A1)
  /\ reachable (findPreviousRowIndex navigator)
               (rowIndex (reference navigator)) (rowIndex A1).
Proof.
  apply (getGridOrigin_boundary navigator 10 A1). vm_compute. reflexivity.
Defined.

Lemma calculateDistance_sound_witness :
  (columnIndex A4 = columnIndex A1
   /\ (findNextIndexByStep (findNextRowIndex navigator) (rowIndex A4) 3
       = Some (rowIndex A1)
       \/ findNextIndexByStep (findNextRowIndex navigator) (rowIndex A1) 3
          = Some (rowIndex A4)))
  \/ (rowIndex A4 = rowIndex A1
      /\ (findNextIndexByStep (findNextColumnIndex navigator) (columnIndex A4) 3
          = Some (columnIndex A1)
          \/ findNextIndexByStep (findNextColumnIndex navigator) (columnIndex A1) 3
             = Some (columnIndex A4))).
Proof.
  apply (calculateDistance_sound navigator 10 A4 A1 3). vm_compute. reflexivity.
Defined.

Lemma getGridOrigin_well_formed_witness :
  exists firstColumn firstRow,
    nth_error columns 0 = Some firstColumn
    /\ nth_error rows 0 = Some firstRow
    /\ getGridOrigin navigator 10 = Done (mkCoordinate firstColumn firstRow)
    /\ createIndices 10 firstColumn (findNextColumnIndex navigator) = Done columns
    /\ createIndices 10 firstRow (findNextRowIndex navigator) = Done rows.
Proof.
  apply (getGridOrigin_well_formed navigator columns rows example_WellFormedGrid 10).
  - apply (example_onGrid C 3%Z). simpl. tauto.
  - simpl. lia.
Defined.

Lemma calculateDistance_on_grid_outcome_witness :
  ((exists failure, calculateDistance navigator 10 A1 B2 = Done (Left failure)) <->
   columnIndex A1 <> columnIndex B2 /\ rowIndex A1 <> rowIndex B2)
  /\ (columnIndex A1 = columnIndex B2 \/ rowIndex A1 = rowIndex B2 ->
      calculateDistance navigator 10 A1 B2
      = Done (Right ((place columns (columnIndex A1) - place columns (columnIndex B2))
                     + (place columns (columnIndex B2) - place columns (columnIndex A1))
                     + ((place rows (rowIndex A1) - place rows (rowIndex B2))
                        + (place rows (rowIndex B2) - place rows (rowIndex A1))))))
  /\ (calculateDistance navigator 10 A1 B2 = Done (Right 0) <-> A1 = B2).
Proof.
  apply (calculateDistance_on_grid_outcome navigator columns rows
           example_WellFormedGrid 10 A1 B2).
  - apply (example_onGrid A 1%Z). simpl. tauto.
  - apply (example_onGrid B 2%Z). simpl. tauto.
  - simpl. lia.
Defined.

Lemma calculateDistance_additive_witness :
  exists d1 d2,
    calculateDistance navigator 10 A1 A2 = Done (Right d1)
    /\ calculateDistance navigator 10 A2 A5 = Done (Right d2)
    /\ calculateDistance navigator 10 A1 A5 = Done (Right (d1 + d2)).
Proof.
  apply (calculateDistance_additive navigator columns rows example_WellFormedGrid
           10 A1 A2 A5).
  - apply (example_onGrid A 1%Z). simpl. tauto.
  - apply (example_onGrid A 2%Z). simpl. tauto.
  - apply (example_onGrid A 5%Z). simpl. tauto.
  - left. split; reflexivity.
  - vm_compute. discriminate.
  - vm_compute. discriminate.
  - simpl. lia.
Defined.

Lemma getSurroundingCoordinates_symmetric_witness :
  onGrid columns rows C2 /\ In C3 (getSurroundingCoordinates navigator C2).
Proof.
  apply (getSurroundingCoordinates_symmetric navigator columns rows
           example_WellFormedGrid C3 C2).
  - apply (example_onGrid C 3%Z). simpl. tauto.
  - left. reflexivity.
Defined.

Lemma findAlignments_sound_witness :
  exists reference,
    In reference [A1; A2; A5]
    /\ forall c,
        In c [A1; A2; A5] ->
        In c [A1; A2; A5; E1]
        /\ (c = reference
            \/ (findCoordinatesAlignmentDirection c reference = Some VERTICAL
                /\ exists d,
                    calculateDistance navigator 10 c reference = Done (Right d)
                    /\ d <= 4)).
Proof.
  apply (findAlignments_sound navigator descendingOrder descendingOrder_rearranges
           10 [A1; A2; A5; E1] 4
           [mkAlignment HORIZONTAL [A1; E1]; mkAlignment VERTICAL [A1; A2; A5]]
           (mkAlignment VERTICAL [A1; A2; A5])).
  - vm_compute. reflexivity.
  - right. left. reflexivity.
Defined.

Lemma findAlignments_complete_witness :
  exists alignments,
    findAlignments navigator descendingOrder 10
                   [A1; A2; A3; A4; A5; B1; B2; B3; C1; C2] 4 = Done alignments
    /\ exists alignment,
        In alignment alignments
        /\ In A1 (coordinates alignment) /\ In A5 (coordinates alignment).
Proof.
  apply (findAlignments_complete navigator columns rows example_WellFormedGrid
           descendingOrder descendingOrder_rearranges
           10 [A1; A2; A3; A4; A5; B1; B2; B3; C1; C2] 4 A1 A5 4).
  - intros c Hc. simpl in Hc. decompose [or] Hc; try contradiction; subst;
      apply example_onGrid; simpl; tauto.
  - repeat constructor; simpl; intuition discriminate.
  - simpl. lia.
  - simpl. tauto.
  - simpl. tauto.
  - discriminate.
  - vm_compute. reflexivity.
  - lia.
Defined.

Lemma findAlignmentGaps_exact_witness :
  exists gaps,
    findAlignmentGaps navigator 10 (mkAlignment VERTICAL [A1; A2; A5]) = Done gaps
    /\ forall g,
        In g gaps <->
        ~ In g [A1; A2; A5]
        /\ insideAlignment columns rows (mkAlignment VERTICAL [A1; A2; A5]) g.
Proof.
  apply (findAlignmentGaps_exact navigator columns rows example_WellFormedGrid
           (mkAlignment VERTICAL [A1; A2; A5]) 10).
  - intros c [<- | [<- | [<- | []]]]; apply example_onGrid; simpl; tauto.
  - exists A. intros c [<- | [<- | [<- | []]]]; reflexivity.
  - simpl. lia.
Defined.

Lemma findNextExtremums_exact_witness :
  (forall e,
      In e (findNextExtremums navigator (mkAlignment VERTICAL [A2; A3])) <->
      besideAlignment navigator columns rows (mkAlignment VERTICAL [A2; A3]) e)
  /\ (forall e,
         In e (findNextExtremums navigator (mkAlignment VERTICAL [A2; A3])) ->
         onGrid columns rows e /\ ~ In e [A2; A3])
  /\ length (findNextExtremums navigator (mkAlignment VERTICAL [A2; A3])) <= 2.
Proof.
  apply (findNextExtremums_exact navigator columns rows example_WellFormedGrid
           (mkAlignment VERTICAL [A2; A3])).
  - intros c [<- | [<- | []]]; apply example_onGrid; simpl; tauto.
  - exists A. intros c [<- | [<- | []]]; reflexivity.
Defined.

Lemma getNextIndex_cycles_witness :
  exists k,
    keyOf rows 3%Z = Some k
    /\ forall n,
        nthNextIndex (mkLoopableIndices rows 3%Z None) n
        = nth ((k + n) mod length rows) rows 3%Z.
Proof.
  apply (getNextIndex_cycles rows 3%Z (mkLoopableIndices rows 3%Z None)).
  vm_compute. reflexivity.
Defined.

Lemma getNextIndex_round_witness :
  (forall n, In (nthNextIndex (mkLoopableIndices rows 3%Z None) n) rows)
  /\ (forall x,
         In x rows ->
         exists n, n < length rows
                   /\ nthNextIndex (mkLoopableIndices rows 3%Z None) n = x)
  /\ forall n,
      nthNextIndex (mkLoopableIndices rows 3%Z None) (n + length rows)
      = nthNextIndex (mkLoopableIndices rows 3%Z None) n.
Proof.
  apply (getNextIndex_round rows 3%Z (mkLoopableIndices rows 3%Z None)).
  vm_compute. reflexivity.
Defined.

Lemma createCoordinatesSorter_total_order_witness :
  (createCoordinatesSorter navigator A1 B1 = 0%Z <-> A1 = B1)
  /\ Z.sgn (createCoordinatesSorter navigator B1 A1)
     = (- Z.sgn (createCoordinatesSorter navigator A1 B1))%Z
  /\ ((createCoordinatesSorter navigator A1 B1 <= 0)%Z ->
      (createCoordinatesSorter navigator B1 A2 <= 0)%Z ->
      (createCoordinatesSorter navigator A1 A2 <= 0)%Z).
Proof.
  apply (createCoordinatesSorter_total_order navigator columns rows
           example_WellFormedGrid A1 B1 A2).
  - apply (example_onGrid A 1%Z). simpl. tauto.
  - apply (example_onGrid B 1%Z). simpl. tauto.
  - apply (example_onGrid A 2%Z). simpl. tauto.
Defined.

Lemma getSurroundingCoordinates_distance_one_witness :
  In B3 (getSurroundingCoordinates navigator C3) <->
  calculateDistance navigator 10 C3 B3 = Done (Right 1).
Proof.
  apply (getSurroundingCoordinates_distance_one navigator columns rows
           example_WellFormedGrid 10 C3 B3).
  - apply (example_onGrid C 3%Z). simpl. tauto.
  - apply (example_onGrid B 3%Z). simpl. tauto.
  - simpl. lia.
Defined.

Lemma mirror_flips_rows_witness :
  exists mirrored,
    mirror navigator 10 [A1; B2; C4] = Done mirrored
    /\ Forall2 (fun c m =>
                  columnIndex m = columnIndex c
                  /\ In (rowIndex m) rows
                  /\ place rows (rowIndex m) + place rows (rowIndex c) + 1 = length rows)
               [A1; B2; C4] mirrored.
Proof.
  apply (mirror_flips_rows navigator columns rows example_WellFormedGrid 10 [A1; B2; C4]).
  - apply (example_onGrid C 3%Z). simpl. tauto.
  - simpl. lia.
  - intros c [<- | [<- | [<- | []]]]; simpl; tauto.
Defined.

Lemma mirror_unknown_row_witness :
  mirror navigator 10 [A1; coordinate B 9] = Throws AssertionError.
Proof.
  apply (mirror_unknown_row navigator columns rows example_WellFormedGrid 10
           [A1; coordinate B 9] (coordinate B 9)).
  - apply (example_onGrid C 3%Z). simpl. tauto.
  - simpl. lia.
  - right. left. reflexivity.
  - simpl. intuition discriminate.
Defined.

Lemma findStartingCoordinates_first_column_witness :
  exists firstColumn,
    nth_error columns 0 = Some firstColumn
    /\ findStartingCoordinates navigator 10 2
       = Done (map (fun row => mkCoordinate firstColumn row) (firstn 2 rows)).
Proof.
  apply (findStartingCoordinates_first_column navigator columns rows
           example_WellFormedGrid 10 2).
  - apply (example_onGrid C 3%Z). simpl. tauto.
  - simpl. lia.
Defined.

Lemma traverseGrid_on_grid_witness :
  exists lists,
    traverseGrid navigator 10 2 = Done lists
    /\ (forall list,
           In list lists ->
           list <> [] /\ forall c, In c list -> onGrid columns rows c)
    /\ forall c, onGrid columns rows c -> exists list, In list lists /\ In c list.
Proof.
  apply (traverseGrid_on_grid navigator columns rows example_WellFormedGrid 10 2).
  - lia.
  - apply (example_onGrid C 3%Z). simpl. tauto.
  - simpl. lia.
Defined.

Lemma calculateDistanceBetweenIndices_least_witness :
  findNextIndexByStep nextRow 2%Z 3 = Some 5%Z
  /\ (forall n, n < 3 -> findNextIndexByStep nextRow 2%Z n <> Some 5%Z)
  /\ (forall n, findNextIndexByStep nextRow 4%Z n <> Some 2%Z).
Proof.
  destruct (calculateDistanceBetweenIndices_least nextRow 10 2%Z 5%Z) as (Hright & _ & _).
  destruct (calculateDistanceBetweenIndices_least nextRow 10 4%Z 2%Z) as (_ & Hleft & _).
  destruct (Hright 3) as [Hsteps Hleast]; [vm_compute; reflexivity |].
  split; [exact Hsteps | split; [exact Hleast |]].
  apply (Hleft tt). vm_compute. reflexivity.
Defined.

End FurtherWitnesses.
